(** * Voice: a shallow embedding of the conversational audio client

    The development follows the layout of the repository:
    - [Types]      : [types.ts], the message record and the state enum;
    - [Js]         : the fragments of JavaScript semantics the code relies
                     on (truthiness, optional chaining, [trim]);
    - [AudioUtils] : what the service uses of [utils/audioUtils.ts];
    - [Service]    : [services/geminiService.ts], the audio context
                     singleton, the capture quantizer, the playback
                     scheduler and the text-to-speech call;
    - [App]        : [App.tsx], transcript accumulation, error handling and
                     the uploaded-files list;
    - [View]       : the status line and the button of the two components;
    - [Sample]     : concrete inputs on which the handlers are run;
    - [Spec]       : the properties in the words of the specification;
    - [Double]     : JavaScript numbers as binary64 values;
    - [Session]    : the message handler of the service on what arrives:
                     numbers are doubles, a model turn may lack its parts;
    - [Async]      : [onMessage] of [App.tsx] cut at its awaits;
    - [Arrivals], [Stated] : inputs and properties for these two;
    - [ServiceFacts], [AppFacts], [TypesFacts] : the proofs;
    - [ServiceExtras], [AppExtras], [ComponentExtras] :
                     further properties read off the code;
    - [DoubleFacts], [SessionFacts], [AsyncFacts] : the proofs about the
                     playback schedule, the interruption and the transcript
                     accumulators.

    Conventions. An object created by the code (audio context, source
    node) lives in a list used as a heap and is referred to by its index.
    In [Service] and [App] the audio clock is read as an exact rational,
    a model turn carries its parts, and a handler is a function from the
    state before it runs to the state after it has run to completion.
    [Session] and [Async] drop these three simplifications: what depends on
    the rounding of sums, on a model turn without parts, or on what happens
    while [onMessage] is suspended is stated and proved there. *)

From Stdlib Require Import ZArith QArith Qminmax Qabs Lia Bool Ascii String List.
From Stdlib Require Floats.
From stdpp Require Import base option list gmap strings pretty.

Local Open Scope Z_scope.

(* ===================================================================== *)
(** ** types.ts *)
(* ===================================================================== *)

Module Types.

(** [author: 'user' | 'gemini'] *)
Inductive Author : Type := user | gemini.

Definition Author_value (a : Author) : string :=
  match a with user => "user" | gemini => "gemini" end.

(** [interface TranscriptionEntry { author; text }] *)
Record TranscriptionEntry : Type := mkEntry {
  author : Author;
  text : string;
}.

(** [enum AppState] with its string values *)
Inductive AppState : Type := IDLE | CONNECTING | CONNECTED | ERROR.

Definition AppState_value (s : AppState) : string :=
  match s with
  | IDLE => "IDLE"
  | CONNECTING => "CONNECTING"
  | CONNECTED => "CONNECTED"
  | ERROR => "ERROR"
  end.

Definition all_AppStates : list AppState := [IDLE; CONNECTING; CONNECTED; ERROR].
Definition all_Authors : list Author := [user; gemini].

#[global] Instance Author_eq_dec : EqDecision Author.
Proof. solve_decision. Defined.
#[global] Instance AppState_eq_dec : EqDecision AppState.
Proof. solve_decision. Defined.
#[global] Instance TranscriptionEntry_eq_dec : EqDecision TranscriptionEntry.
Proof. solve_decision. Defined.

(** The record as a pair and back: the two projections are all there is. *)
Definition entry_to_pair (e : TranscriptionEntry) : Author * string :=
  (author e, text e).
Definition entry_of_pair (p : Author * string) : TranscriptionEntry :=
  mkEntry (fst p) (snd p).

End Types.

(* ===================================================================== *)
(** ** JavaScript semantics used by the sources *)
(* ===================================================================== *)

Module Js.

(** Strings are sequences of code units; the model keeps the code units
    below 256, which is what [string] holds. *)

(** ToBoolean on a string: only the empty string is falsy. *)
Definition truthy_string (s : string) : bool :=
  match s with EmptyString => false | String _ _ => true end.

(** ToBoolean on [string | null | undefined]. *)
Definition truthy (o : option string) : bool :=
  match o with Some s => truthy_string s | None => false end.

(** ToBoolean on [boolean | undefined]. *)
Definition truthy_bool (o : option bool) : bool :=
  match o with Some b => b | None => false end.

(** WhiteSpace and LineTerminator code units below 256:
    TAB, LF, VT, FF, CR, SP and NBSP. *)
Definition is_white (c : ascii) : bool :=
  let n := nat_of_ascii c in
  ((9 <=? n)%nat && (n <=? 13)%nat) || (n =? 32)%nat || (n =? 160)%nat.

Fixpoint trimStart (s : string) : string :=
  match s with
  | EmptyString => EmptyString
  | String c s' => if is_white c then trimStart s' else s
  end.

(** Drops the trailing white space: a character is kept when it is not
    white or when something is kept after it. *)
Fixpoint trimEnd (s : string) : string :=
  match s with
  | EmptyString => EmptyString
  | String c s' =>
      match trimEnd s' with
      | EmptyString => if is_white c then EmptyString else String c EmptyString
      | r => String c r
      end
  end.

(** [String.prototype.trim] *)
Definition trim (s : string) : string := trimEnd (trimStart s).

(** Optional chaining [o?.f]: [undefined] (and [null]) short-circuit. *)
Definition chain {A B : Type} (o : option A) (f : A → option B) : option B :=
  match o with
  | Some a => f a
  | None => None
  end.

Fixpoint concat_all (l : list string) : string :=
  match l with
  | [] => EmptyString
  | s :: l' => s +:+ concat_all l'
  end.

End Js.

Infix "?." := Js.chain (at level 50, left associativity).

(* ===================================================================== *)
(** ** utils/audioUtils.ts *)
(* ===================================================================== *)

Module AudioUtils.

(** Bytes are integers in [0, 256). *)
Definition b64_alphabet : string :=
  "ABCDEFGHIJKLMNOPQRSTUVWXYZabcdefghijklmnopqrstuvwxyz0123456789+/".

Definition b64_char (n : Z) : ascii :=
  match String.get (Z.to_nat n) b64_alphabet with
  | Some c => c
  | None => "="%char
  end.

(** Modelled from the spec: [encode] of utils/audioUtils is not among the
    sources; the spec names it the base64 wire encoding of the frame bytes.
    This is the standard alphabet with [=] padding, three bytes to four
    characters. *)
Fixpoint encode (bytes : list Z) : string :=
  match bytes with
  | [] => EmptyString
  | [a] =>
      String (b64_char (a / 4))
     (String (b64_char (a mod 4 * 16)) "==")
  | [a; b] =>
      String (b64_char (a / 4))
     (String (b64_char (a mod 4 * 16 + b / 16))
     (String (b64_char (b mod 16 * 4)) "="))
  | a :: b :: c :: rest =>
      String (b64_char (a / 4))
     (String (b64_char (a mod 4 * 16 + b / 16))
     (String (b64_char (b mod 16 * 4 + c / 64))
     (String (b64_char (c mod 64)) (encode rest))))
  end.

(** What the Web Audio API exposes of a decoded buffer. *)
Record AudioBuffer : Type := mkAudioBuffer {
  duration : Q;
  sampleRate : Z;
  numberOfChannels : Z;
}.

End AudioUtils.

(* ===================================================================== *)
(** ** services/geminiService.ts *)
(* ===================================================================== *)

Module Service.
Import AudioUtils.

Definition INPUT_SAMPLE_RATE : Z := 16000.
Definition OUTPUT_SAMPLE_RATE : Z := 24000.
Definition SCRIPT_PROCESSOR_BUFFER_SIZE : Z := 4096.

(** *** The shared output context *)

Inductive AudioContextState : Type := suspended | running | closed.

#[global] Instance AudioContextState_eq_dec : EqDecision AudioContextState.
Proof. solve_decision. Defined.

Record AudioContext : Type := mkAudioContext {
  state : AudioContextState;
  ctx_sampleRate : Z;
}.

(** The browser's audio contexts are a heap indexed by reference; the
    module-level [let outputAudioContext] holds a reference or [null]. *)
Record World : Type := mkWorld {
  contexts : list AudioContext;
  outputAudioContext : option nat;
}.

(** [new AudioContext({ sampleRate })]: a fresh object, not closed. *)
Definition new_AudioContext (rate : Z) (w : World) : nat * World :=
  (length (contexts w),
   mkWorld (contexts w ++ [mkAudioContext suspended rate])
           (outputAudioContext w)).

Definition state_of (w : World) (c : nat) : option AudioContextState :=
  state <$> contexts w !! c.

Definition is_closed (w : World) (c : nat) : bool :=
  bool_decide (state_of w c = Some closed).

Definition getOutputAudioContext (w : World) : nat * World :=
  match outputAudioContext w with
  | Some c =>
      if is_closed w c then
        let '(c', w') := new_AudioContext OUTPUT_SAMPLE_RATE w in
        (c', mkWorld (contexts w') (Some c'))
      else (c, w)
  | None =>
      let '(c', w') := new_AudioContext OUTPUT_SAMPLE_RATE w in
      (c', mkWorld (contexts w') (Some c'))
  end.

(** *** Capture: [createBlob] *)

(** A Float32Array element: a finite value (held exactly as a rational),
    NaN or an infinity. *)
Inductive float : Type :=
| Finite (q : Q)
| NaN
| Infinity (negative : bool).

(** [x * 32768] on a Float32 value widened to a double: a scaling by a
    power of two, exact on every finite Float32. *)
Definition times_32768 (x : float) : float :=
  match x with
  | Finite q => Finite (q * 32768)
  | NaN => NaN
  | Infinity n => Infinity n
  end.

(** Rounding toward zero. *)
Definition truncate (q : Q) : Z := Z.quot (Qnum q) (Z.pos (Qden q)).

(** The store into an Int16Array slot (ToInt16): NaN and the infinities
    become 0, a finite value is truncated and taken modulo 2^16 into
    [-32768, 32767]. *)
Definition ToInt16 (x : float) : Z :=
  match x with
  | Finite q =>
      let int16bit := truncate q mod 65536 in
      if 32768 <=? int16bit then int16bit - 65536 else int16bit
  | NaN | Infinity _ => 0
  end.

(** The loop [for (i = 0; i < l; i++) int16[i] = data[i] * 32768]. *)
Fixpoint quantize (data : list float) : list Z :=
  match data with
  | [] => []
  | x :: rest => ToInt16 (times_32768 x) :: quantize rest
  end.

(** [new Uint8Array(int16.buffer)]: two bytes per element, low byte
    first, two's complement. *)
Fixpoint Uint8Array_of_Int16 (int16 : list Z) : list Z :=
  match int16 with
  | [] => []
  | v :: rest =>
      (v mod 65536) mod 256 :: (v mod 65536) / 256 :: Uint8Array_of_Int16 rest
  end.

(** The SDK's [Blob]: both fields optional. *)
Record Blob : Type := mkBlob {
  data : option string;
  mimeType : option string;
}.

Definition createBlob (data : list float) : Blob :=
  let int16 := quantize data in
  {| data := Some (encode (Uint8Array_of_Int16 int16));
     mimeType := Some ("audio/pcm;rate=" +:+ pretty INPUT_SAMPLE_RATE) |}.

(** [createScriptProcessor(bufferSize, 1, 1)]: the node buffers the
    incoming samples and fires [onaudioprocess] each time [bufferSize] of
    them are pending; [pending] is the partly filled buffer. *)
Fixpoint scriptProcessor_frames (bufferSize : nat) (pending : list float)
    (stream : list float) : list (list float) :=
  match stream with
  | [] => []
  | x :: rest =>
      let filled := pending ++ [x] in
      if (length filled =? bufferSize)%nat
      then filled :: scriptProcessor_frames bufferSize [] rest
      else scriptProcessor_frames bufferSize filled rest
  end.

(** [scriptProcessor.onaudioprocess]: the blob handed to
    [session.sendRealtimeInput]. *)
Definition onaudioprocess (inputData : list float) : Blob :=
  createBlob inputData.

(** The capture path of [startConversation] on a microphone stream. *)
Definition capture (stream : list float) : list Blob :=
  onaudioprocess <$>
    scriptProcessor_frames (Z.to_nat SCRIPT_PROCESSOR_BUFFER_SIZE) [] stream.

(** *** The live server message, as the handlers read it *)

Record Part : Type := mkPart {
  inlineData : option Blob;
}.

(** [onmessage] indexes [modelTurn.parts] directly: here a model turn
    carries its parts array. [Session.Content] is the record with [parts]
    optional. *)
Record Content : Type := mkContent {
  parts : list Part;
}.

Record Transcription : Type := mkTranscription {
  text : option string;
}.

Record LiveServerContent : Type := mkLiveServerContent {
  modelTurn : option Content;
  interrupted : option bool;
  turnComplete : option bool;
  inputTranscription : option Transcription;
  outputTranscription : option Transcription;
}.

Record LiveServerMessage : Type := mkLiveServerMessage {
  serverContent : option LiveServerContent;
}.

(** [message.serverContent?.modelTurn?.parts[0]?.inlineData?.data] *)
Definition base64Audio_of (message : LiveServerMessage) : option string :=
  serverContent message ?. modelTurn ?. (λ c, parts c !! 0%nat)
    ?. inlineData ?. data.

(** [message.serverContent?.interrupted] as a condition *)
Definition is_interrupted (message : LiveServerMessage) : bool :=
  Js.truthy_bool (serverContent message ?. interrupted).

(** [message.serverContent?.inputTranscription?.text ?? null] *)
Definition inputTranscript_of (message : LiveServerMessage) : option string :=
  serverContent message ?. inputTranscription ?. text.

(** [message.serverContent?.outputTranscription?.text ?? null] *)
Definition outputTranscript_of (message : LiveServerMessage) : option string :=
  serverContent message ?. outputTranscription ?. text.

(** [!!message.serverContent?.turnComplete] *)
Definition isTurnComplete_of (message : LiveServerMessage) : bool :=
  Js.truthy_bool (serverContent message ?. turnComplete).

(** *** Playback: the [onmessage] handler of [startConversation] *)

(** An [AudioBufferSourceNode] after [source.start(when)]. *)
Record AudioBufferSourceNode : Type := mkSource {
  buffer : AudioBuffer;
  when : Q;
  stopped : bool;
}.

Definition stop (n : AudioBufferSourceNode) : AudioBufferSourceNode :=
  {| buffer := buffer n; when := when n; stopped := true |}.

(** The closure state of one conversation: the output context it took at
    its start, the source nodes created so far (a heap, a node's reference
    is its index), the [sources] set and [nextStartTime]. *)
Record Conversation : Type := mkConversation {
  localOutputAudioContext : nat;
  nodes : list AudioBufferSourceNode;
  sources : gset nat;
  nextStartTime : Q;
}.

(** [const sources = new Set(); let nextStartTime = 0;] *)
Definition initial (context : nat) : Conversation :=
  mkConversation context [] ∅ 0%Q.

(** The first lines of [startConversation]: the conversation takes the
    shared output context. *)
Definition startConversation_setup (w : World) : Conversation * World :=
  let '(context, w') := getOutputAudioContext w in
  (initial context, w').

(** [for (const source of sources.values()) source.stop();] *)
Definition stop_all (tracked : list nat) (ns : list AudioBufferSourceNode)
    : list AudioBufferSourceNode :=
  foldl (λ acc i, alter stop i acc) ns tracked.

Section Playback.
(** [decode] and [decodeAudioData] of utils/audioUtils are taken as
    given: base64 text to bytes, and bytes to a buffer made by the given
    context at the asked sample rate and channel count. *)
Variable decode : string → list Z.
Variable decodeAudioData : list Z → nat → Z → Z → AudioBuffer.

(** The audio branch: [currentTime] is the output context's clock when
    the message is handled. Sums are exact here; [Session.schedule] has the
    sums of doubles. *)
Definition schedule (currentTime : Q) (base64Audio : string)
    (c : Conversation) : Conversation :=
  let nextStartTime1 := Qmax (nextStartTime c) currentTime in
  let audioBuffer :=
    decodeAudioData (decode base64Audio) (localOutputAudioContext c)
      OUTPUT_SAMPLE_RATE 1 in
  let source := length (nodes c) in
  {| localOutputAudioContext := localOutputAudioContext c;
     nodes := nodes c ++ [mkSource audioBuffer nextStartTime1 false];
     nextStartTime := (nextStartTime1 + duration audioBuffer)%Q;
     sources := sources c ∪ {[source]} |}.

(** The interruption branch. *)
Definition interrupt (c : Conversation) : Conversation :=
  {| localOutputAudioContext := localOutputAudioContext c;
     nodes := stop_all (elements (sources c)) (nodes c);
     sources := ∅;
     nextStartTime := 0%Q |}.

(** The handler; the second component is the argument triple of
    [callbacks.onMessage]. *)
Definition onmessage (currentTime : Q) (message : LiveServerMessage)
    (c : Conversation) : Conversation * (option string * option string * bool) :=
  let base64Audio := base64Audio_of message in
  let c1 :=
    match base64Audio with
    | Some b => if Js.truthy_string b then schedule currentTime b c else c
    | None => c
    end in
  let c2 := if is_interrupted message then interrupt c1 else c1 in
  (c2, (inputTranscript_of message, outputTranscript_of message,
        isTurnComplete_of message)).

(** The ['ended'] listener of a source: [sources.delete(source)]. *)
Definition onended (source : nat) (c : Conversation) : Conversation :=
  {| localOutputAudioContext := localOutputAudioContext c;
     nodes := nodes c;
     sources := sources c ∖ {[source]};
     nextStartTime := nextStartTime c |}.

(** What happens to a conversation: a server message handled when the
    output clock shows [currentTime], or a source that ends. *)
Inductive Event : Type :=
| Message (currentTime : Q) (message : LiveServerMessage)
| Ended (source : nat).

Definition step (c : Conversation) (e : Event) : Conversation :=
  match e with
  | Message t m => fst (onmessage t m c)
  | Ended s => onended s c
  end.

Definition run (c : Conversation) (es : list Event) : Conversation :=
  foldl step c es.

(** *** Text to speech: [generateSpeech] *)

Record ResponseContent : Type := mkResponseContent {
  rc_parts : option (list Part);
}.

Record Candidate : Type := mkCandidate {
  content : option ResponseContent;
}.

Record GenerateContentResponse : Type := mkResponse {
  candidates : option (list Candidate);
}.

Inductive Result (A : Type) : Type :=
| Return (a : A)
| Throw (message : string).

(** [response.candidates?.[0]?.content?.parts?.[0]?.inlineData?.data] *)
Definition tts_base64Audio (response : GenerateContentResponse)
    : option string :=
  candidates response ?. (λ cs, cs !! 0%nat) ?. content ?. rc_parts
    ?. (λ ps, ps !! 0%nat) ?. inlineData ?. data.

(** [generateSpeech] from the point where [generateContent] has
    resolved to [response]. *)
Definition generateSpeech (response : GenerateContentResponse) (w : World)
    : Result AudioBuffer * World :=
  match tts_base64Audio response with
  | Some b =>
      if Js.truthy_string b then
        let audioBytes := decode b in
        let '(localOutputAudioContext, w') := getOutputAudioContext w in
        (Return _ (decodeAudioData audioBytes localOutputAudioContext
                     OUTPUT_SAMPLE_RATE 1), w')
      else (Throw _ "No audio data received from TTS API.", w)
  | None => (Throw _ "No audio data received from TTS API.", w)
  end.

End Playback.

Arguments Return {A} a.
Arguments Throw {A} message.

(** *** The audio contexts of a conversation *)

(** [context.close()]: the context's state becomes ['closed']. *)
Definition close_AudioContext (c : nat) (w : World) : World :=
  mkWorld
    (alter (λ a, mkAudioContext closed (ctx_sampleRate a)) c (contexts w))
    (outputAudioContext w).

(** The first lines of [startConversation] in the order of the source: a
    new input context at [INPUT_SAMPLE_RATE], then the shared output
    context; the result is the input context and the conversation state. *)
Definition startConversation_contexts (w : World)
    : (nat * Conversation) * World :=
  let '(inputAudioContext, w1) := new_AudioContext INPUT_SAMPLE_RATE w in
  let '(localOutputAudioContext, w2) := getOutputAudioContext w1 in
  ((inputAudioContext, initial localOutputAudioContext), w2).

(** What [close] calls besides closing the input context. *)
Inductive CloseCall : Type :=
| session_close
| scriptProcessor_disconnect
| source_disconnect
| tracks_stop.

(** [close] of the live session: the processor and the microphone source
    are released, the input context is closed, the tracks are stopped; the
    shared output context is not closed here. [session.close()] is the
    first statement, but inside [sessionPromise.then]: it is queued and
    runs once the other statements have run. The calls are listed in the
    order in which they run. *)
Definition close (inputAudioContext : nat) (w : World)
    : list CloseCall * World :=
  ([scriptProcessor_disconnect; source_disconnect; tracks_stop; session_close],
   close_AudioContext inputAudioContext w).

(** [playAudio]: a source on the shared output context, started at once
    ([source.start()] is [start(0)]); the result is the context used and
    the source. *)
Definition playAudio (audioBuffer : AudioBuffer) (w : World)
    : (nat * AudioBufferSourceNode) * World :=
  let '(localOutputAudioContext, w') := getOutputAudioContext w in
  ((localOutputAudioContext, mkSource audioBuffer 0 false), w').

End Service.

(* ===================================================================== *)
(** ** components/TranscriptionDisplay.tsx, components/ConversationControls.tsx *)
(* ===================================================================== *)

Module View.
Import Types.

(** [renderStatus] of the transcription display: the text of the status
    line, or [null]. *)
Definition renderStatus (isProcessingFileQuery : bool) (appState : AppState)
    (history : list TranscriptionEntry) : option string :=
  if isProcessingFileQuery then Some "Gemini is thinking about your files..."
  else
    match appState with
    | IDLE => Some "Click the microphone to start the conversation."
    | CONNECTING => Some "Connecting to Gemini..."
    | CONNECTED =>
        if (length history =? 0)%nat
        then Some "Connected. You can start speaking now."
        else None
    | ERROR =>
        if (length history =? 0)%nat
        then Some "Connection failed. Please check console for errors."
        else None
    end.

(** [getButtonContent] of the controls: the caption of the button. *)
Definition getButtonContent (appState : AppState) : string :=
  match appState with
  | IDLE | ERROR => "Start Conversation"
  | CONNECTING => "Connecting..."
  | CONNECTED => "Stop Conversation"
  end.

Inductive Handler : Type := onStart | onStop.

Definition isConnecting (appState : AppState) : bool :=
  bool_decide (appState = CONNECTING).

Definition isConnected (appState : AppState) : bool :=
  bool_decide (appState = CONNECTED).

(** [onClick={isConnected ? onStop : onStart} disabled={isConnecting}]:
    the handler a click runs, none while the button is disabled. *)
Definition onClick (appState : AppState) : option Handler :=
  if isConnecting appState then None
  else Some (if isConnected appState then onStop else onStart).

(** The line under the button. *)
Definition hint (appState : AppState) : string :=
  if isConnected appState then "Listening..." else "Click start to begin".

End View.

(* ===================================================================== *)
(** ** App.tsx *)
(* ===================================================================== *)

Module App.
Import Types AudioUtils.

(** A browser [File]: the name the list is keyed by, and the rest. *)
Record File : Type := mkFile {
  name : string;
  type : string;
  bytes : list Z;
}.

(** A [LiveSession] object, by reference. *)
Record LiveSession : Type := mkLiveSession {
  session_ref : nat;
}.

Record Error : Type := mkError {
  message : string;
}.

(** Calls that leave the component. *)
Inductive Effect : Type :=
| console_error (label : string) (e : Error)
| stopConversation (liveSession : LiveSession)
| startConversation
| playAudio (audioBuffer : AudioBuffer).

(** The component's state hooks and refs, and the calls made so far. *)
Record State : Type := mkState {
  appState : AppState;
  transcriptionHistory : list TranscriptionEntry;
  error : option string;
  uploadedFiles : list File;
  isProcessingFileQuery : bool;
  liveSessionRef : option LiveSession;
  currentInputTranscriptionRef : string;
  currentOutputTranscriptionRef : string;
  calls : list Effect;
}.

(** The state of a freshly mounted component. *)
Definition mounted : State :=
  mkState IDLE [] None [] false None "" "" [].

Definition setAppState (v : AppState) (s : State) : State :=
  mkState v (transcriptionHistory s) (error s) (uploadedFiles s)
    (isProcessingFileQuery s) (liveSessionRef s)
    (currentInputTranscriptionRef s) (currentOutputTranscriptionRef s) (calls s).

Definition setTranscriptionHistory
    (f : list TranscriptionEntry → list TranscriptionEntry) (s : State) : State :=
  mkState (appState s) (f (transcriptionHistory s)) (error s) (uploadedFiles s)
    (isProcessingFileQuery s) (liveSessionRef s)
    (currentInputTranscriptionRef s) (currentOutputTranscriptionRef s) (calls s).

Definition setError (v : option string) (s : State) : State :=
  mkState (appState s) (transcriptionHistory s) v (uploadedFiles s)
    (isProcessingFileQuery s) (liveSessionRef s)
    (currentInputTranscriptionRef s) (currentOutputTranscriptionRef s) (calls s).

Definition setUploadedFiles (f : list File → list File) (s : State) : State :=
  mkState (appState s) (transcriptionHistory s) (error s) (f (uploadedFiles s))
    (isProcessingFileQuery s) (liveSessionRef s)
    (currentInputTranscriptionRef s) (currentOutputTranscriptionRef s) (calls s).

Definition setIsProcessingFileQuery (v : bool) (s : State) : State :=
  mkState (appState s) (transcriptionHistory s) (error s) (uploadedFiles s)
    v (liveSessionRef s)
    (currentInputTranscriptionRef s) (currentOutputTranscriptionRef s) (calls s).

Definition set_liveSessionRef (v : option LiveSession) (s : State) : State :=
  mkState (appState s) (transcriptionHistory s) (error s) (uploadedFiles s)
    (isProcessingFileQuery s) v
    (currentInputTranscriptionRef s) (currentOutputTranscriptionRef s) (calls s).

Definition set_currentInput (v : string) (s : State) : State :=
  mkState (appState s) (transcriptionHistory s) (error s) (uploadedFiles s)
    (isProcessingFileQuery s) (liveSessionRef s)
    v (currentOutputTranscriptionRef s) (calls s).

Definition set_currentOutput (v : string) (s : State) : State :=
  mkState (appState s) (transcriptionHistory s) (error s) (uploadedFiles s)
    (isProcessingFileQuery s) (liveSessionRef s)
    (currentInputTranscriptionRef s) v (calls s).

Definition call (e : Effect) (s : State) : State :=
  mkState (appState s) (transcriptionHistory s) (error s) (uploadedFiles s)
    (isProcessingFileQuery s) (liveSessionRef s)
    (currentInputTranscriptionRef s) (currentOutputTranscriptionRef s)
    (calls s ++ [e]).

(** *** The uploaded-files list *)

(** A JavaScript [Map] keyed by strings: entries in insertion order,
    [set] on a present key replaces the value where the entry stands. *)
Fixpoint Map_set (k : string) (v : File) (m : list (string * File))
    : list (string * File) :=
  match m with
  | [] => [(k, v)]
  | (k', v') :: m' =>
      if decide (k' = k) then (k', v) :: m' else (k', v') :: Map_set k v m'
  end.

(** [new Map(entries)] *)
Definition Map_new (entries : list (string * File)) : list (string * File) :=
  foldl (λ m e, Map_set e.1 e.2 m) [] entries.

(** [Array.from(fileMap.values())] *)
Definition Map_values (m : list (string * File)) : list File := m.*2.

(** The updater passed to [setUploadedFiles] by [handleFileChange]. *)
Definition merge_files (newFiles prevFiles : list File) : list File :=
  let fileMap := Map_new ((λ file, (name file, file)) <$> prevFiles) in
  let fileMap := foldl (λ m file, Map_set (name file) file m) fileMap newFiles in
  Map_values fileMap.

(** [event.target.files] is [null] or the selection. *)
Definition handleFileChange (files : option (list File)) (s : State) : State :=
  match files with
  | Some newFiles => setUploadedFiles (merge_files newFiles) s
  | None => s
  end.

Definition handleRemoveFile (fileName : string) (s : State) : State :=
  setUploadedFiles (filter (λ file, name file ≠ fileName)) s.

Inductive FileOp : Type :=
| Select (files : option (list File))
| Remove (fileName : string).

Definition file_op (s : State) (op : FileOp) : State :=
  match op with
  | Select files => handleFileChange files s
  | Remove fileName => handleRemoveFile fileName s
  end.

(** *** The conversation callbacks of [handleStart] *)

(** How the two awaited calls of the file question end:
    [generateContentWithFiles] rejects, or it resolves and
    [generateSpeech] rejects, or both resolve. *)
Inductive FileQuery : Type :=
| ContentFails (e : Error)
| SpeechFails (textResponse : string) (e : Error)
| Answered (textResponse : string) (audioBuffer : AudioBuffer).

Definition file_error (e : Error) (s : State) : State :=
  setError (Some ("Error answering question about files: " +:+ message e))
    (call (console_error "Error processing file query:" e) s).

(** The entries pushed to [newHistory]. *)
Definition newHistory_of (fullInput fullOutput : string)
    : list TranscriptionEntry :=
  (if Js.truthy_string fullInput then [mkEntry user fullInput] else [])
  ++ (if Js.truthy_string fullOutput then [mkEntry gemini fullOutput] else []).

(** The first two statements of [onMessage]: a truthy fragment is appended
    to its accumulator. *)
Definition accumulate (inputTranscript outputTranscript : option string)
    (s : State) : State :=
  let s :=
    match inputTranscript with
    | Some t =>
        if Js.truthy_string t
        then set_currentInput (currentInputTranscriptionRef s +:+ t) s
        else s
    | None => s
    end in
  match outputTranscript with
  | Some t =>
      if Js.truthy_string t
      then set_currentOutput (currentOutputTranscriptionRef s +:+ t) s
      else s
  | None => s
  end.

(** The question about the uploaded files, inside [try/catch/finally]. *)
Definition ask_files (query : FileQuery) (s : State) : State :=
  let s := setError None (setIsProcessingFileQuery true s) in
  let s :=
    match query with
    | ContentFails e => file_error e s
    | SpeechFails textResponse e =>
        file_error e
          (setTranscriptionHistory
             (λ prev, prev ++ [mkEntry gemini textResponse]) s)
    | Answered textResponse audioBuffer =>
        call (playAudio audioBuffer)
          (setTranscriptionHistory
             (λ prev, prev ++ [mkEntry gemini textResponse]) s)
    end in
  setIsProcessingFileQuery false s.

(** The body of [if (isTurnComplete)], run as a whole: should the
    question about the files be asked, its two awaited calls settle as
    [query] says before anything else is handled. [Async] has the run cut
    at the two [await]s. *)
Definition commit (uploadedFiles : list File) (query : FileQuery)
    (s : State) : State :=
  let fullInput := Js.trim (currentInputTranscriptionRef s) in
  let fullOutput := Js.trim (currentOutputTranscriptionRef s) in
  let newHistory := newHistory_of fullInput fullOutput in
  let s :=
    if (0 <? length newHistory)%nat
    then setTranscriptionHistory (λ prev, prev ++ newHistory) s
    else s in
  let s :=
    if Js.truthy_string fullInput && (0 <? length uploadedFiles)%nat
    then ask_files query s
    else s in
  set_currentOutput "" (set_currentInput "" s).

(** [onMessage]; [uploadedFiles] is the list the callback closed over
    when [handleStart] ran, [query] the outcome of the file question
    should one be asked. *)
Definition onMessage (uploadedFiles : list File) (query : FileQuery)
    (inputTranscript outputTranscript : option string)
    (isTurnComplete : bool) (s : State) : State :=
  let s := accumulate inputTranscript outputTranscript s in
  if isTurnComplete then commit uploadedFiles query s else s.

Definition onOpen (s : State) : State := setAppState CONNECTED s.

Definition onError (e : Error) (s : State) : State :=
  let s := call (console_error "Gemini Live API Error:" e) s in
  let s :=
    setError (Some ("An error occurred: " +:+ message e
                      +:+ ". Please try again.")) s in
  let s := setAppState ERROR s in
  match liveSessionRef s with
  | Some liveSession =>
      set_liveSessionRef None (call (stopConversation liveSession) s)
  | None => s
  end.

(** [onerror] of the service hands [onError] a new [Error] with the
    event's message. *)
Definition onerror (event_message : string) (s : State) : State :=
  onError (mkError event_message) s.

(** [handleStart] up to its [await]: the state is reset and the
    conversation is being started. *)
Definition handleStart_begin (s : State) : State :=
  call startConversation
    (setTranscriptionHistory (λ _, [])
       (setAppState CONNECTING (setError None s))).

(** [handleStart] after [startConversation] resolved to [session]. *)
Definition handleStart_resolved (session : LiveSession) (s : State) : State :=
  set_liveSessionRef (Some session) s.

(** [handleStart] after [startConversation] rejected with [err]. *)
Definition handleStart_rejected (err : Error) (s : State) : State :=
  setAppState ERROR
    (setError (Some ("Failed to start session: " +:+ message err
                       +:+ ". Please ensure microphone access is granted."))
       (call (console_error "Failed to start conversation:" err) s)).

Definition handleStop (s : State) : State :=
  let s :=
    match liveSessionRef s with
    | Some liveSession =>
        set_liveSessionRef None (call (stopConversation liveSession) s)
    | None => s
    end in
  setAppState IDLE s.

(** *** A server message through both handlers *)

Section Delivery.
Variable decode : string → list Z.
Variable decodeAudioData : list Z → nat → Z → Z → AudioBuffer.

(** [onmessage] of the service, then the component's [onMessage] on the
    triple it extracts. *)
Definition deliver (uploadedFiles : list File)
    (cs : Service.Conversation * State)
    (m : Q * Service.LiveServerMessage * FileQuery)
    : Service.Conversation * State :=
  let '(currentTime, message, query) := m in
  let '(c, (inputTranscript, outputTranscript, isTurnComplete)) :=
    Service.onmessage decode decodeAudioData currentTime message cs.1 in
  (c, onMessage uploadedFiles query inputTranscript outputTranscript
        isTurnComplete cs.2).

Definition deliver_all (uploadedFiles : list File)
    (cs : Service.Conversation * State)
    (ms : list (Q * Service.LiveServerMessage * FileQuery))
    : Service.Conversation * State :=
  foldl (deliver uploadedFiles) cs ms.

End Delivery.

(** *** The remaining callbacks and the events of the component *)

(** [onClose]: [appState] is the value the callback closed over when
    [handleStart] ran. *)
Definition onClose (appState_at_start : AppState) (s : State) : State :=
  if decide (appState_at_start ≠ ERROR) then setAppState IDLE s else s.

(** A click on the button of the controls. *)
Definition click (s : State) : State :=
  match View.onClick (appState s) with
  | Some View.onStart => handleStart_begin s
  | Some View.onStop => handleStop s
  | None => s
  end.

(** The cleanup of the mount effect. *)
Definition unmount (s : State) : State :=
  match liveSessionRef s with
  | Some liveSession => call (stopConversation liveSession) s
  | None => s
  end.

(** What is on screen besides the transcript. *)
Definition status_line (s : State) : option string :=
  View.renderStatus (isProcessingFileQuery s) (appState s)
    (transcriptionHistory s).

(** Everything that drives the component. A callback of the conversation
    carries what it closed over when [handleStart] ran. *)
Inductive Event : Type :=
| Clicked
| StartResolved (session : LiveSession)
| StartRejected (err : Error)
| SdkOpened
| SdkErrored (event_message : string)
| SdkClosed (appState_at_start : AppState)
| SdkMessage (uploadedFiles_at_start : list File) (query : FileQuery)
    (inputTranscript outputTranscript : option string) (isTurnComplete : bool)
| FilesChanged (op : FileOp).

Definition handle (s : State) (e : Event) : State :=
  match e with
  | Clicked => click s
  | StartResolved session => handleStart_resolved session s
  | StartRejected err => handleStart_rejected err s
  | SdkOpened => onOpen s
  | SdkErrored event_message => onerror event_message s
  | SdkClosed appState_at_start => onClose appState_at_start s
  | SdkMessage files query i o turn => onMessage files query i o turn s
  | FilesChanged op => file_op s op
  end.

Definition handle_all (s : State) (es : list Event) : State :=
  foldl handle s es.

(** *** The question about the files, with the service behind it *)

Section FileQuestion.
Variable decode : string → list Z.
Variable decodeAudioData : list Z → nat → Z → Z → AudioBuffer.

(** The outcome of the [try] block of [onMessage]: [content] is how
    [generateContentWithFiles] ended, [response] what the text-to-speech
    model answered. *)
Definition file_query (content : Service.Result string)
    (response : Service.GenerateContentResponse) (w : Service.World)
    : FileQuery * Service.World :=
  match content with
  | Service.Throw m => (ContentFails (mkError m), w)
  | Service.Return textResponse =>
      match Service.generateSpeech decode decodeAudioData response w with
      | (Service.Return audioBuffer, w') =>
          (Answered textResponse audioBuffer,
           (Service.playAudio audioBuffer w').2)
      | (Service.Throw m, w') => (SpeechFails textResponse (mkError m), w')
      end
  end.

End FileQuestion.

End App.

(* ===================================================================== *)
(** ** Sample inputs *)
(* ===================================================================== *)

Module Sample.
Import AudioUtils.

(** Stand-ins for [decode] and [decodeAudioData] on which the handlers can
    be run: one byte per character, and 16-bit frames at the asked rate. *)
Definition decode (s : string) : list Z :=
  (λ a, Z.of_nat (nat_of_ascii a)) <$> list_ascii_of_string s.

Definition decodeAudioData (bytes : list Z) (context : nat)
    (rate channels : Z) : AudioBuffer :=
  {| duration := Z.of_nat (length bytes) / (2 * channels) # Z.to_pos rate;
     sampleRate := rate;
     numberOfChannels := channels |}.

(** A server message carrying audio, an interruption flag and a turn flag. *)
Definition message (audio : option string) (interrupted turnComplete : bool)
    (input output : option string) : Service.LiveServerMessage :=
  Service.mkLiveServerMessage (Some
    {| Service.modelTurn :=
         (λ b, Service.mkContent
                 [Service.mkPart (Some (Service.mkBlob (Some b) None))])
           <$> audio;
       Service.interrupted := Some interrupted;
       Service.turnComplete := Some turnComplete;
       Service.inputTranscription := Service.mkTranscription ∘ Some <$> input;
       Service.outputTranscription := Service.mkTranscription ∘ Some <$> output
    |}).

(** Two audio chunks, the first source ending before the second arrives
    while its scheduled interval is still running. *)
Definition two_chunks : list Service.Event :=
  [Service.Message 0 (message (Some "abcd") false false None None);
   Service.Ended 0;
   Service.Message (1 # 100000)
     (message (Some "abcdef") false false None None)].

End Sample.

(* ===================================================================== *)
(** ** The properties, in the words of the specification *)
(* ===================================================================== *)

Module Spec.
Import Types AudioUtils.

(** A 16-bit two's complement value and its two bytes, low byte first. *)
Definition int16_range (v : Z) : Prop := -32768 <= v <= 32767.

Definition int16_of_bytes (lo hi : Z) : Z :=
  let u := lo + 256 * hi in
  if 32768 <=? u then u - 65536 else u.

(** *** The playback schedule *)

Section Schedule.
Variable decode : string → list Z.
Variable decodeAudioData : list Z → nat → Z → Z → AudioBuffer.

(** An incoming audio chunk: the clock when it is handled and the buffer
    it decodes to in the conversation's output context. *)
Definition chunk_of (context : nat) (e : Service.Event)
    : option (Q * AudioBuffer) :=
  match e with
  | Service.Message t m =>
      match Service.base64Audio_of m with
      | Some b =>
          if Js.truthy_string b
          then Some (t, decodeAudioData (decode b) context 24000 1)
          else None
      | None => None
      end
  | Service.Ended _ => None
  end.

Definition audio_chunks (context : nat) (es : list Service.Event)
    : list (Q * AudioBuffer) :=
  omap (chunk_of context) es.

End Schedule.

(** *** Text to speech *)

(** The response carries the inline audio data [b] in the first part of the
    first candidate's content. *)
Definition carries_audio (response : Service.GenerateContentResponse)
    (b : string) : Prop :=
  ∃ c cs rc p ps blob,
    Service.candidates response = Some (c :: cs) ∧
    Service.content c = Some rc ∧
    Service.rc_parts rc = Some (p :: ps) ∧
    Service.inlineData p = Some blob ∧
    Service.data blob = Some b ∧
    b ≠ EmptyString.

(** *** The transcript *)

(** The entries a completed turn commits: the trimmed input as a 'user'
    entry, then the trimmed output as a 'gemini' entry, each only when it is
    not empty. *)
Definition committed_entries (input output : string) : list TranscriptionEntry :=
  filter (λ e, text e ≠ EmptyString)
    [mkEntry user (Js.trim input); mkEntry gemini (Js.trim output)].

(** The non-null fragments, concatenated in arrival order. *)
Definition fragments (ts : list (option string)) : string :=
  Js.concat_all (omap id ts).

(** *** More of the playback *)

(** What a source was scheduled with: its buffer and its start time. *)
Definition scheduled (c : Service.Conversation) : list (AudioBuffer * Q) :=
  (λ n, (Service.buffer n, Service.when n)) <$> Service.nodes c.

Definition is_message (e : Service.Event) : bool :=
  match e with
  | Service.Message _ _ => true
  | Service.Ended _ => false
  end.

(** Two conversations that agree on what the schedule depends on. *)
Definition same_schedule (c1 c2 : Service.Conversation) : Prop :=
  Service.localOutputAudioContext c1 = Service.localOutputAudioContext c2 ∧
  scheduled c1 = scheduled c2 ∧
  Service.nextStartTime c1 = Service.nextStartTime c2.

(** Every tracked source exists and has not been stopped. *)
Definition tracked_ok (c : Service.Conversation) : Prop :=
  ∀ s, s ∈ Service.sources c →
       ∃ n, Service.nodes c !! s = Some n ∧ Service.stopped n = false.

(** The module variable refers to a context that exists. *)
Definition world_ok (w : Service.World) : Prop :=
  ∀ c, Service.outputAudioContext w = Some c →
       (c < length (Service.contexts w))%nat.

(** The Int16 view of a byte buffer, low byte first. *)
Fixpoint Int16Array_of_Uint8 (bytes : list Z) : list Z :=
  match bytes with
  | lo :: hi :: rest => int16_of_bytes lo hi :: Int16Array_of_Uint8 rest
  | _ => []
  end.

(** *** More of the component *)

(** The sessions a list of calls stops, in order. *)
Definition stopped_sessions (cs : list App.Effect) : list App.LiveSession :=
  omap (λ e, match e with App.stopConversation l => Some l | _ => None end) cs.

(** The sessions a list of events stores, in order. *)
Definition resolved_sessions (es : list App.Event) : list App.LiveSession :=
  omap (λ e, match e with App.StartResolved l => Some l | _ => None end) es.

(** The stored session is known and not yet stopped, and no session has
    been stopped twice; [seen] are the sessions handed over so far. *)
Definition sessions_ok (seen : list App.LiveSession) (s : App.State) : Prop :=
  NoDup (stopped_sessions (App.calls s)) ∧
  (∀ l, l ∈ stopped_sessions (App.calls s) → l ∈ seen) ∧
  (∀ l, App.liveSessionRef s = Some l →
        l ∈ seen ∧ l ∉ stopped_sessions (App.calls s)).

(** A 'user' entry is never empty. *)
Definition user_entries_nonempty (h : list TranscriptionEntry) : Prop :=
  Forall (λ e, author e = user → text e ≠ EmptyString) h.

(** *** The uploaded files *)

(** Every entry of the map is filed under the name of its file. *)
Definition keyed (m : list (string * App.File)) : Prop :=
  Forall (λ e, e.1 = App.name e.2) m.

End Spec.

(* ===================================================================== *)
(** ** JavaScript numbers *)
(* ===================================================================== *)

Module Double.
Import FloatClass PrimFloat FloatOps SpecFloat.

(** A JavaScript number is an IEEE 754 binary64 value, here a primitive
    float: [+] is [PrimFloat.add], the sum rounded to the nearest double
    (ties to even), and [<] is [PrimFloat.ltb]. *)

Definition is_negative_zero (x : float) : bool :=
  match classify x with NZero => true | _ => false end.

Definition is_positive_zero (x : float) : bool :=
  match classify x with PZero => true | _ => false end.

(** [Math.max(a, b)]: NaN when either argument is NaN, and +0 counts as
    larger than -0. *)
Definition Math_max (a b : float) : float :=
  if is_nan a || is_nan b then nan
  else if is_negative_zero a && is_positive_zero b then b
  else if (a <? b)%float then b else a.

(** Neither NaN nor an infinity. *)
Definition is_finite (x : float) : bool :=
  match classify x with
  | NaN | PInf | NInf => false
  | _ => true
  end.

(** The integer [n] as a number, for [0 <= n < 2^63]. *)
Definition of_Z (n : Z) : float := of_uint63 (Uint63.of_Z n).

(** [n / d] as JavaScript computes it. *)
Definition ratio (n d : Z) : float := (of_Z n / of_Z d)%float.

(** The real number a finite double stands for. *)
Definition exact (x : float) : Q :=
  match Prim2SF x with
  | S754_finite s m e =>
      ((if s then -1 else 1) * inject_Z (Z.pos m) * 2 ^ e)%Q
  | _ => 0%Q
  end.

End Double.

(* ===================================================================== *)
(** ** services/geminiService.ts: the message handler on what arrives *)
(* ===================================================================== *)

(** [Service] reads the playback with exact rationals for the clock and
    with model turns that carry their parts. [Session] is the same handler
    without these two idealisations: numbers are doubles, and the [parts]
    of a model turn may be missing, in which case the unguarded
    [parts[0]] throws. *)

Module Session.
Import PrimFloat Double.

(** An [AudioBuffer]: [duration] is a number. *)
Record AudioBuffer : Type := mkAudioBuffer {
  duration : float;
  sampleRate : Z;
  numberOfChannels : Z;
}.

(** A model turn as it may arrive: [parts] can be missing. *)
Record Content : Type := mkContent {
  parts : option (list Service.Part);
}.

Record LiveServerContent : Type := mkLiveServerContent {
  modelTurn : option Content;
  interrupted : option bool;
  turnComplete : option bool;
  inputTranscription : option Service.Transcription;
  outputTranscription : option Service.Transcription;
}.

Record LiveServerMessage : Type := mkLiveServerMessage {
  serverContent : option LiveServerContent;
}.

(** [message.serverContent?.modelTurn?.parts[0]?.inlineData?.data]: a
    missing [serverContent] or [modelTurn] ends the chain with undefined;
    [parts] is indexed without [?.], so on a model turn without [parts]
    the expression throws a TypeError. *)
Definition base64Audio_of (message : LiveServerMessage)
    : Service.Result (option string) :=
  match serverContent message ?. modelTurn with
  | None => Service.Return None
  | Some turn =>
      match parts turn with
      | Some ps =>
          Service.Return (ps !! 0%nat ?. Service.inlineData ?. Service.data)
      | None => Service.Throw "TypeError"
      end
  end.

(** [message.serverContent?.interrupted] as a condition *)
Definition is_interrupted (message : LiveServerMessage) : bool :=
  Js.truthy_bool (serverContent message ?. interrupted).

(** [message.serverContent?.inputTranscription?.text ?? null] *)
Definition inputTranscript_of (message : LiveServerMessage) : option string :=
  serverContent message ?. inputTranscription ?. Service.text.

(** [message.serverContent?.outputTranscription?.text ?? null] *)
Definition outputTranscript_of (message : LiveServerMessage) : option string :=
  serverContent message ?. outputTranscription ?. Service.text.

(** [!!message.serverContent?.turnComplete] *)
Definition isTurnComplete_of (message : LiveServerMessage) : bool :=
  Js.truthy_bool (serverContent message ?. turnComplete).

(** An [AudioBufferSourceNode] after [source.start(when)]. *)
Record AudioBufferSourceNode : Type := mkSource {
  buffer : AudioBuffer;
  when : float;
  stopped : bool;
}.

Definition stop (n : AudioBufferSourceNode) : AudioBufferSourceNode :=
  {| buffer := buffer n; when := when n; stopped := true |}.

(** The closure state of one conversation, as in [Service]. *)
Record Conversation : Type := mkConversation {
  localOutputAudioContext : nat;
  nodes : list AudioBufferSourceNode;
  sources : gset nat;
  nextStartTime : float;
}.

(** [const sources = new Set(); let nextStartTime = 0;] *)
Definition initial (context : nat) : Conversation :=
  mkConversation context [] ∅ 0%float.

(** [for (const source of sources.values()) source.stop();] *)
Definition stop_all (tracked : list nat) (ns : list AudioBufferSourceNode)
    : list AudioBufferSourceNode :=
  foldl (λ acc i, alter stop i acc) ns tracked.

Section Playback.
Variable decode : string → list Z.
Variable decodeAudioData : list Z → nat → Z → Z → AudioBuffer.

(** The audio branch: [currentTime] is the output context's clock when
    the message is handled. [decode] and [decodeAudioData] are taken to
    return, the latter without waiting for anything, so that no other
    message is handled during its [await]; [source.start] is taken to
    accept the time it is given. *)
Definition schedule (currentTime : float) (base64Audio : string)
    (c : Conversation) : Conversation :=
  let nextStartTime1 := Math_max (nextStartTime c) currentTime in
  let audioBuffer :=
    decodeAudioData (decode base64Audio) (localOutputAudioContext c)
      Service.OUTPUT_SAMPLE_RATE 1 in
  let source := length (nodes c) in
  {| localOutputAudioContext := localOutputAudioContext c;
     nodes := nodes c ++ [mkSource audioBuffer nextStartTime1 false];
     nextStartTime := (nextStartTime1 + duration audioBuffer)%float;
     sources := sources c ∪ {[source]} |}.

(** The interruption branch. *)
Definition interrupt (c : Conversation) : Conversation :=
  {| localOutputAudioContext := localOutputAudioContext c;
     nodes := stop_all (elements (sources c)) (nodes c);
     sources := ∅;
     nextStartTime := 0%float |}.

(** The handler. It returns the conversation and the argument triple of
    [callbacks.onMessage], or throws in its first statement, before it has
    touched the conversation or called back. *)
Definition onmessage (currentTime : float) (message : LiveServerMessage)
    (c : Conversation)
    : Service.Result (Conversation * (option string * option string * bool)) :=
  match base64Audio_of message with
  | Service.Throw e => Service.Throw e
  | Service.Return base64Audio =>
      let c1 :=
        match base64Audio with
        | Some b => if Js.truthy_string b then schedule currentTime b c else c
        | None => c
        end in
      let c2 := if is_interrupted message then interrupt c1 else c1 in
      Service.Return
        (c2, (inputTranscript_of message, outputTranscript_of message,
              isTurnComplete_of message))
  end.

(** The ['ended'] listener of a source: [sources.delete(source)]. *)
Definition onended (source : nat) (c : Conversation) : Conversation :=
  {| localOutputAudioContext := localOutputAudioContext c;
     nodes := nodes c;
     sources := sources c ∖ {[source]};
     nextStartTime := nextStartTime c |}.

Inductive Event : Type :=
| Message (currentTime : float) (message : LiveServerMessage)
| Ended (source : nat).

(** A handler that throws leaves the conversation as it found it. *)
Definition step (c : Conversation) (e : Event) : Conversation :=
  match e with
  | Message t m =>
      match onmessage t m c with
      | Service.Return r => r.1
      | Service.Throw _ => c
      end
  | Ended s => onended s c
  end.

Definition run (c : Conversation) (es : list Event) : Conversation :=
  foldl step c es.

End Playback.

End Session.

(* ===================================================================== *)
(** ** App.tsx: [onMessage] between its awaits *)
(* ===================================================================== *)

(** [App.onMessage] is one run of the callback taken as a whole. The
    callback is an async function: when it asks the question about the
    files it is suspended at each of its two [await]s, and other callbacks
    run before it resumes. [Async] cuts the run at these points. *)

Module Async.
Import Types AudioUtils App.

(** What a suspended run waits for. *)
Inductive Awaiting : Type :=
| generateContentWithFiles (fullInput : string) (uploadedFiles : list File)
| generateSpeech (textResponse : string).

(** The two assignments that end the [if (isTurnComplete)] block. *)
Definition reset (s : State) : State :=
  set_currentOutput "" (set_currentInput "" s).

(** [onMessage] from its call to its first [await], or to its end when it
    asks no question; the second component is what the run then waits
    for. *)
Definition onMessage_begin (uploadedFiles : list File)
    (inputTranscript outputTranscript : option string)
    (isTurnComplete : bool) (s : State) : State * option Awaiting :=
  let s := accumulate inputTranscript outputTranscript s in
  if isTurnComplete then
    let fullInput := Js.trim (currentInputTranscriptionRef s) in
    let fullOutput := Js.trim (currentOutputTranscriptionRef s) in
    let newHistory := newHistory_of fullInput fullOutput in
    let s :=
      if (0 <? length newHistory)%nat
      then setTranscriptionHistory (λ prev, prev ++ newHistory) s
      else s in
    if Js.truthy_string fullInput && (0 <? length uploadedFiles)%nat
    then (setError None (setIsProcessingFileQuery true s),
          Some (generateContentWithFiles fullInput uploadedFiles))
    else (reset s, None)
  else (s, None).

(** [catch], [finally], and the lines after the [try] statement. *)
Definition failed (e : Error) (s : State) : State :=
  reset (setIsProcessingFileQuery false (file_error e s)).

(** The run resumes when [generateContentWithFiles] has settled. *)
Definition content_settled (r : Service.Result string) (s : State)
    : State * option Awaiting :=
  match r with
  | Service.Return textResponse =>
      (setTranscriptionHistory
         (λ prev, prev ++ [mkEntry gemini textResponse]) s,
       Some (generateSpeech textResponse))
  | Service.Throw m => (failed (mkError m) s, None)
  end.

(** The run resumes when [generateSpeech] has settled, and ends. *)
Definition speech_settled (r : Service.Result AudioBuffer) (s : State)
    : State :=
  match r with
  | Service.Return audioBuffer =>
      reset (setIsProcessingFileQuery false (call (playAudio audioBuffer) s))
  | Service.Throw m => failed (mkError m) s
  end.

(** A suspended run resumes on [s] and goes to its end: what it awaits
    settles as [query] says, and nothing runs between its two [await]s. *)
Definition resume (query : FileQuery) (s : State) : State :=
  match query with
  | ContentFails e => (content_settled (Service.Throw (message e)) s).1
  | SpeechFails textResponse e =>
      speech_settled (Service.Throw (message e))
        (content_settled (Service.Return textResponse) s).1
  | Answered textResponse audioBuffer =>
      speech_settled (Service.Return audioBuffer)
        (content_settled (Service.Return textResponse) s).1
  end.

(** A run with which nothing interleaves: it resumes on the state it was
    suspended on. *)
Definition uninterrupted (query : FileQuery) (r : State * option Awaiting)
    : State :=
  match r.2 with
  | None => r.1
  | Some _ => resume query r.1
  end.

(** Calls of [onMessage] one after the other, each up to its first
    [await], while nothing that was awaited settles. *)
Definition onMessage_calls (uploadedFiles : list File) (s : State)
    (calls : list (option string * option string * bool)) : State :=
  foldl (λ s a, (onMessage_begin uploadedFiles a.1.1 a.1.2 a.2 s).1) s calls.

Section Delivery.
Variable decode : string → list Z.
Variable decodeAudioData : list Z → nat → Z → Z → Session.AudioBuffer.

(** A server message through [onmessage] of the service and on to
    [onMessage], up to its first [await]. A message on which [onmessage]
    throws changes nothing and is not handed on. *)
Definition deliver (uploadedFiles : list File)
    (cs : Session.Conversation * State)
    (m : PrimFloat.float * Session.LiveServerMessage)
    : Session.Conversation * State :=
  match Session.onmessage decode decodeAudioData m.1 m.2 cs.1 with
  | Service.Return (c, (inputTranscript, outputTranscript, isTurnComplete)) =>
      (c, (onMessage_begin uploadedFiles inputTranscript outputTranscript
             isTurnComplete cs.2).1)
  | Service.Throw _ => cs
  end.

Definition deliver_all (uploadedFiles : list File)
    (cs : Session.Conversation * State)
    (ms : list (PrimFloat.float * Session.LiveServerMessage))
    : Session.Conversation * State :=
  foldl (deliver uploadedFiles) cs ms.

End Delivery.

End Async.

(* ===================================================================== *)
(** ** Sample inputs for the handlers on what arrives *)
(* ===================================================================== *)

Module Arrivals.
Import PrimFloat Double.

(** A stand-in for [decodeAudioData]: 16-bit frames at the asked rate. *)
Definition decodeAudioData (bytes : list Z) (context : nat)
    (rate channels : Z) : Session.AudioBuffer :=
  {| Session.duration := ratio (Z.of_nat (length bytes) / (2 * channels)) rate;
     Session.sampleRate := rate;
     Session.numberOfChannels := channels |}.

(** Base64 text that [Sample.decode] turns into [frames] 16-bit frames. *)
Definition pcm (frames : Z) : string :=
  string_of_list_ascii (replicate (Z.to_nat (2 * frames)) "A"%char).

(** A server message with a model turn; [parts] is the turn's parts. *)
Definition message (parts : option (list Service.Part))
    (interrupted turnComplete : bool) (input output : option string)
    : Session.LiveServerMessage :=
  Session.mkLiveServerMessage (Some
    {| Session.modelTurn := Some (Session.mkContent parts);
       Session.interrupted := Some interrupted;
       Session.turnComplete := Some turnComplete;
       Session.inputTranscription := Service.mkTranscription ∘ Some <$> input;
       Session.outputTranscription := Service.mkTranscription ∘ Some <$> output
    |}).

(** The parts of a model turn that carries [frames] frames of audio. *)
Definition audio (frames : Z) : option (list Service.Part) :=
  Some [Service.mkPart (Some (Service.mkBlob (Some (pcm frames)) None))].

(** A chunk of [frames] frames handled when the clock shows [n / d]. *)
Definition chunk (n d frames : Z) : Session.Event :=
  Session.Message (ratio n d) (message (audio frames) false false None None).

(** 0.7 s of audio handled when the clock shows 0.1 s, and 0.2 s more
    handled at 0.5 s, while the first source is playing. *)
Definition overlapping_chunks : list Session.Event :=
  [chunk 1 10 16800; chunk 1 2 4800].

(** 0.2 s of audio handled at 0.1 s, and 0.2 s more handled at 0.2 s. *)
Definition gapped_chunks : list Session.Event :=
  [chunk 1 10 4800; chunk 1 5 4800].

(** The overlapping chunks, the first source ending, and 0.2 s of audio
    handled at 2 s, when nothing is left to play. *)
Definition three_chunks : list Session.Event :=
  overlapping_chunks ++ [Session.Ended 0; chunk 2 1 4800].

(** A model turn without [parts] in a message that carries the
    interruption signal. *)
Definition interrupted_without_parts : Session.LiveServerMessage :=
  message None true false None None.

(** One uploaded file. *)
Definition notes : App.File := App.mkFile "notes.txt" "text/plain" [110].

End Arrivals.

(* ===================================================================== *)
(** ** The properties of the handlers on what arrives *)
(* ===================================================================== *)

Module Stated.
Import Types PrimFloat Double.

Section Schedule.
Variable decode : string → list Z.
Variable decodeAudioData : list Z → nat → Z → Z → Session.AudioBuffer.

(** An incoming audio chunk: the clock when it is handled and the buffer
    it decodes to in the conversation's output context. A message on
    which the handler throws is no chunk. *)
Definition chunk_of (context : nat) (e : Session.Event)
    : option (float * Session.AudioBuffer) :=
  match e with
  | Session.Message t m =>
      match Session.base64Audio_of m with
      | Service.Return (Some b) =>
          if Js.truthy_string b
          then Some (t, decodeAudioData (decode b) context 24000 1)
          else None
      | _ => None
      end
  | Session.Ended _ => None
  end.

Definition audio_chunks (context : nat) (es : list Session.Event)
    : list (float * Session.AudioBuffer) :=
  omap (chunk_of context) es.

Definition no_interruption (e : Session.Event) : bool :=
  match e with
  | Session.Message _ m => negb (Session.is_interrupted m)
  | Session.Ended _ => true
  end.

(** Each chunk starts at [Math.max] of the [nextStartTime] it finds and
    the clock; the next chunk finds the double sum of that start and the
    buffer's duration. *)
Fixpoint starts_at_max (nextStartTime : float)
    (chunks : list (float * Session.AudioBuffer))
    (started : list Session.AudioBufferSourceNode) : Prop :=
  match chunks, started with
  | [], [] => True
  | (t, b) :: chunks', n :: started' =>
      Session.buffer n = b ∧
      Session.stopped n = false ∧
      Session.when n = Math_max nextStartTime t ∧
      starts_at_max (Session.when n + Session.duration b)%float chunks' started'
  | _, _ => False
  end.

(** No chunk starts before the [nextStartTime] it finds, nor before the
    clock, and each starts at that [nextStartTime] while the clock has not
    passed it. *)
Fixpoint in_order (nextStartTime : float)
    (chunks : list (float * Session.AudioBuffer))
    (started : list Session.AudioBufferSourceNode) : Prop :=
  match chunks, started with
  | [], [] => True
  | (t, b) :: chunks', n :: started' =>
      (nextStartTime <=? Session.when n)%float = true ∧
      (t <=? Session.when n)%float = true ∧
      ((t <=? nextStartTime)%float = true →
       (Session.when n =? nextStartTime)%float = true) ∧
      in_order (Session.when n + Session.duration b)%float chunks' started'
  | _, _ => False
  end.

(** The clock readings and the durations are finite numbers, as those of
    an audio context and of an audio buffer are. *)
Definition finite_chunks (chunks : list (float * Session.AudioBuffer)) : Prop :=
  Forall (λ tb, is_finite tb.1 = true
                ∧ is_finite (Session.duration tb.2) = true) chunks.

Fixpoint schedule_end (nextStartTime : float)
    (chunks : list (float * Session.AudioBuffer)) : float :=
  match chunks with
  | [] => nextStartTime
  | (t, b) :: chunks' =>
      schedule_end (Math_max nextStartTime t + Session.duration b)%float chunks'
  end.

End Schedule.

(** The model turn of the message has no [parts]. *)
Definition without_parts (m : Session.LiveServerMessage) : Prop :=
  ∃ turn, Session.serverContent m ?. Session.modelTurn = Some turn ∧
          Session.parts turn = None.

(** The argument triple a message reaches [onMessage] with; none when
    [onmessage] throws on it. *)
Definition handed_on (m : Session.LiveServerMessage)
    : option (option string * option string * bool) :=
  match Session.base64Audio_of m with
  | Service.Return _ =>
      Some (Session.inputTranscript_of m, Session.outputTranscript_of m,
            Session.isTurnComplete_of m)
  | Service.Throw _ => None
  end.

(** The calls of [onMessage] a sequence of server messages leads to. *)
Definition calls_of (ms : list (float * Session.LiveServerMessage))
    : list (option string * option string * bool) :=
  omap (λ m, handed_on m.2) ms.

(** The fragments of each kind in a sequence of [onMessage] calls. *)
Definition input_fragments
    (calls : list (option string * option string * bool))
    : list (option string) :=
  (λ a, a.1.1) <$> calls.

Definition output_fragments
    (calls : list (option string * option string * bool))
    : list (option string) :=
  (λ a, a.1.2) <$> calls.

(** No call of the sequence completes a turn. *)
Definition within_turn (calls : list (option string * option string * bool))
    : Prop :=
  Forall (λ a, a.2 = false) calls.

(** A completed turn asks the question about the files: files are
    uploaded and the trimmed input is not empty. *)
Definition asks_files (uploadedFiles : list App.File) (input : string) : Prop :=
  uploadedFiles ≠ [] ∧ Js.trim input ≠ EmptyString.

End Stated.

(* ===================================================================== *)
(** ** Facts about the service *)
(* ===================================================================== *)

Module ServiceFacts.
Import AudioUtils Service.

(** *** The output context *)

Example getOutputAudioContext_first_call :
  getOutputAudioContext (mkWorld [] None)
    = (0%nat, mkWorld [mkAudioContext suspended 24000] (Some 0%nat)).
Proof. reflexivity. Qed.

Example getOutputAudioContext_after_close :
  getOutputAudioContext (mkWorld [mkAudioContext closed 24000] (Some 0%nat))
    = (1%nat, mkWorld [mkAudioContext closed 24000;
                       mkAudioContext suspended 24000] (Some 1%nat)).
Proof. reflexivity. Qed.

Lemma getOutputAudioContext_keeps (w : World) (c : nat) :
  outputAudioContext w = Some c →
  state_of w c ≠ Some closed →
  getOutputAudioContext w = (c, w).
Proof.
  intros Hc Hs. unfold getOutputAudioContext, is_closed. rewrite Hc.
  by rewrite bool_decide_eq_false_2.
Qed.

Lemma getOutputAudioContext_sets (w : World) :
  outputAudioContext (getOutputAudioContext w).2
    = Some (getOutputAudioContext w).1.
Proof.
  unfold getOutputAudioContext.
  destruct (outputAudioContext w) as [c|] eqn:Hc; [|done].
  by destruct (is_closed w c).
Qed.

(** C8. Two calls of [getOutputAudioContext] with the returned context not
    closed in between return the same context, and the second one leaves
    the world as it is; a call creates a context, of sample rate 24000,
    exactly when the variable holds none or holds a closed one. *)
Theorem getOutputAudioContext_idempotent
    (w w1 w2 : World) (c1 : nat) :
  getOutputAudioContext w = (c1, w1) →
  outputAudioContext w2 = outputAudioContext w1 →
  state_of w2 c1 ≠ Some closed →
  getOutputAudioContext w2 = (c1, w2) ∧
  ((outputAudioContext w = Some c1 ∧ state_of w c1 ≠ Some closed ∧ w1 = w)
   ∨ ((outputAudioContext w = None
       ∨ ∃ c, outputAudioContext w = Some c ∧ state_of w c = Some closed)
      ∧ c1 = length (contexts w)
      ∧ contexts w1
          = contexts w ++ [mkAudioContext suspended 24000]
      ∧ outputAudioContext w1 = Some c1)).
Proof.
  intros Hget Hvar Hopen. split.
  - apply getOutputAudioContext_keeps; [|done].
    rewrite Hvar. pose proof (getOutputAudioContext_sets w) as Hs.
    by rewrite Hget in Hs.
  - unfold getOutputAudioContext in Hget.
    destruct (outputAudioContext w) as [c|] eqn:Hc.
    + destruct (is_closed w c) eqn:Hcl.
      * right. unfold is_closed in Hcl. apply bool_decide_eq_true_1 in Hcl.
        simpl in Hget. injection Hget as <- <-. eauto 10.
      * left. unfold is_closed in Hcl. apply bool_decide_eq_false_1 in Hcl.
        by injection Hget as <- <-.
    + right. simpl in Hget. injection Hget as <- <-. eauto 10.
Qed.

Lemma getOutputAudioContext_idempotent_witness :
  let w := mkWorld [] None in
  let w1 := mkWorld [mkAudioContext suspended 24000] (Some 0%nat) in
  let w2 := mkWorld [mkAudioContext running 24000] (Some 0%nat) in
  getOutputAudioContext w = (0%nat, w1) ∧
  getOutputAudioContext w2 = (0%nat, w2).
Proof.
  split; [reflexivity|].
  apply (getOutputAudioContext_idempotent
           (mkWorld [] None)
           (mkWorld [mkAudioContext suspended 24000] (Some 0%nat))
           (mkWorld [mkAudioContext running 24000] (Some 0%nat)) 0%nat).
  - reflexivity.
  - reflexivity.
  - vm_compute. discriminate.
Defined.

(** *** Capture *)

Example encode_Man :
  encode [77; 97; 110] = "TWFu" ∧ encode [77; 97] = "TWE=" ∧ encode [77] = "TQ==".
Proof. by vm_compute. Qed.

Example quantize_samples :
  quantize [Finite (1 # 2); Finite (-1); Finite (1 # 3); Finite (-1 # 3);
            Finite (32767 # 32768); Finite (3 # 2); NaN; Infinity false]
    = [16384; -32768; 10922; -10922; 32767; -16384; 0; 0].
Proof. by vm_compute. Qed.

Example Uint8Array_of_Int16_samples :
  Uint8Array_of_Int16 [-32768; -1; 1; 256] = [0; 128; 255; 255; 1; 0; 0; 1].
Proof. by vm_compute. Qed.

Example scriptProcessor_frames_three :
  length <$> scriptProcessor_frames 3 []
               (repeat (Finite 0) 8)
    = [3; 3]%nat.
Proof. by vm_compute. Qed.

Lemma scriptProcessor_frames_size (n : nat) (stream pending : list float) :
  Forall (λ frame, length frame = n) (scriptProcessor_frames n pending stream).
Proof.
  revert pending. induction stream as [|x rest IH]; intros pending; simpl.
  - constructor.
  - destruct (Nat.eqb_spec (length (pending ++ [x])) n) as [Heq|Hne].
    + constructor; [exact Heq | apply IH].
    + apply IH.
Qed.

Lemma quantize_length (data : list float) :
  length (quantize data) = length data.
Proof. induction data as [|x rest IH]; simpl; [done | by rewrite IH]. Qed.

Lemma quantize_lookup (data : list float) (i : nat) :
  quantize data !! i = (λ x, ToInt16 (times_32768 x)) <$> data !! i.
Proof.
  revert i. induction data as [|x rest IH]; intros [|i]; simpl; done.
Qed.

Lemma truncate_close (q : Q) : (Qabs (inject_Z (truncate q) - q) < 1)%Q.
Proof.
  destruct q as [n d].
  unfold truncate, Qabs, Qlt, Qminus, Qplus, Qopp, inject_Z. simpl.
  pose proof (Z.quot_rem' n (Z.pos d)) as Hqr.
  assert (Hr : Z.abs (Z.rem n (Z.pos d)) < Z.pos d).
  { pose proof (Z.rem_bound_abs n (Z.pos d)). lia. }
  nia.
Qed.

Lemma truncate_bounds (q : Q) :
  (-1 <= q)%Q → (q < 1)%Q → Spec.int16_range (truncate (q * 32768)).
Proof.
  destruct q as [n d]. unfold Spec.int16_range, Qle, Qlt, truncate. simpl.
  intros Hlo Hhi. rewrite Pos.mul_1_r.
  destruct (Z_le_gt_dec 0 n).
  - pose proof (Z.quot_pos (n * 32768) (Z.pos d)).
    pose proof (Z.quot_lt_upper_bound (n * 32768) (Z.pos d) 32768). lia.
  - replace (n * 32768) with (- (- n * 32768)) by lia.
    rewrite Z.quot_opp_l by lia.
    pose proof (Z.quot_pos (- n * 32768) (Z.pos d)).
    pose proof (Z.quot_le_upper_bound (- n * 32768) (Z.pos d) 32768). lia.
Qed.

(** Wrapping into sixteen bits leaves a value of the range alone. *)
Lemma wrap16_id (v : Z) :
  Spec.int16_range v →
  (if 32768 <=? v mod 65536 then v mod 65536 - 65536 else v mod 65536) = v.
Proof.
  unfold Spec.int16_range. intros Hv.
  destruct (Z.leb_spec 32768 (v mod 65536));
    Z.to_euclidean_division_equations; lia.
Qed.

Lemma ToInt16_range (x : float) : Spec.int16_range (ToInt16 x).
Proof.
  unfold Spec.int16_range. destruct x as [q| |n]; simpl; [|lia|lia].
  destruct (Z.leb_spec 32768 (truncate q mod 65536));
    Z.to_euclidean_division_equations; lia.
Qed.

Lemma quantize_range (data : list float) (i : nat) (v : Z) :
  quantize data !! i = Some v → Spec.int16_range v.
Proof.
  rewrite quantize_lookup. destruct (data !! i) as [x|]; simpl; [|done].
  intros [= <-]. apply ToInt16_range.
Qed.

Lemma Uint8Array_length (int16 : list Z) :
  length (Uint8Array_of_Int16 int16) = (2 * length int16)%nat.
Proof. induction int16 as [|v rest IH]; simpl; [done | rewrite IH; lia]. Qed.

Lemma Uint8Array_lookup (int16 : list Z) (i : nat) (v : Z) :
  int16 !! i = Some v →
  Uint8Array_of_Int16 int16 !! (2 * i)%nat = Some ((v mod 65536) mod 256) ∧
  Uint8Array_of_Int16 int16 !! (2 * i + 1)%nat = Some ((v mod 65536) / 256).
Proof.
  revert i. induction int16 as [|u rest IH]; intros [|i] Hi; try done.
  - injection Hi as ->. done.
  - replace (2 * S i)%nat with (S (S (2 * i))) by lia. simpl.
    apply (IH i Hi).
Qed.

Lemma int16_bytes_roundtrip (v : Z) :
  Spec.int16_range v →
  let lo := (v mod 65536) mod 256 in
  let hi := (v mod 65536) / 256 in
  0 <= lo < 256 ∧ 0 <= hi < 256 ∧ Spec.int16_of_bytes lo hi = v.
Proof.
  intros Hv lo hi. unfold Spec.int16_of_bytes.
  assert (Hu : lo + 256 * hi = v mod 65536).
  { subst lo hi. Z.to_euclidean_division_equations; lia. }
  rewrite Hu. split; [|split].
  - subst lo. Z.to_euclidean_division_equations; lia.
  - subst hi. Z.to_euclidean_division_equations; lia.
  - by apply wrap16_id.
Qed.

(** C3, as amended. The script processor hands the capture handler frames
    of 4096 samples; [createBlob] keeps one Int16 per sample, a sample [s]
    with [-1 <= s < 1] becoming [s * 32768] rounded toward zero (less than
    one away from [s * 32768]); each Int16 is written as two bytes, low
    byte first, and the bytes are base64-encoded under the mime type
    'audio/pcm;rate=16000'. *)
Theorem createBlob_wire_format (data : list float) :
  (∀ stream,
     Forall (λ frame, Z.of_nat (length frame) = 4096)
       (scriptProcessor_frames (Z.to_nat SCRIPT_PROCESSOR_BUFFER_SIZE) []
          stream)) ∧
  length (quantize data) = length data ∧
  (∀ i q,
     data !! i = Some (Finite q) → (-1 <= q)%Q → (q < 1)%Q →
     ∃ v, quantize data !! i = Some v ∧ v = truncate (q * 32768) ∧
          (Qabs (inject_Z v - q * 32768) < 1)%Q) ∧
  (∀ i v,
     quantize data !! i = Some v →
     Spec.int16_range v ∧
     ∃ lo hi,
       Uint8Array_of_Int16 (quantize data) !! (2 * i)%nat = Some lo ∧
       Uint8Array_of_Int16 (quantize data) !! (2 * i + 1)%nat = Some hi ∧
       0 <= lo < 256 ∧ 0 <= hi < 256 ∧ Spec.int16_of_bytes lo hi = v) ∧
  length (Uint8Array_of_Int16 (quantize data)) = (2 * length data)%nat ∧
  createBlob data
    = {| data := Some (encode (Uint8Array_of_Int16 (quantize data)));
         mimeType := Some "audio/pcm;rate=16000" |}.
Proof.
  split; [|split; [|split; [|split; [|split]]]].
  - intros stream.
    eapply Forall_impl; [apply scriptProcessor_frames_size|].
    intros frame ->. reflexivity.
  - apply quantize_length.
  - intros i q Hi Hlo Hhi. exists (truncate (q * 32768)).
    split; [|split; [done | apply truncate_close]].
    rewrite quantize_lookup, Hi. simpl. f_equal.
    apply wrap16_id. by apply truncate_bounds.
  - intros i v Hv. pose proof (quantize_range _ _ _ Hv) as Hr.
    split; [done|].
    destruct (Uint8Array_lookup _ _ _ Hv) as [Hlo Hhi].
    destruct (int16_bytes_roundtrip v Hr) as (? & ? & ?).
    eauto 10.
  - by rewrite Uint8Array_length, quantize_length.
  - reflexivity.
Qed.

Lemma createBlob_wire_format_witness :
  quantize [Finite (1 # 2); Finite (-1); Finite (1 # 3)] !! 2%nat
    = Some 10922 ∧
  createBlob [Finite (1 # 2); Finite (-1); Finite (1 # 3)]
    = {| data := Some "AEAAgKoq"; mimeType := Some "audio/pcm;rate=16000" |}.
Proof.
  destruct (createBlob_wire_format
              [Finite (1 # 2); Finite (-1); Finite (1 # 3)])
    as (_ & _ & Hq & _ & _ & Hb).
  split; [|exact Hb].
  destruct (Hq 2%nat (1 # 3)%Q) as (v & Hv & Hv' & _).
  - reflexivity.
  - vm_compute. discriminate.
  - reflexivity.
  - rewrite Hv, Hv'. reflexivity.
Defined.

(** C3 as stated fails at full scale: the sample 1.0 is stored as -32768,
    which is 65536 away from [1.0 * 32768]. *)
Lemma createBlob_full_scale_wraps :
  quantize [Finite 1] = [-32768] ∧
  ¬ (∀ (data : list float) (i : nat) (q : Q),
       data !! i = Some (Finite q) →
       ∃ v, quantize data !! i = Some v ∧
            (Qabs (inject_Z v - q * 32768) < 1)%Q).
Proof.
  split; [reflexivity|].
  intros H. destruct (H [Finite 1] 0%nat 1%Q eq_refl) as (v & Hv & Hlt).
  injection Hv as <-. vm_compute in Hlt. discriminate.
Qed.

(** *** Playback *)

Example two_chunks_schedule :
  (λ n, (when n, duration (buffer n))) <$>
    nodes (run Sample.decode Sample.decodeAudioData (initial 0)
             Sample.two_chunks)
    = [(0%Q, 2 # 24000); (2 # 24000, 3 # 24000)].
Proof. by vm_compute. Qed.

Lemma stop_idempotent (n : AudioBufferSourceNode) : stop (stop n) = stop n.
Proof. done. Qed.

Lemma stop_all_lookup (tracked : list nat) (ns : list AudioBufferSourceNode)
    (i : nat) :
  stop_all tracked ns !! i
    = if decide (i ∈ tracked) then stop <$> ns !! i else ns !! i.
Proof.
  unfold stop_all. revert ns.
  induction tracked as [|a tracked IH]; intros ns; cbn [foldl].
  - destruct (decide (i ∈ [])) as [Hin|]; [|done]. by apply elem_of_nil in Hin.
  - rewrite IH, list_lookup_alter.
    destruct (decide (a = i)) as [->|Hne].
    + rewrite (decide_True (P := i ∈ i :: tracked)) by left.
      destruct (decide (i ∈ tracked)); [|done].
      destruct (ns !! i); simpl; [|done]. by rewrite stop_idempotent.
    + destruct (decide (i ∈ tracked)) as [Hin|Hin].
      * rewrite (decide_True (P := i ∈ a :: tracked)); [done|by right].
      * rewrite (decide_False (P := i ∈ a :: tracked)); [done|].
        intros [->|?]%elem_of_cons; done.
Qed.

Lemma stop_all_length (tracked : list nat) (ns : list AudioBufferSourceNode) :
  length (stop_all tracked ns) = length ns.
Proof.
  unfold stop_all. revert ns.
  induction tracked as [|a tracked IH]; intros ns; simpl; [done|].
  by rewrite IH, length_alter.
Qed.

Section PlaybackFacts.
Variable decode : string → list Z.
Variable decodeAudioData : list Z → nat → Z → Z → AudioBuffer.

Local Abbreviation onmessage := (onmessage decode decodeAudioData).
Local Abbreviation step := (step decode decodeAudioData).
Local Abbreviation run := (run decode decodeAudioData).
Local Abbreviation chunk_of := (Spec.chunk_of decode decodeAudioData).
Local Abbreviation audio_chunks := (Spec.audio_chunks decode decodeAudioData).

Lemma step_context (c : Conversation) (e : Event) :
  localOutputAudioContext (step c e) = localOutputAudioContext c.
Proof.
  destruct e as [t m|s]; [|done]. unfold Service.step, Service.onmessage.
  cbn [fst].
  destruct (base64Audio_of m) as [a|]; [destruct (Js.truthy_string a)|];
    by destruct (is_interrupted m).
Qed.

(** *** Text to speech *)

Abbreviation generateSpeech := (generateSpeech decode decodeAudioData).

Lemma tts_base64Audio_carries (response : GenerateContentResponse) (b : string) :
  Spec.carries_audio response b ↔
  tts_base64Audio response = Some b ∧ Js.truthy_string b = true.
Proof.
  unfold Spec.carries_audio, tts_base64Audio. split.
  - intros (c & cs & rc & p & ps & blob & Hc & Hrc & Hp & Hblob & Hb & Hne).
    rewrite Hc. simpl. rewrite Hrc. simpl. rewrite Hp. simpl.
    rewrite Hblob. simpl. split; [done|]. by destruct b.
  - intros [Hb Ht].
    destruct (candidates response) as [[|c cs]|]; try done. simpl in Hb.
    destruct (content c) as [rc|] eqn:Hrc; try done. simpl in Hb.
    destruct (rc_parts rc) as [[|p ps]|] eqn:Hp; try done. simpl in Hb.
    destruct (inlineData p) as [blob|] eqn:Hblob; try done. simpl in Hb.
    exists c, cs, rc, p, ps, blob. repeat split; try done.
    by intros ->.
Qed.

(** C10. [generateSpeech] throws 'No audio data received from TTS API.'
    exactly when the response carries no inline audio data in the first
    part of the first candidate's content; when it carries the data [b], the
    call returns the buffer decoded from [b], in the shared output context,
    at 24000 Hz with one channel. *)
Theorem generateSpeech_throws_iff_no_audio
    (response : GenerateContentResponse) (w : World) :
  ((generateSpeech response w).1 = Throw "No audio data received from TTS API."
   ↔ ¬ ∃ b, Spec.carries_audio response b) ∧
  (∀ b, Spec.carries_audio response b →
        (generateSpeech response w).1
          = Return (decodeAudioData (decode b) (getOutputAudioContext w).1
                      24000 1)).
Proof.
  split.
  - split.
    + intros Hthrow [b Hb]. apply tts_base64Audio_carries in Hb as [Hb Ht].
      unfold Service.generateSpeech in Hthrow. rewrite Hb, Ht in Hthrow.
      by destruct (getOutputAudioContext w).
    + intros Hno. unfold Service.generateSpeech.
      destruct (tts_base64Audio response) as [b|] eqn:Hb; [|done].
      destruct (Js.truthy_string b) eqn:Ht; [|done].
      destruct Hno. exists b. by apply tts_base64Audio_carries.
  - intros b Hb. apply tts_base64Audio_carries in Hb as [Hb Ht].
    unfold Service.generateSpeech. rewrite Hb, Ht.
    by destruct (getOutputAudioContext w).
Qed.

End PlaybackFacts.

Lemma generateSpeech_throws_iff_no_audio_witness :
  let response :=
    mkResponse (Some [mkCandidate (Some (mkResponseContent (Some
      [mkPart (Some (mkBlob (Some "abcd") (Some "audio/pcm")))])))]) in
  (generateSpeech Sample.decode Sample.decodeAudioData response
     (mkWorld [] None)).1
    = Return {| duration := 2 # 24000; sampleRate := 24000;
                numberOfChannels := 1 |}.
Proof.
  intros response.
  destruct (generateSpeech_throws_iff_no_audio Sample.decode
              Sample.decodeAudioData response (mkWorld [] None)) as [_ H].
  rewrite (H "abcd"); [reflexivity|].
  exists (mkCandidate (Some (mkResponseContent (Some
            [mkPart (Some (mkBlob (Some "abcd") (Some "audio/pcm")))])))),
    [], (mkResponseContent (Some
            [mkPart (Some (mkBlob (Some "abcd") (Some "audio/pcm")))])),
    (mkPart (Some (mkBlob (Some "abcd") (Some "audio/pcm")))), [],
    (mkBlob (Some "abcd") (Some "audio/pcm")).
  repeat split; discriminate.
Defined.

End ServiceFacts.
(* ===================================================================== *)
(** ** Facts about the component *)
(* ===================================================================== *)

Module AppFacts.
Import Types AudioUtils App.

(** *** The uploaded-files list *)

Example merge_files_sample :
  merge_files
    [mkFile "a" "text/plain" [3]; mkFile "c" "" []; mkFile "c" "" [9]]
    [mkFile "a" "text/plain" [1]; mkFile "b" "text/plain" [2]]
    = [mkFile "a" "text/plain" [3]; mkFile "b" "text/plain" [2];
       mkFile "c" "" [9]].
Proof. by vm_compute. Qed.

Lemma Map_set_keys (k : string) (v : File) (m : list (string * File)) :
  (Map_set k v m).*1 = if decide (k ∈ m.*1) then m.*1 else m.*1 ++ [k].
Proof.
  induction m as [|[k' v'] m IH]; cbn [Map_set fmap list_fmap fst].
  - destruct (decide (k ∈ [])) as [Hin|]; [by apply elem_of_nil in Hin | done].
  - destruct (decide (k' = k)) as [->|Hne]; cbn [Map_set fmap list_fmap fst].
    + by rewrite decide_True by left.
    + rewrite IH. destruct (decide (k ∈ m.*1)) as [Hin|Hin].
      * by rewrite decide_True by (by right).
      * rewrite decide_False; [done|].
        intros [->|?]%elem_of_cons; done.
Qed.

Lemma Map_set_NoDup (k : string) (v : File) (m : list (string * File)) :
  NoDup m.*1 → NoDup (Map_set k v m).*1.
Proof.
  intros Hm. rewrite Map_set_keys. destruct (decide (k ∈ m.*1)); [done|].
  apply NoDup_app. split; [done|]. split; [|apply NoDup_singleton].
  intros x Hx ->%list_elem_of_singleton. done.
Qed.

Lemma Map_set_keyed (f : File) (m : list (string * File)) :
  Spec.keyed m → Spec.keyed (Map_set (name f) f m).
Proof.
  unfold Spec.keyed. induction 1 as [|[k' v'] m Hk Hm IH]; simpl.
  - by constructor.
  - destruct (decide (k' = name f)) as [->|Hne]; by constructor.
Qed.

Lemma keyed_names (m : list (string * File)) :
  Spec.keyed m → name <$> Map_values m = m.*1.
Proof.
  unfold Spec.keyed, Map_values. induction 1 as [|[k v] m Hk Hm IH]; [done|].
  cbn [fmap list_fmap fst snd] in *. by rewrite IH, Hk.
Qed.

Lemma Map_new_pairs (files : list File) (acc : list (string * File)) :
  foldl (λ m e, Map_set e.1 e.2 m) acc ((λ file, (name file, file)) <$> files)
    = foldl (λ m file, Map_set (name file) file m) acc files.
Proof.
  revert acc. induction files as [|f files IH]; intros acc; simpl; [done|].
  apply IH.
Qed.

Lemma fold_Map_set_inv (files : list File) (acc : list (string * File)) :
  NoDup acc.*1 → Spec.keyed acc →
  NoDup (foldl (λ m file, Map_set (name file) file m) acc files).*1 ∧
  Spec.keyed (foldl (λ m file, Map_set (name file) file m) acc files).
Proof.
  revert acc. induction files as [|f files IH]; intros acc Hn Hk; simpl; [done|].
  apply IH; [by apply Map_set_NoDup | by apply Map_set_keyed].
Qed.

Lemma merge_files_NoDup (newFiles prevFiles : list File) :
  NoDup (name <$> merge_files newFiles prevFiles).
Proof.
  unfold merge_files, Map_new. rewrite Map_new_pairs.
  destruct (fold_Map_set_inv prevFiles []) as [Hn Hk];
    [constructor | constructor |].
  destruct (fold_Map_set_inv newFiles _ Hn Hk) as [Hn' Hk'].
  by rewrite keyed_names.
Qed.

Lemma Map_set_fresh (k : string) (v : File) (m : list (string * File)) :
  k ∉ m.*1 → Map_set k v m = m ++ [(k, v)].
Proof.
  induction m as [|[k' v'] m IH]; simpl; [done|].
  intros Hk. apply not_elem_of_cons in Hk as [Hne Hk].
  rewrite decide_False by done. by rewrite IH.
Qed.

Lemma Map_new_distinct (files : list File) (acc : list (string * File)) :
  NoDup (acc.*1 ++ (name <$> files)) →
  foldl (λ m file, Map_set (name file) file m) acc files
    = acc ++ ((λ file, (name file, file)) <$> files).
Proof.
  revert acc. induction files as [|f files IH]; intros acc Hn; simpl.
  - by rewrite app_nil_r.
  - simpl in Hn. rewrite Map_set_fresh.
    + rewrite IH; [by rewrite <-app_assoc|].
      rewrite fmap_app. simpl. by rewrite <-app_assoc.
    + apply NoDup_app in Hn as (_ & Hd & _). intros Hin.
      apply (Hd _ Hin). by left.
Qed.

Lemma pairs_keys (files : list File) :
  ((λ file, (name file, file)) <$> files).*1 = name <$> files.
Proof.
  induction files as [|f files IH]; [done|].
  cbn [fmap list_fmap fst] in *. by rewrite IH.
Qed.

Lemma pairs_values (files : list File) :
  ((λ file, (name file, file)) <$> files).*2 = files.
Proof.
  induction files as [|f files IH]; [done|].
  cbn [fmap list_fmap snd] in *. by rewrite IH.
Qed.

Lemma Map_set_replaces (f : File) (files : list File) :
  NoDup (name <$> files) → name f ∈ name <$> files →
  (Map_set (name f) f ((λ file, (name file, file)) <$> files)).*2
    = (λ g, if decide (name g = name f) then f else g) <$> files.
Proof.
  induction files as [|g files IH]; simpl; intros Hn Hin.
  - by apply elem_of_nil in Hin.
  - apply NoDup_cons in Hn as [Hg Hn].
    destruct (decide (name g = name f)) as [Heq|Hne]; simpl.
    + f_equal. rewrite pairs_values. rewrite Heq in Hg.
      clear -Hg. induction files as [|h files IH]; simpl; [done|].
      simpl in Hg. apply not_elem_of_cons in Hg as [Hne Hg].
      rewrite decide_False by done. by rewrite <-IH.
    + f_equal. apply IH; [done|].
      apply elem_of_cons in Hin as [?|?]; [congruence | done].
Qed.

Lemma file_op_NoDup (s : State) (op : FileOp) :
  NoDup (name <$> uploadedFiles s) →
  NoDup (name <$> uploadedFiles (file_op s op)).
Proof.
  intros Hs. destruct op as [[newFiles|]|fileName]; simpl.
  - apply merge_files_NoDup.
  - done.
  - eapply sublist_NoDup; [exact Hs | apply fmap_sublist, sublist_filter].
Qed.

(** C9. Starting from distinct names (in particular from the empty list of
    a mounted component), any sequence of selections and removals leaves
    the names pairwise distinct; selecting a file whose name is present
    puts it in the place of the entry of that name; removing by name leaves
    no entry of that name and keeps the others, in order. *)
Theorem uploaded_files_distinct_names :
  (∀ s ops,
     NoDup (name <$> uploadedFiles s) →
     NoDup (name <$> uploadedFiles (foldl file_op s ops))) ∧
  (∀ ops, NoDup (name <$> uploadedFiles (foldl file_op mounted ops))) ∧
  (∀ s f,
     NoDup (name <$> uploadedFiles s) →
     name f ∈ name <$> uploadedFiles s →
     uploadedFiles (handleFileChange (Some [f]) s)
       = (λ g, if decide (name g = name f) then f else g) <$> uploadedFiles s) ∧
  (∀ s fileName,
     let kept := uploadedFiles (handleRemoveFile fileName s) in
     (fileName ∉ name <$> kept) ∧
     kept `sublist_of` uploadedFiles s ∧
     (∀ g, name g ≠ fileName → (g ∈ kept ↔ g ∈ uploadedFiles s)) ∧
     kept = filter (λ g, name g ≠ fileName) (uploadedFiles s)).
Proof.
  assert (Hinv : ∀ s ops,
            NoDup (name <$> uploadedFiles s) →
            NoDup (name <$> uploadedFiles (foldl file_op s ops))).
  { intros s ops. revert s.
    induction ops as [|op ops IH]; intros s Hs; simpl; [done|].
    apply IH. by apply file_op_NoDup. }
  split; [exact Hinv|]. split; [|split].
  - intros ops. apply Hinv. constructor.
  - intros s f Hn Hin.
    cbn [handleFileChange setUploadedFiles uploadedFiles].
    unfold merge_files, Map_new.
    rewrite Map_new_pairs, (Map_new_distinct (uploadedFiles s) []) by exact Hn.
    cbn [foldl app]. by apply Map_set_replaces.
  - intros s fileName. simpl. split; [|split; [|split]].
    + intros (g & Hg & Hin)%list_elem_of_fmap.
      apply list_elem_of_filter in Hin as [Hne _]. done.
    + apply sublist_filter.
    + intros g Hg. rewrite list_elem_of_filter. tauto.
    + done.
Qed.

(** *** The transcript accumulators *)

Example trim_samples :
  Js.trim "  a b  " = "a b" ∧ Js.trim "   " = "" ∧ Js.trim "x" = "x".
Proof. by vm_compute. Qed.

Example onMessage_with_file_answer :
  transcriptionHistory
    (onMessage [mkFile "a" "text/plain" [3]]
       (Answered "resp" (mkAudioBuffer 1 24000 1)) (Some " q ") None true
       mounted)
    = [mkEntry user "q"; mkEntry gemini "resp"].
Proof. by vm_compute. Qed.

Lemma append_cons (a : ascii) (s t : string) :
  String a s +:+ t = String a (s +:+ t).
Proof. reflexivity. Qed.

Lemma append_empty_r (s : string) : s +:+ "" = s.
Proof.
  induction s as [|a s IH]; [done|]. by rewrite append_cons, IH.
Qed.

Lemma append_assoc (a b c : string) : (a +:+ b) +:+ c = a +:+ (b +:+ c).
Proof.
  induction a as [|x a IH]; [done|]. by rewrite !append_cons, IH.
Qed.

Lemma accumulate_input (i o : option string) (s : State) :
  currentInputTranscriptionRef (accumulate i o s)
    = currentInputTranscriptionRef s +:+ default "" i.
Proof.
  unfold accumulate.
  destruct i as [[|a i]|], o as [[|b o]|]; simpl;
    by rewrite ?append_empty_r.
Qed.

Lemma accumulate_output (i o : option string) (s : State) :
  currentOutputTranscriptionRef (accumulate i o s)
    = currentOutputTranscriptionRef s +:+ default "" o.
Proof.
  unfold accumulate.
  destruct i as [[|a i]|], o as [[|b o]|]; simpl;
    by rewrite ?append_empty_r.
Qed.

Lemma accumulate_history (i o : option string) (s : State) :
  transcriptionHistory (accumulate i o s) = transcriptionHistory s.
Proof.
  unfold accumulate. by destruct i as [[|a i]|], o as [[|b o]|].
Qed.

Lemma newHistory_committed (input output : string) :
  newHistory_of (Js.trim input) (Js.trim output)
    = Spec.committed_entries input output.
Proof.
  unfold newHistory_of, Spec.committed_entries.
  rewrite filter_cons, filter_cons, filter_nil. cbn [text].
  destruct (Js.trim input) as [|a x], (Js.trim output) as [|b y];
    cbn [Js.truthy_string];
    repeat (rewrite decide_True by done || rewrite decide_False by (by intros [])); done.
Qed.

Lemma fragments_cons (o : option string) (ts : list (option string)) :
  Spec.fragments (o :: ts) = default "" o +:+ Spec.fragments ts.
Proof. by destruct o. Qed.

(** *** Errors of the live session *)

(** C6, as amended. [onError] puts the SDK error's message into the banner
    text, moves the component to ERROR, and makes no call but the console
    log and, when [liveSessionRef] holds a session, the call stopping that
    session, whose reference it clears; it starts no conversation and
    touches neither the history nor the accumulators. *)
Theorem onError_surfaces (e : Error) (s : State) :
  let s' := onError e s in
  error s' = Some ("An error occurred: " +:+ message e +:+ ". Please try again.") ∧
  (∃ before after, error s' = Some (before +:+ message e +:+ after)) ∧
  appState s' = ERROR ∧
  liveSessionRef s' = None ∧
  calls s'
    = calls s ++ console_error "Gemini Live API Error:" e
        :: match liveSessionRef s with
           | Some liveSession => [stopConversation liveSession]
           | None => []
           end ∧
  (startConversation ∉ drop (length (calls s)) (calls s')) ∧
  transcriptionHistory s' = transcriptionHistory s ∧
  uploadedFiles s' = uploadedFiles s ∧
  currentInputTranscriptionRef s' = currentInputTranscriptionRef s ∧
  currentOutputTranscriptionRef s' = currentOutputTranscriptionRef s.
Proof.
  unfold onError. destruct s as [a h er f p [l|] ci co cl]; cbn;
    split_and!; try done; try (by eauto); try (by rewrite <-app_assoc);
    intros Hin; rewrite <-?app_assoc, drop_app_length in Hin;
    repeat (apply elem_of_cons in Hin as [?|Hin]; [done|]);
    by apply elem_of_nil in Hin.
Qed.

(** C6 as stated fails when the error comes before [startConversation] has
    resolved: [liveSessionRef] is still empty, nothing is stopped, and the
    session that then arrives is kept open under the ERROR state. *)
Lemma onError_before_session_closes_nothing :
  let s := handleStart_resolved (mkLiveSession 0)
             (onerror "socket" (handleStart_begin mounted)) in
  (appState s = ERROR ∧
   liveSessionRef s = Some (mkLiveSession 0) ∧
   calls s = [startConversation;
              console_error "Gemini Live API Error:" (mkError "socket")]) ∧
  ¬ (∀ (e : Error) (s0 : State),
       ∃ liveSession,
         stopConversation liveSession
           ∈ drop (length (calls s0)) (calls (onError e s0))).
Proof.
  split; [done|].
  intros H. destruct (H (mkError "socket") (handleStart_begin mounted)) as [l Hl].
  cbn in Hl. apply elem_of_cons in Hl as [?|?%elem_of_nil]; done.
Qed.

Lemma uploaded_files_distinct_names_witness :
  let a := mkFile "a.txt" "text/plain" [1] in
  let b := mkFile "b.txt" "text/plain" [2] in
  let a' := mkFile "a.txt" "text/plain" [3] in
  let s := handleFileChange (Some [a; b]) mounted in
  NoDup (name <$> uploadedFiles s) ∧
  uploadedFiles (handleFileChange (Some [a']) s) = [a'; b].
Proof.
  intros a b a' s.
  destruct uploaded_files_distinct_names as (_ & Hm & Hr & _).
  assert (Hs : NoDup (name <$> uploadedFiles s)).
  { exact (Hm [Select (Some [a; b])]). }
  split; [exact Hs|].
  rewrite (Hr s a' Hs); [reflexivity|].
  subst s a a' b. vm_compute. left.
Defined.

End AppFacts.

(* ===================================================================== *)
(** ** Facts about the data model *)
(* ===================================================================== *)

Module TypesFacts.
Import Types.

(** C7. The data model is a record with exactly the two fields [author]
    (one of the two values 'user' and 'gemini') and [text] (a string), and
    an enum with exactly the four states IDLE, CONNECTING, CONNECTED and
    ERROR, pairwise distinct and carrying their own names as values. *)
Theorem data_model_shape :
  (∀ e : TranscriptionEntry, entry_of_pair (entry_to_pair e) = e) ∧
  (∀ p : Author * string, entry_to_pair (entry_of_pair p) = p) ∧
  (∀ a : Author, a ∈ all_Authors) ∧
  NoDup all_Authors ∧
  Author_value <$> all_Authors = ["user"; "gemini"]%string ∧
  (∀ s : AppState, s ∈ all_AppStates) ∧
  NoDup all_AppStates ∧
  length all_AppStates = 4%nat ∧
  AppState_value <$> all_AppStates
    = ["IDLE"; "CONNECTING"; "CONNECTED"; "ERROR"]%string.
Proof.
  split_and!; try done.
  - by intros [].
  - by intros [].
  - intros []; unfold all_Authors; set_solver.
  - apply (bool_decide_unpack _). by vm_compute.
  - intros []; unfold all_AppStates; set_solver.
  - apply (bool_decide_unpack _). by vm_compute.
Qed.

End TypesFacts.

(* ===================================================================== *)
(** ** More facts about the service *)
(* ===================================================================== *)

Module ServiceExtras.
Import AudioUtils Service.

(** *** Capture beyond the nominal range *)

Lemma div_mono_cross (n m d e : Z) :
  0 < d → 0 < e → 0 <= n → n * e <= m * d → n / d <= m / e.
Proof.
  intros Hd He Hn Hle. apply Z.div_le_lower_bound; [done|].
  pose proof (Z.mul_div_le n d Hd) as Hk.
  apply (Z.mul_le_mono_pos_l _ _ d); [done|].
  set (k := n / d) in *.
  assert (d * k * e <= n * e) by (apply Z.mul_le_mono_nonneg_r; lia).
  lia.
Qed.

Lemma truncate_mono (p q : Q) : (p <= q)%Q → truncate p <= truncate q.
Proof.
  destruct p as [n d], q as [m e]. unfold Qle, truncate. simpl. intros Hle.
  destruct (Z_le_gt_dec 0 n) as [Hn|Hn], (Z_le_gt_dec 0 m) as [Hm|Hm].
  - rewrite !Z.quot_div_nonneg by lia. apply div_mono_cross; lia.
  - nia.
  - pose proof (Z.quot_pos m (Z.pos e)).
    replace n with (- - n) by lia. rewrite Z.quot_opp_l by lia.
    pose proof (Z.quot_pos (- n) (Z.pos d)). lia.
  - replace n with (- - n) by lia. replace m with (- - m) by lia.
    rewrite (Z.quot_opp_l (- n)), (Z.quot_opp_l (- m)) by lia.
    rewrite !Z.quot_div_nonneg by lia.
    apply Z.opp_le_mono. rewrite !Z.opp_involutive.
    apply div_mono_cross; lia.
Qed.

Lemma scale_mono (p q : Q) : (p <= q)%Q → (p * 32768 <= q * 32768)%Q.
Proof. intros H. apply Qmult_le_compat_r; [done | discriminate]. Qed.

Lemma ToInt16_in_range (q : Q) :
  (-1 <= q)%Q → (q < 1)%Q →
  ToInt16 (times_32768 (Finite q)) = truncate (q * 32768).
Proof.
  intros Hlo Hhi. cbn [times_32768 ToInt16].
  pose proof (ServiceFacts.truncate_bounds q Hlo Hhi) as Hr.
  by apply ServiceFacts.wrap16_id.
Qed.

(** X1. The quantizer is monotone on the nominal range: a louder sample
    never gets a smaller Int16. *)
Theorem quantize_monotone (p q : Q) :
  (-1 <= p)%Q → (p <= q)%Q → (q < 1)%Q →
  ToInt16 (times_32768 (Finite p)) <= ToInt16 (times_32768 (Finite q)).
Proof.
  intros Hlo Hpq Hhi.
  rewrite !ToInt16_in_range; try done.
  - by apply truncate_mono, scale_mono.
  - by apply Qle_trans with p.
  - by apply Qle_lt_trans with q.
Qed.

Lemma quantize_monotone_witness :
  ToInt16 (times_32768 (Finite (-1 # 3)))
    <= ToInt16 (times_32768 (Finite (1 # 2))).
Proof.
  apply quantize_monotone.
  - vm_compute. discriminate.
  - vm_compute. discriminate.
  - reflexivity.
Defined.

(** X2. A sample in [1, 2), which the store does not clamp, comes out
    negative: it is [s * 32768] rounded toward zero less 65536. *)
Theorem quantize_overdriven_flips_sign (data : list float) (i : nat) (q : Q) :
  data !! i = Some (Finite q) → (1 <= q)%Q → (q < 2)%Q →
  ∃ v, quantize data !! i = Some v ∧
       v = truncate (q * 32768) - 65536 ∧
       -32768 <= v <= -1.
Proof.
  intros Hi Hlo Hhi.
  assert (Hr : 32768 <= truncate (q * 32768) <= 65535).
  { clear Hi. destruct q as [n d]. unfold Qle, Qlt, truncate in *.
    simpl in *. rewrite Pos.mul_1_r.
    pose proof (Z.quot_le_lower_bound (n * 32768) (Z.pos d) 32768).
    pose proof (Z.quot_lt_upper_bound (n * 32768) (Z.pos d) 65536). lia. }
  exists (truncate (q * 32768) - 65536).
  rewrite ServiceFacts.quantize_lookup, Hi. cbn [fmap option_fmap option_map times_32768 ToInt16].
  split; [|split; [done | lia]].
  f_equal. rewrite Z.mod_small by lia.
  destruct (Z.leb_spec 32768 (truncate (q * 32768))); [done | lia].
Qed.

Lemma quantize_overdriven_flips_sign_witness :
  quantize [Finite (1 # 2); Finite (3 # 2)] !! 1%nat = Some (-16384).
Proof.
  destruct (quantize_overdriven_flips_sign
              [Finite (1 # 2); Finite (3 # 2)] 1%nat (3 # 2))
    as (v & Hv & -> & _).
  - reflexivity.
  - vm_compute. discriminate.
  - reflexivity.
  - exact Hv.
Defined.

Lemma bytes_roundtrip (int16 : list Z) :
  Forall Spec.int16_range int16 →
  Spec.Int16Array_of_Uint8 (Uint8Array_of_Int16 int16) = int16.
Proof.
  induction 1 as [|v rest Hv Hrest IH]; [done|].
  cbn [Uint8Array_of_Int16 Spec.Int16Array_of_Uint8]. rewrite IH. f_equal.
  by destruct (ServiceFacts.int16_bytes_roundtrip v Hv) as (_ & _ & ?).
Qed.

Lemma quantize_Forall_range (data : list float) :
  Forall Spec.int16_range (quantize data).
Proof.
  induction data as [|x rest IH]; cbn [quantize]; constructor; [|done].
  apply ServiceFacts.ToInt16_range.
Qed.

(** X3. The byte view of the quantized frame loses nothing: read back as
    Int16, low byte first, the bytes handed to [encode] give the quantized
    samples again, whatever the input samples are. *)
Theorem createBlob_bytes_roundtrip (data : list float) :
  Spec.Int16Array_of_Uint8 (Uint8Array_of_Int16 (quantize data))
    = quantize data ∧
  Forall (λ b, 0 <= b < 256) (Uint8Array_of_Int16 (quantize data)).
Proof.
  split; [apply bytes_roundtrip, quantize_Forall_range|].
  induction data as [|x rest IH]; cbn [quantize Uint8Array_of_Int16];
    [constructor|].
  destruct (ServiceFacts.int16_bytes_roundtrip _
              (ServiceFacts.ToInt16_range (times_32768 x)))
    as (Hlo & Hhi & _).
  constructor; [exact Hlo|]. constructor; [exact Hhi | exact IH].
Qed.

(** *** More of the playback *)

Lemma scheduled_stop_all (tracked : list nat) (ns : list AudioBufferSourceNode) :
  (λ n, (buffer n, when n)) <$> stop_all tracked ns
    = (λ n, (buffer n, when n)) <$> ns.
Proof.
  apply list_eq. intros i.
  rewrite !list_lookup_fmap, ServiceFacts.stop_all_lookup.
  destruct (decide (i ∈ tracked)); [|done]. by destruct (ns !! i).
Qed.

Section PlaybackExtras.
Variable decode : string → list Z.
Variable decodeAudioData : list Z → nat → Z → Z → AudioBuffer.

Local Abbreviation onmessage := (onmessage decode decodeAudioData).
Local Abbreviation step := (step decode decodeAudioData).
Local Abbreviation run := (run decode decodeAudioData).
Local Abbreviation chunk_of := (Spec.chunk_of decode decodeAudioData).
Local Abbreviation audio_chunks := (Spec.audio_chunks decode decodeAudioData).

(** What one event adds to the schedule, interruption or not. *)
Lemma step_scheduled (c : Conversation) (e : Event) :
  Spec.scheduled (step c e)
    = Spec.scheduled c
        ++ match chunk_of (localOutputAudioContext c) e with
           | Some (t, b) => [(b, Qmax (nextStartTime c) t)]
           | None => []
           end.
Proof.
  unfold Spec.scheduled. destruct e as [t m|s]; cbn [Service.step Spec.chunk_of].
  - unfold Service.onmessage. cbn [fst].
    destruct (base64Audio_of m) as [a|];
      [destruct (Js.truthy_string a)|];
      destruct (is_interrupted m);
      cbn [interrupt schedule nodes];
      rewrite ?scheduled_stop_all, ?fmap_app, ?app_nil_r; done.
  - cbn [onended nodes]. by rewrite app_nil_r.
Qed.

(** X4. Interruptions or not, the sources are only ever added to, each
    audio chunk adds one source playing its buffer, and no source is
    started before the clock time at which its chunk was handled. *)
Theorem sources_never_start_in_the_past (c : Conversation) (es : list Event) :
  ∃ started,
    Spec.scheduled (run c es) = Spec.scheduled c ++ started ∧
    Forall2 (λ chunk source,
               source.1 = chunk.2 ∧ (chunk.1 <= source.2)%Q)
      (audio_chunks (localOutputAudioContext c) es) started.
Proof.
  revert c. induction es as [|e es IH]; intros c.
  - exists []. split; [by rewrite app_nil_r | constructor].
  - unfold Service.run in *. cbn [foldl].
    destruct (IH (step c e)) as (started & Hs & Hf).
    rewrite ServiceFacts.step_context in Hf.
    rewrite step_scheduled in Hs.
    unfold Spec.audio_chunks in *. cbn [omap list_omap].
    destruct (chunk_of (localOutputAudioContext c) e) as [[t b]|].
    + exists ((b, Qmax (nextStartTime c) t) :: started).
      split; [by rewrite Hs, <-app_assoc|].
      constructor; [|done]. split; [done | apply Q.le_max_r].
    + exists started. by rewrite Hs, app_nil_r.
Qed.

Lemma step_nextStartTime (c : Conversation) (e : Event) :
  nextStartTime (step c e)
    = match e with
      | Message t m =>
          if is_interrupted m then 0%Q
          else match chunk_of (localOutputAudioContext c) e with
               | Some (t, b) => (Qmax (nextStartTime c) t + duration b)%Q
               | None => nextStartTime c
               end
      | Ended _ => nextStartTime c
      end.
Proof.
  destruct e as [t m|s]; [|done]. cbn [Service.step Spec.chunk_of].
  unfold Service.onmessage. cbn [fst].
  destruct (base64Audio_of m) as [a|];
    [destruct (Js.truthy_string a)|];
    by destruct (is_interrupted m).
Qed.

Lemma step_same_schedule (c1 c2 : Conversation) (e : Event) :
  Spec.same_schedule c1 c2 → Spec.same_schedule (step c1 e) (step c2 e).
Proof.
  intros (Hc & Hs & Ht). unfold Spec.same_schedule.
  rewrite !ServiceFacts.step_context, !step_scheduled, !step_nextStartTime.
  by rewrite Hc, Hs, Ht.
Qed.

Lemma ended_same_schedule (c : Conversation) (s : nat) :
  Spec.same_schedule (step c (Ended s)) c.
Proof. done. Qed.

(** X5. The schedule does not depend on when sources end: with the
    ['ended'] events left out, the same sources are scheduled with the same
    buffers at the same times and [nextStartTime] is the same. *)
Theorem schedule_ignores_ended (c : Conversation) (es : list Event) :
  Spec.scheduled (run c es)
    = Spec.scheduled (run c (filter (λ e, Spec.is_message e = true) es)) ∧
  nextStartTime (run c es)
    = nextStartTime (run c (filter (λ e, Spec.is_message e = true) es)).
Proof.
  enough (H : ∀ c1 c2, Spec.same_schedule c1 c2 →
                Spec.same_schedule (run c1 es)
                  (run c2 (filter (λ e, Spec.is_message e = true) es))).
  { destruct (H c c) as (_ & Hs & Ht); done. }
  unfold Service.run.
  induction es as [|e es IH]; intros c1 c2 Hc; [done|].
  rewrite filter_cons. cbn [foldl].
  destruct e as [t m|s]; cbn [Spec.is_message].
  - rewrite decide_True by done. cbn [foldl].
    by apply IH, step_same_schedule.
  - rewrite decide_False by done. apply IH.
    destruct Hc as (Hc & Hs & Ht). by split_and!.
Qed.

Lemma step_tracked_ok (c : Conversation) (e : Event) :
  Spec.tracked_ok c → Spec.tracked_ok (step c e).
Proof.
  unfold Spec.tracked_ok. intros Hc.
  destruct e as [t m|s0]; cbn [Service.step].
  - unfold Service.onmessage. cbn [fst].
    assert (Hsched : ∀ b s,
              s ∈ sources (schedule decode decodeAudioData t b c) →
              ∃ n, nodes (schedule decode decodeAudioData t b c) !! s = Some n
                   ∧ stopped n = false).
    { intros b s. cbn [schedule sources nodes].
      intros [Hs| ->%elem_of_singleton]%elem_of_union.
      - destruct (Hc s Hs) as (n & Hn & Hst). exists n.
        by rewrite (lookup_app_l_Some _ _ _ _ Hn).
      - eexists. by rewrite lookup_app_r, Nat.sub_diag. }
    destruct (base64Audio_of m) as [a|];
      [destruct (Js.truthy_string a)|];
      destruct (is_interrupted m); cbn [interrupt sources];
      try (intros s Hs; by apply elem_of_empty in Hs); auto.
  - cbn [onended sources nodes]. intros s [Hs _]%elem_of_difference. auto.
Qed.

Lemma step_stopped (c : Conversation) (e : Event) (i : nat)
    (n : AudioBufferSourceNode) :
  nodes c !! i = Some n → stopped n = true →
  ∃ n', nodes (step c e) !! i = Some n' ∧ stopped n' = true.
Proof.
  intros Hn Hst.
  assert (Hstop : ∀ ns tracked,
            ns !! i = Some n →
            ∃ n', stop_all tracked ns !! i = Some n' ∧ stopped n' = true).
  { intros ns tracked Hi. rewrite ServiceFacts.stop_all_lookup, Hi.
    destruct (decide (i ∈ tracked)); eauto. }
  destruct e as [t m|s0]; cbn [Service.step]; [|eauto].
  unfold Service.onmessage. cbn [fst].
  destruct (base64Audio_of m) as [a|];
    [destruct (Js.truthy_string a)|];
    destruct (is_interrupted m); cbn [interrupt schedule nodes sources];
    eauto using lookup_app_l_Some.
Qed.

(** X6. From a state in which every tracked source exists and is not
    stopped (the initial one is such), any sequence of messages and
    ['ended'] events keeps it so, and a source once stopped stays stopped:
    the handler never stops a source it goes on tracking. *)
Theorem tracked_sources_are_live (c : Conversation) (es : list Event) :
  Spec.tracked_ok c →
  Spec.tracked_ok (run c es) ∧
  (∀ i n, nodes c !! i = Some n → stopped n = true →
          ∃ n', nodes (run c es) !! i = Some n' ∧ stopped n' = true).
Proof.
  unfold Service.run. revert c.
  induction es as [|e es IH]; intros c Hc; cbn [foldl].
  - split; [done | eauto].
  - destruct (IH (step c e) (step_tracked_ok c e Hc)) as [Hok Hst].
    split; [done|]. intros i n Hn Hs.
    destruct (step_stopped c e i n Hn Hs) as (n' & Hn' & Hs'). eauto.
Qed.

End PlaybackExtras.

Lemma tracked_sources_are_live_witness :
  Spec.tracked_ok (initial 0) ∧
  Spec.tracked_ok
    (run Sample.decode Sample.decodeAudioData (initial 0) Sample.two_chunks).
Proof.
  assert (H : Spec.tracked_ok (initial 0)).
  { intros s Hs. by apply elem_of_empty in Hs. }
  split; [exact H|].
  exact (proj1 (tracked_sources_are_live Sample.decode Sample.decodeAudioData
                  (initial 0) Sample.two_chunks H)).
Defined.

(** *** The output context over conversations and speech *)

Lemma lookup_snoc_last {A} (l : list A) (a : A) :
  (l ++ [a]) !! length l = Some a.
Proof. by rewrite lookup_app_r, Nat.sub_diag. Qed.

Lemma lookup_snoc2_first {A} (l : list A) (a b : A) :
  ((l ++ [a]) ++ [b]) !! length l = Some a.
Proof.
  rewrite lookup_app_l by (rewrite length_app; cbn; lia).
  apply lookup_snoc_last.
Qed.

Lemma lookup_snoc2_last {A} (l : list A) (a b : A) :
  ((l ++ [a]) ++ [b]) !! length (l ++ [a]) = Some b.
Proof. apply lookup_snoc_last. Qed.

Lemma startConversation_contexts_spec (w : World) :
  Spec.world_ok w →
  let r := startConversation_contexts w in
  let input := length (contexts w) in
  ∃ out,
    r.1 = (input, initial out) ∧
    out ≠ input ∧
    (out < length (contexts r.2))%nat ∧
    (input < length (contexts r.2))%nat ∧
    state_of r.2 input = Some suspended ∧
    state_of r.2 out ≠ Some closed ∧
    outputAudioContext r.2 = Some out ∧
    (∀ c, outputAudioContext w = Some c → state_of w c ≠ Some closed → out = c).
Proof.
  intros Hw. unfold startConversation_contexts, getOutputAudioContext.
  cbn [new_AudioContext outputAudioContext contexts].
  assert (Hnew :
    let r := (length (contexts w),
              initial (length (contexts w ++ [mkAudioContext suspended
                                                INPUT_SAMPLE_RATE])),
              mkWorld ((contexts w ++ [mkAudioContext suspended
                                         INPUT_SAMPLE_RATE])
                         ++ [mkAudioContext suspended OUTPUT_SAMPLE_RATE])
                (Some (length (contexts w ++ [mkAudioContext suspended
                                                INPUT_SAMPLE_RATE])))) in
    let out := length (contexts w ++ [mkAudioContext suspended
                                        INPUT_SAMPLE_RATE]) in
    r.1 = (length (contexts w), initial out) ∧
    out ≠ length (contexts w) ∧
    (out < length (contexts r.2))%nat ∧
    (length (contexts w) < length (contexts r.2))%nat ∧
    state_of r.2 (length (contexts w)) = Some suspended ∧
    state_of r.2 out ≠ Some closed ∧
    outputAudioContext r.2 = Some out).
  { cbn [fst snd contexts outputAudioContext]. unfold state_of.
    cbn [contexts]. rewrite lookup_snoc2_first, lookup_snoc2_last.
    rewrite !length_app. cbn [length]. split_and!; try done; lia. }
  destruct (outputAudioContext w) as [c|] eqn:Hc.
  - pose proof (Hw c Hc) as Hlt.
    assert (Hst : state_of
                    (mkWorld (contexts w ++ [mkAudioContext suspended
                                               INPUT_SAMPLE_RATE]) (Some c)) c
                  = state_of w c).
    { unfold state_of. cbn [contexts]. by rewrite lookup_app_l. }
    unfold is_closed. rewrite Hst. case_bool_decide as Hcl.
    + eexists. destruct Hnew as (H1 & H2 & H3 & H4 & H5 & H6 & H7).
      split_and!; try done. by intros c' [= <-] Hopen.
    + exists c. cbn [fst snd contexts outputAudioContext]. unfold state_of.
      cbn [contexts]. rewrite lookup_snoc_last, lookup_app_l by done.
      rewrite !length_app. cbn [length].
      split_and!; try done; try lia. by intros c' [= <-] _.
  - eexists. destruct Hnew as (H1 & H2 & H3 & H4 & H5 & H6 & H7).
    split_and!; done.
Qed.

(** X8. In a world whose module variable refers to an existing context,
    starting a conversation takes a fresh input context and the shared
    output context, two different objects; closing the conversation closes
    the input context and leaves the output context open and in place, so
    that the next conversation gets the same output context and a new input
    context. *)
Theorem output_context_outlives_conversations (w : World) :
  Spec.world_ok w →
  let r := startConversation_contexts w in
  let w2 := (close r.1.1 r.2).2 in
  let r' := startConversation_contexts w2 in
  r.1.1 ≠ localOutputAudioContext r.1.2 ∧
  state_of w2 r.1.1 = Some closed ∧
  state_of w2 (localOutputAudioContext r.1.2) ≠ Some closed ∧
  Spec.world_ok w2 ∧
  localOutputAudioContext r'.1.2 = localOutputAudioContext r.1.2 ∧
  r'.1.1 ≠ r.1.1 ∧
  state_of r'.2 r'.1.1 = Some suspended.
Proof.
  intros Hw r w2 r'.
  destruct (startConversation_contexts_spec w Hw)
    as (out & Hr & Hne & Hout & Hin & Hsin & Hsout & Hvar & _).
  fold r in Hr, Hout, Hin, Hsin, Hsout, Hvar. clearbody r.
  destruct r as [[input conv] w1]. cbn [fst snd] in *.
  injection Hr as -> ->. cbn [initial localOutputAudioContext].
  assert (H2len : length (contexts w2) = length (contexts w1)).
  { subst w2. cbn [close snd close_AudioContext contexts].
    by rewrite length_alter. }
  assert (H2var : outputAudioContext w2 = Some out) by done.
  assert (H2in : state_of w2 (length (contexts w)) = Some closed).
  { subst w2. unfold state_of in *.
    cbn [close snd close_AudioContext contexts].
    rewrite list_lookup_alter_eq.
    by destruct (contexts w1 !! length (contexts w)). }
  assert (H2out : state_of w2 out = state_of w1 out).
  { subst w2. unfold state_of.
    cbn [close snd close_AudioContext contexts].
    by rewrite list_lookup_alter_ne. }
  assert (H2ok : Spec.world_ok w2).
  { intros c Hc. rewrite H2var in Hc. injection Hc as <-. by rewrite H2len. }
  destruct (startConversation_contexts_spec w2 H2ok)
    as (out' & Hr' & _ & _ & _ & Hsin' & _ & _ & Hsame).
  fold r' in Hr', Hsin'. clearbody r'.
  destruct r' as [[input' conv'] w3]. cbn [fst snd] in *.
  injection Hr' as -> ->. cbn [initial localOutputAudioContext].
  assert (Hout' : out' = out).
  { apply Hsame; [done|]. by rewrite H2out. }
  subst out'. split_and!; rewrite ?H2out, ?H2len; try done.
  rewrite length_alter. lia.
Qed.

Lemma output_context_outlives_conversations_witness :
  let w := mkWorld [mkAudioContext running 24000] (Some 0%nat) in
  let r := startConversation_contexts w in
  let w2 := (close r.1.1 r.2).2 in
  Spec.world_ok w ∧
  state_of w2 r.1.1 = Some closed ∧
  localOutputAudioContext (startConversation_contexts w2).1.2 = 0%nat.
Proof.
  intros w r w2.
  assert (Hw : Spec.world_ok w).
  { intros c [= <-]. cbn. lia. }
  split; [exact Hw|].
  destruct (output_context_outlives_conversations w Hw)
    as (_ & H1 & _ & _ & H2 & _).
  split; [exact H1 | exact H2].
Defined.

Section SpeechExtras.
Variable decode : string → list Z.
Variable decodeAudioData : list Z → nat → Z → Z → AudioBuffer.

Local Abbreviation generateSpeech := (generateSpeech decode decodeAudioData).

(** X9. A response without audio makes [generateSpeech] fail before it
    touches the audio contexts: the world is unchanged. A response with
    audio [b] is decoded in the shared output context, and [playAudio] on
    the result plays in that same context without creating another one. *)
Theorem speech_is_played_where_it_was_decoded
    (response : GenerateContentResponse) (w : World) :
  ((¬ ∃ b, Spec.carries_audio response b) → (generateSpeech response w).2 = w) ∧
  (∀ b audioBuffer,
     Spec.carries_audio response b →
     (generateSpeech response w).1 = Return audioBuffer →
     let w1 := (generateSpeech response w).2 in
     let played := playAudio audioBuffer w1 in
     audioBuffer = decodeAudioData (decode b) played.1.1 24000 1 ∧
     buffer played.1.2 = audioBuffer ∧
     when played.1.2 = 0%Q ∧
     played.2 = w1).
Proof.
  split.
  - intros Hno. unfold Service.generateSpeech.
    destruct (tts_base64Audio response) as [b|] eqn:Hb; [|done].
    destruct (Js.truthy_string b) eqn:Ht; [|done].
    destruct Hno. exists b. by apply ServiceFacts.tts_base64Audio_carries.
  - intros b audioBuffer Hb. apply ServiceFacts.tts_base64Audio_carries in Hb as [Hb Ht].
    unfold Service.generateSpeech. rewrite Hb, Ht.
    pose proof (ServiceFacts.getOutputAudioContext_sets w) as Hset.
    destruct (getOutputAudioContext w) as [out w1] eqn:Hget.
    cbn [fst snd] in *. intros [= <-].
    assert (Hopen : state_of w1 out ≠ Some closed).
    { unfold getOutputAudioContext in Hget.
      destruct (outputAudioContext w) as [c|] eqn:Hc.
      - unfold is_closed in Hget. case_bool_decide as Hcl.
        + injection Hget as <- <-. unfold state_of. cbn.
          by rewrite lookup_app_r, Nat.sub_diag.
        + by injection Hget as <- <-.
      - injection Hget as <- <-. unfold state_of. cbn.
        by rewrite lookup_app_r, Nat.sub_diag. }
    unfold playAudio.
    rewrite (ServiceFacts.getOutputAudioContext_keeps w1 out Hset Hopen).
    done.
Qed.

End SpeechExtras.

Lemma speech_is_played_where_it_was_decoded_witness :
  let response :=
    mkResponse (Some [mkCandidate (Some (mkResponseContent (Some
      [mkPart (Some (mkBlob (Some "abcd") (Some "audio/pcm")))])))]) in
  let w := mkWorld [] None in
  let w1 := (generateSpeech Sample.decode Sample.decodeAudioData response w).2 in
  (playAudio (Sample.decodeAudioData (Sample.decode "abcd") 0 24000 1) w1).2
    = w1.
Proof.
  intros response w w1.
  destruct (speech_is_played_where_it_was_decoded Sample.decode
              Sample.decodeAudioData response w) as [_ H].
  destruct (H "abcd" (Sample.decodeAudioData (Sample.decode "abcd") 0 24000 1))
    as (_ & _ & _ & Hw).
  - exists (mkCandidate (Some (mkResponseContent (Some
              [mkPart (Some (mkBlob (Some "abcd") (Some "audio/pcm")))])))),
      [], (mkResponseContent (Some
              [mkPart (Some (mkBlob (Some "abcd") (Some "audio/pcm")))])),
      (mkPart (Some (mkBlob (Some "abcd") (Some "audio/pcm")))), [],
      (mkBlob (Some "abcd") (Some "audio/pcm")).
    repeat split; discriminate.
  - reflexivity.
  - exact Hw.
Defined.

End ServiceExtras.

(* ===================================================================== *)
(** ** More facts about the component *)
(* ===================================================================== *)

Module AppExtras.
Import Types AudioUtils App.

(** *** What a server message does to the rest of the state *)

Lemma accumulate_frame (i o : option string) (s : State) :
  appState (accumulate i o s) = appState s ∧
  error (accumulate i o s) = error s ∧
  uploadedFiles (accumulate i o s) = uploadedFiles s ∧
  isProcessingFileQuery (accumulate i o s) = isProcessingFileQuery s ∧
  liveSessionRef (accumulate i o s) = liveSessionRef s ∧
  calls (accumulate i o s) = calls s.
Proof.
  unfold accumulate. by destruct i as [[|a i]|], o as [[|b o]|].
Qed.

(** What the file question leaves behind, by outcome. *)
Lemma ask_files_outcome (query : FileQuery) (s : State) :
  let s' := ask_files query s in
  isProcessingFileQuery s' = false ∧
  appState s' = appState s ∧
  liveSessionRef s' = liveSessionRef s ∧
  uploadedFiles s' = uploadedFiles s ∧
  match query with
  | ContentFails e =>
      error s'
        = Some ("Error answering question about files: " +:+ message e) ∧
      transcriptionHistory s' = transcriptionHistory s ∧
      calls s' = calls s ++ [console_error "Error processing file query:" e]
  | SpeechFails t e =>
      error s'
        = Some ("Error answering question about files: " +:+ message e) ∧
      transcriptionHistory s' = transcriptionHistory s ++ [mkEntry gemini t] ∧
      calls s' = calls s ++ [console_error "Error processing file query:" e]
  | Answered t b =>
      error s' = None ∧
      transcriptionHistory s' = transcriptionHistory s ++ [mkEntry gemini t] ∧
      calls s' = calls s ++ [playAudio b]
  end.
Proof. by destruct query. Qed.

(** The state after a turn-completing message, field by field. *)
Lemma commit_outcome (files : list File) (query : FileQuery) (s : State) :
  let s' := commit files query s in
  let entries :=
    Spec.committed_entries (currentInputTranscriptionRef s)
      (currentOutputTranscriptionRef s) in
  let asked :=
    Js.truthy_string (Js.trim (currentInputTranscriptionRef s))
    && (0 <? length files)%nat in
  appState s' = appState s ∧
  liveSessionRef s' = liveSessionRef s ∧
  uploadedFiles s' = uploadedFiles s ∧
  (if asked then
     isProcessingFileQuery s' = false ∧
     match query with
     | ContentFails e =>
         error s'
           = Some ("Error answering question about files: " +:+ message e) ∧
         transcriptionHistory s' = transcriptionHistory s ++ entries ∧
         calls s' = calls s ++ [console_error "Error processing file query:" e]
     | SpeechFails t e =>
         error s'
           = Some ("Error answering question about files: " +:+ message e) ∧
         transcriptionHistory s'
           = transcriptionHistory s ++ entries ++ [mkEntry gemini t] ∧
         calls s' = calls s ++ [console_error "Error processing file query:" e]
     | Answered t b =>
         error s' = None ∧
         transcriptionHistory s'
           = transcriptionHistory s ++ entries ++ [mkEntry gemini t] ∧
         calls s' = calls s ++ [playAudio b]
     end
   else
     isProcessingFileQuery s' = isProcessingFileQuery s ∧
     error s' = error s ∧
     transcriptionHistory s' = transcriptionHistory s ++ entries ∧
     calls s' = calls s).
Proof.
  intros s' entries asked. subst s'. unfold commit.
  rewrite AppFacts.newHistory_committed. fold entries. fold asked.
  set (s2 := if (0 <? length entries)%nat
             then setTranscriptionHistory (λ prev, prev ++ entries) s
             else s).
  assert (H2 : transcriptionHistory s2 = transcriptionHistory s ++ entries
               ∧ appState s2 = appState s ∧ error s2 = error s
               ∧ uploadedFiles s2 = uploadedFiles s
               ∧ isProcessingFileQuery s2 = isProcessingFileQuery s
               ∧ liveSessionRef s2 = liveSessionRef s
               ∧ calls s2 = calls s).
  { subst s2. destruct entries as [|e entries]; cbn; [|done].
    by rewrite app_nil_r. }
  destruct H2 as (Hh & Ha & He & Hu & Hp & Hl & Hc).
  destruct asked.
  - pose proof (ask_files_outcome query s2) as Hq. cbn zeta in Hq.
    destruct Hq as (Hq1 & Hq2 & Hq3 & Hq4 & Hq5).
    cbn [set_currentOutput set_currentInput appState liveSessionRef
         uploadedFiles isProcessingFileQuery error transcriptionHistory calls].
    rewrite Hq2, Hq3, Hq4, Ha, Hl, Hu. split_and!; try done.
    destruct query; destruct Hq5 as (-> & -> & ->);
      rewrite Hh, Hc, <-?app_assoc; done.
  - cbn [set_currentOutput set_currentInput appState liveSessionRef
         uploadedFiles isProcessingFileQuery error transcriptionHistory calls].
    by split_and!.
Qed.

Lemma committed_entries_nonempty (input output : string) :
  Forall (λ e, text e ≠ EmptyString) (Spec.committed_entries input output).
Proof.
  unfold Spec.committed_entries. apply list.Forall_forall.
  by intros e [He _]%list_elem_of_filter.
Qed.

(** What a message adds to the history. *)
Lemma onMessage_history (files : list File) (query : FileQuery)
    (i o : option string) (turn : bool) (s : State) :
  ∃ added,
    transcriptionHistory (onMessage files query i o turn s)
      = transcriptionHistory s ++ added ∧
    Spec.user_entries_nonempty added.
Proof.
  unfold onMessage. destruct turn.
  - pose proof (commit_outcome files query (accumulate i o s)) as H.
    cbn zeta in H. destruct H as (_ & _ & _ & H).
    rewrite AppFacts.accumulate_history in H.
    pose proof (committed_entries_nonempty
                  (currentInputTranscriptionRef (accumulate i o s))
                  (currentOutputTranscriptionRef (accumulate i o s))) as Hne.
    assert (Hu : Spec.user_entries_nonempty
                   (Spec.committed_entries
                      (currentInputTranscriptionRef (accumulate i o s))
                      (currentOutputTranscriptionRef (accumulate i o s)))).
    { eapply Forall_impl; [exact Hne|]. by intros e He _. }
    destruct (_ && _).
    + destruct H as [_ H].
      destruct query; destruct H as (_ & -> & _); eexists; split;
        try reflexivity; try done.
      * apply Forall_app. split; [done|]. by repeat constructor.
      * apply Forall_app. split; [done|]. by repeat constructor.
    + destruct H as (_ & _ & -> & _). eauto.
  - exists []. rewrite app_nil_r, AppFacts.accumulate_history.
    split; [done | constructor].
Qed.

Lemma onMessage_frame (files : list File) (query : FileQuery)
    (i o : option string) (turn : bool) (s : State) :
  let s' := onMessage files query i o turn s in
  appState s' = appState s ∧
  liveSessionRef s' = liveSessionRef s ∧
  uploadedFiles s' = uploadedFiles s ∧
  Spec.stopped_sessions (calls s') = Spec.stopped_sessions (calls s).
Proof.
  unfold onMessage. destruct (accumulate_frame i o s) as (Ha & _ & Hu & _ & Hl & Hc).
  destruct turn; cbn zeta; [|by rewrite Ha, Hl, Hu, Hc].
  pose proof (commit_outcome files query (accumulate i o s)) as H.
  cbn zeta in H. destruct H as (-> & -> & -> & H).
  rewrite Ha, Hl, Hu. split_and!; try done.
  destruct (_ && _).
  - destruct H as [_ H].
    unfold Spec.stopped_sessions.
    destruct query; destruct H as (_ & _ & ->);
      rewrite omap_app, Hc; cbn; by rewrite app_nil_r.
  - destruct H as (_ & _ & _ & ->). by rewrite Hc.
Qed.

Lemma asked_true (files : list File) (input : string) :
  Js.trim input ≠ "" → files ≠ [] →
  Js.truthy_string (Js.trim input) && (0 <? length files)%nat = true.
Proof.
  intros Hin Hfiles. apply andb_true_iff. split.
  - by destruct (Js.trim input).
  - by destruct files.
Qed.



(** *** The history *)

Lemma handle_user_entries (s : State) (e : Event) :
  Spec.user_entries_nonempty (transcriptionHistory s) →
  Spec.user_entries_nonempty (transcriptionHistory (handle s e)).
Proof.
  intros Hs. destruct e as [| | | | | |files q i o turn|op]; cbn [handle];
    try done.
  - unfold click. destruct (View.onClick (appState s)) as [[|]|]; try done.
    + constructor.
    + unfold handleStop. by destruct (liveSessionRef s).
  - unfold onerror, onError. cbn. by destruct (liveSessionRef s).
  - unfold onClose. by case_decide.
  - destruct (onMessage_history files q i o turn s) as (added & -> & Ha).
    by apply Forall_app.
  - by destruct op as [[fs|]|n].
Qed.

(** X11. Whatever happens to the component, no 'user' entry of the
    transcript is empty: an input that is blank after trimming is never
    committed. *)
Theorem user_entries_are_never_empty (es : list Event) :
  Spec.user_entries_nonempty (transcriptionHistory (handle_all mounted es)).
Proof.
  unfold handle_all.
  enough (H : ∀ s, Spec.user_entries_nonempty (transcriptionHistory s) →
                Spec.user_entries_nonempty (transcriptionHistory (foldl handle s es))).
  { apply H. constructor. }
  induction es as [|e es IH]; intros s Hs; [done|].
  cbn [foldl]. by apply IH, handle_user_entries.
Qed.

Section DeliveryExtras.
Variable decode : string → list Z.
Variable decodeAudioData : list Z → nat → Z → Z → AudioBuffer.

Local Abbreviation deliver := (deliver decode decodeAudioData).
Local Abbreviation deliver_all := (deliver_all decode decodeAudioData).

(** X12. Server messages only ever add to the transcript: what was
    committed stays, unchanged and in place, whatever messages follow. *)
Theorem messages_only_append (uploadedFiles : list File)
    (ms : list (Q * Service.LiveServerMessage * FileQuery))
    (cs : Service.Conversation * State) :
  transcriptionHistory cs.2
    `prefix_of` transcriptionHistory (deliver_all uploadedFiles cs ms).2.
Proof.
  unfold App.deliver_all. revert cs.
  induction ms as [|m ms IH]; intros cs; [done|].
  cbn [foldl]. etrans; [|apply IH].
  destruct m as [[t message] query]. unfold App.deliver.
  destruct (Service.onmessage _ _ _ _ _) as [c [[i o] turn]]. cbn [snd].
  destruct (onMessage_history uploadedFiles query i o turn cs.2)
    as (added & -> & _).
  by apply prefix_app_r.
Qed.

End DeliveryExtras.

(** *** Stopping and restarting *)

Lemma click_connected (s : State) :
  appState s = CONNECTED → click s = handleStop s.
Proof. intros Hs. unfold click. by rewrite Hs. Qed.

Lemma click_start (s : State) :
  appState s = IDLE ∨ appState s = ERROR → click s = handleStart_begin s.
Proof. intros [Hs|Hs]; unfold click; by rewrite Hs. Qed.

Lemma click_connecting (s : State) :
  appState s = CONNECTING → click s = s.
Proof. intros Hs. unfold click. by rewrite Hs. Qed.

(** X13. Stopping a connected conversation and starting the next one
    empties the transcript but not the accumulators: the fragments of the
    unfinished turn are still there when the new session is stored, and the
    first turn the new conversation completes commits them in front of its
    own. *)
Theorem restart_keeps_uncommitted_fragments (session : LiveSession) (s : State) :
  appState s = CONNECTED →
  let s' := handleStart_resolved session (click (click s)) in
  appState s' = CONNECTING ∧
  liveSessionRef s' = Some session ∧
  transcriptionHistory s' = [] ∧
  currentInputTranscriptionRef s' = currentInputTranscriptionRef s ∧
  currentOutputTranscriptionRef s' = currentOutputTranscriptionRef s ∧
  (∀ files query i o,
     ∃ answer,
       transcriptionHistory (onMessage files query i o true s')
         = Spec.committed_entries
             (currentInputTranscriptionRef s +:+ default "" i)
             (currentOutputTranscriptionRef s +:+ default "" o) ++ answer).
Proof.
  intros Hs s'.
  assert (H : appState s' = CONNECTING ∧ liveSessionRef s' = Some session ∧
              transcriptionHistory s' = [] ∧
              currentInputTranscriptionRef s'
                = currentInputTranscriptionRef s ∧
              currentOutputTranscriptionRef s'
                = currentOutputTranscriptionRef s).
  { subst s'. rewrite (click_connected s Hs).
    rewrite (click_start (handleStop s)).
    - unfold handleStop. by destruct (liveSessionRef s).
    - left. unfold handleStop. by destruct (liveSessionRef s). }
  destruct H as (Ha & Hl & Hh & Hi & Ho). split_and!; try done.
  intros files query i o. unfold onMessage.
  pose proof (commit_outcome files query (accumulate i o s')) as H.
  cbn zeta in H. destruct H as (_ & _ & _ & H).
  rewrite AppFacts.accumulate_input, AppFacts.accumulate_output,
    AppFacts.accumulate_history, Hh, Hi, Ho in H.
  destruct (_ && _).
  - destruct H as [_ H]. destruct query; destruct H as (_ & -> & _); cbn [app];
      eauto using app_nil_r.
  - destruct H as (_ & _ & -> & _). exists []. by rewrite app_nil_r.
Qed.

Lemma restart_keeps_uncommitted_fragments_witness :
  let s := set_currentInput "hel" (setAppState CONNECTED mounted) in
  let s' := handleStart_resolved (mkLiveSession 1) (click (click s)) in
  transcriptionHistory s' = [] ∧ currentInputTranscriptionRef s' = "hel".
Proof.
  intros s s'.
  destruct (restart_keeps_uncommitted_fragments (mkLiveSession 1) s eq_refl)
    as (_ & _ & Hh & Hi & _).
  split; [exact Hh | exact Hi].
Defined.

(** X14. A conversation can be started only from IDLE or ERROR. When its
    session reports an error and then closes, the banner keeps the error
    text, but the state the component ends in is the one the conversation
    was started from: IDLE after a start from IDLE, ERROR only after a
    start from ERROR. *)
Theorem error_then_close (s0 s : State) (event_message : string) :
  View.onClick (appState s0) = Some View.onStart →
  let s' := onClose (appState s0) (onerror event_message s) in
  (appState s0 = IDLE ∨ appState s0 = ERROR) ∧
  appState s' = appState s0 ∧
  error s'
    = Some ("An error occurred: " +:+ event_message +:+ ". Please try again.") ∧
  liveSessionRef s' = None.
Proof.
  intros Hclick s'. subst s'. unfold onClose, onerror, onError.
  destruct (appState s0) eqn:Ha; try done;
    destruct s as [a h er f p [l|] ci co cl]; cbn; eauto.
Qed.

Lemma error_then_close_witness :
  let s := handleStart_begin mounted in
  appState (onClose (appState mounted) (onerror "socket" s)) = IDLE ∧
  error (onClose (appState mounted) (onerror "socket" s))
    = Some "An error occurred: socket. Please try again.".
Proof.
  intros s.
  destruct (error_then_close mounted s "socket" eq_refl) as (_ & H1 & H2 & _).
  split; [exact H1 | exact H2].
Defined.

(** *** Sessions *)

(** What one event does to the stored session and to the sessions stopped
    so far: a resolved start stores its session; anything else leaves both
    alone or stops the stored session and forgets it. *)
Lemma handle_sessions (s : State) (e : Event) :
  match e with
  | StartResolved l =>
      liveSessionRef (handle s e) = Some l ∧
      Spec.stopped_sessions (calls (handle s e))
        = Spec.stopped_sessions (calls s)
  | _ =>
      (liveSessionRef (handle s e) = liveSessionRef s ∧
       Spec.stopped_sessions (calls (handle s e))
         = Spec.stopped_sessions (calls s))
      ∨ (∃ l, liveSessionRef s = Some l ∧
              liveSessionRef (handle s e) = None ∧
              Spec.stopped_sessions (calls (handle s e))
                = Spec.stopped_sessions (calls s) ++ [l])
  end.
Proof.
  assert (Hsnoc : ∀ cs c,
            Spec.stopped_sessions (cs ++ [c])
            = Spec.stopped_sessions cs
                ++ match c with stopConversation l => [l] | _ => [] end).
  { intros cs c. unfold Spec.stopped_sessions. rewrite omap_app.
    by destruct c. }
  destruct e as [|l|err| |msg|a|files q i o turn|op]; cbn [handle].
  - unfold click. destruct (View.onClick (appState s)) as [[|]|].
    + left. unfold handleStart_begin. cbn. by rewrite Hsnoc, app_nil_r.
    + unfold handleStop. destruct (liveSessionRef s) as [l|] eqn:Hl.
      * right. exists l. cbn. by rewrite Hsnoc.
      * left. cbn. by rewrite Hl.
    + by left.
  - done.
  - left. unfold handleStart_rejected. cbn. by rewrite Hsnoc, app_nil_r.
  - by left.
  - unfold onerror, onError. cbn.
    destruct (liveSessionRef s) as [l|] eqn:Hl.
    + right. exists l. cbn. by rewrite !Hsnoc, app_nil_r.
    + left. cbn. by rewrite Hl, Hsnoc, app_nil_r.
  - left. unfold onClose. by case_decide.
  - left. by destruct (onMessage_frame files q i o turn s) as (_ & ? & _ & ?).
  - left. by destruct op as [[fs|]|n].
Qed.

Lemma handle_all_sessions_ok (es : list Event) (seen : list LiveSession)
    (s : State) :
  Spec.sessions_ok seen s →
  NoDup (seen ++ Spec.resolved_sessions es) →
  Spec.sessions_ok (seen ++ Spec.resolved_sessions es) (handle_all s es).
Proof.
  unfold handle_all. revert seen s.
  induction es as [|e es IH]; intros seen s Hs Hnd.
  - unfold Spec.resolved_sessions. cbn. by rewrite app_nil_r.
  - cbn [foldl]. destruct Hs as (Hn & Hsub & Href).
    pose proof (handle_sessions s e) as He.
    destruct e as [|l|err| |msg|a|files q i o turn|op];
      unfold Spec.resolved_sessions in *; cbn [omap list_omap] in *;
      fold Spec.resolved_sessions in *.
    2:{ destruct He as [Hl Hst].
        replace (seen ++ l :: omap _ es)
          with ((seen ++ [l]) ++ omap
                  (λ e, match e with StartResolved l => Some l | _ => None end)
                  es) by (by rewrite <-app_assoc).
        apply IH.
        - split_and!.
          + by rewrite Hst.
          + intros l' Hl'. rewrite Hst in Hl'. apply elem_of_app. left. auto.
          + intros l' Hl'. rewrite Hl in Hl'. injection Hl' as <-.
            split; [apply elem_of_app; right; by left|].
            rewrite Hst. intros Hin. apply Hsub in Hin.
            apply NoDup_app in Hnd as (_ & Hd & _).
            apply (Hd _ Hin). by left.
        - by rewrite <-app_assoc. }
    all: apply IH; [|done];
      destruct He as [[Hl Hst]|(l & Hl & Hl' & Hst)];
      [ split_and!; [by rewrite Hst | by rewrite Hst | by rewrite Hl, Hst]
      | destruct (Href l Hl) as [Hseen Hfresh];
        split_and!;
        [ rewrite Hst; apply NoDup_app; split_and!;
          [done | by intros x Hx ->%list_elem_of_singleton
          | apply NoDup_singleton]
        | rewrite Hst; intros x [Hx| ->%list_elem_of_singleton]%elem_of_app;
          auto
        | by rewrite Hl' ] ].
Qed.

(** X15. When the sessions handed to the component are pairwise distinct,
    then whatever the order of clicks, callbacks and messages, no session
    is stopped twice, only sessions that were handed to the component are
    stopped, and unmounting at the end stops nothing a second time. *)
Theorem sessions_are_stopped_at_most_once (es : list Event) :
  NoDup (Spec.resolved_sessions es) →
  let s := handle_all mounted es in
  NoDup (Spec.stopped_sessions (calls s)) ∧
  (∀ l, l ∈ Spec.stopped_sessions (calls s) → l ∈ Spec.resolved_sessions es) ∧
  (∀ l, liveSessionRef s = Some l → l ∈ Spec.resolved_sessions es) ∧
  NoDup (Spec.stopped_sessions (calls (unmount s))).
Proof.
  intros Hnd s.
  assert (H0 : Spec.sessions_ok [] mounted).
  { split_and!; [constructor | by intros l ?%elem_of_nil | done]. }
  destruct (handle_all_sessions_ok es [] mounted H0 Hnd) as (Hn & Hsub & Href).
  fold s in Hn, Hsub, Href. split_and!; try done.
  - intros l Hl. by apply Href.
  - unfold unmount. destruct (liveSessionRef s) as [l|] eqn:Hl; [|done].
    destruct (Href l eq_refl) as [_ Hfresh]. cbn [call calls].
    unfold Spec.stopped_sessions in *. rewrite omap_app. cbn.
    apply NoDup_app. split_and!; [done | | apply NoDup_singleton].
    by intros x Hx ->%list_elem_of_singleton.
Qed.

Lemma sessions_are_stopped_at_most_once_witness :
  let es := [Clicked; StartResolved (mkLiveSession 1); SdkOpened;
             SdkErrored "socket"; Clicked; Clicked;
             StartResolved (mkLiveSession 2); SdkOpened; Clicked] in
  NoDup (Spec.resolved_sessions es) ∧
  NoDup (Spec.stopped_sessions (calls (handle_all mounted es))).
Proof.
  intros es.
  assert (H : NoDup (Spec.resolved_sessions es)).
  { apply NoDup_cons. split; [|apply NoDup_singleton].
    intros [=]%list_elem_of_singleton. }
  split; [exact H|].
  exact (proj1 (sessions_are_stopped_at_most_once es H)).
Defined.

(** *** The controls and the status line *)

(** X16. The caption of the button says what a click does: it reads 'Stop
    Conversation' exactly when a click stops, 'Start Conversation' exactly
    when a click starts, and 'Connecting...' exactly when the button is
    disabled; the component follows: a click changes nothing while
    connecting, stops when connected and starts otherwise. *)
Theorem button_caption_matches_action (s : State) :
  (View.getButtonContent (appState s) = "Stop Conversation"
     ↔ View.onClick (appState s) = Some View.onStop) ∧
  (View.getButtonContent (appState s) = "Start Conversation"
     ↔ View.onClick (appState s) = Some View.onStart) ∧
  (View.getButtonContent (appState s) = "Connecting..."
     ↔ View.onClick (appState s) = None) ∧
  (View.hint (appState s) = "Listening..."
     ↔ View.onClick (appState s) = Some View.onStop) ∧
  click s
    = match View.onClick (appState s) with
      | Some View.onStop => handleStop s
      | Some View.onStart => handleStart_begin s
      | None => s
      end.
Proof.
  unfold click. destruct (appState s); cbn; split_and!; try done;
    split; intros [=].
Qed.

(** X17. The status line is missing exactly when nothing is being
    processed, the state is CONNECTED or ERROR and the transcript is not
    empty: the display always shows a status or at least one entry. *)
Theorem status_line_or_transcript (s : State) :
  (status_line s = None
     ↔ isProcessingFileQuery s = false ∧
       (appState s = CONNECTED ∨ appState s = ERROR) ∧
       transcriptionHistory s ≠ []) ∧
  (status_line s = None → transcriptionHistory s ≠ []).
Proof.
  assert (H : status_line s = None
              ↔ isProcessingFileQuery s = false ∧
                (appState s = CONNECTED ∨ appState s = ERROR) ∧
                transcriptionHistory s ≠ []).
  { unfold status_line, View.renderStatus.
    destruct (isProcessingFileQuery s), (appState s),
      (transcriptionHistory s) as [|e h]; cbn; split;
      try done; try (by intros (? & ? & ?)); try (by intros (_ & [?|?] & _));
      eauto. }
  split; [exact H|]. intros Hn. by apply H in Hn as (_ & _ & ?).
Qed.

(** *** More of the uploaded-files list *)

Lemma Map_set_keys_elem (k k' : string) (v : File) (m : list (string * File)) :
  k' ∈ (Map_set k v m).*1 ↔ k' ∈ m.*1 ∨ k' = k.
Proof.
  rewrite AppFacts.Map_set_keys. destruct (decide (k ∈ m.*1)) as [Hin|Hin].
  - split; [by left|]. by intros [?| ->].
  - by rewrite elem_of_app, list_elem_of_singleton.
Qed.

Lemma fold_keys_elem (fs : list File) (acc : list (string * File)) (k : string) :
  k ∈ (foldl (λ m file, Map_set (name file) file m) acc fs).*1
    ↔ k ∈ acc.*1 ∨ k ∈ name <$> fs.
Proof.
  revert acc. induction fs as [|f fs IH]; intros acc; cbn [foldl fmap list_fmap].
  - split; [by left|]. by intros [?|?%elem_of_nil].
  - rewrite IH, Map_set_keys_elem, elem_of_cons. tauto.
Qed.

Lemma Map_set_other (k : string) (v : File) (m : list (string * File))
    (e : string * File) :
  e ∈ m → e.1 ≠ k → e ∈ Map_set k v m.
Proof.
  induction m as [|[k' v'] m IH]; cbn [Map_set]; [by intros ?%elem_of_nil|].
  intros [->|Hin]%elem_of_cons Hne; cbn [fst] in *.
  - rewrite decide_False by done. by left.
  - destruct (decide (k' = k)); right; [done | by apply IH].
Qed.

Lemma Map_set_in (f : File) (m : list (string * File)) :
  Spec.keyed m → (name f, f) ∈ Map_set (name f) f m.
Proof.
  induction 1 as [|[k' v'] m Hk Hm IH]; cbn [Map_set]; [by left|].
  cbn [fst snd] in Hk. destruct (decide (k' = name f)) as [->|Hne].
  - by left.
  - by right.
Qed.

Lemma fold_other (fs : list File) (acc : list (string * File))
    (e : string * File) :
  e ∈ acc → e.1 ∉ name <$> fs →
  e ∈ foldl (λ m file, Map_set (name file) file m) acc fs.
Proof.
  revert acc. induction fs as [|f fs IH]; intros acc He Hne; [done|].
  cbn [foldl fmap list_fmap] in *. apply not_elem_of_cons in Hne as [Hne Hrest].
  apply IH; [|done]. by apply Map_set_other.
Qed.

Lemma fold_keyed (fs : list File) (acc : list (string * File)) :
  Spec.keyed acc →
  Spec.keyed (foldl (λ m file, Map_set (name file) file m) acc fs).
Proof.
  revert acc. induction fs as [|f fs IH]; intros acc Hk; [done|].
  cbn [foldl]. by apply IH, AppFacts.Map_set_keyed.
Qed.

Lemma fold_in (fs : list File) (acc : list (string * File)) (f : File) :
  Spec.keyed acc → NoDup (name <$> fs) → f ∈ fs →
  (name f, f) ∈ foldl (λ m file, Map_set (name file) file m) acc fs.
Proof.
  revert acc. induction fs as [|g fs IH]; intros acc Hk Hn Hf;
    [by apply elem_of_nil in Hf|].
  cbn [foldl fmap list_fmap] in *. apply NoDup_cons in Hn as [Hg Hn].
  apply elem_of_cons in Hf as [->|Hf].
  - apply fold_other; [by apply Map_set_in | done].
  - apply IH; [by apply AppFacts.Map_set_keyed | done | done].
Qed.

Lemma pairs_keyed (files : list File) :
  Spec.keyed ((λ file, (name file, file)) <$> files).
Proof.
  unfold Spec.keyed. apply list.Forall_forall.
  by intros e (f & -> & _)%list_elem_of_fmap.
Qed.

(** X18. After a selection the list holds exactly the names it held before
    and the selected names; every selected file is in it when the
    selection has no two files of one name, and so is every earlier file
    whose name is not selected again. *)
Theorem selection_merges (newFiles prevFiles : list File) :
  (∀ n, n ∈ name <$> merge_files newFiles prevFiles
          ↔ n ∈ name <$> prevFiles ∨ n ∈ name <$> newFiles) ∧
  (NoDup (name <$> newFiles) →
   ∀ f, f ∈ newFiles → f ∈ merge_files newFiles prevFiles) ∧
  (NoDup (name <$> prevFiles) →
   ∀ g, g ∈ prevFiles → name g ∉ name <$> newFiles →
        g ∈ merge_files newFiles prevFiles).
Proof.
  unfold merge_files, Map_new. rewrite AppFacts.Map_new_pairs.
  set (m0 := foldl (λ m file, Map_set (name file) file m) [] prevFiles).
  assert (Hk0 : Spec.keyed m0) by (apply fold_keyed; constructor).
  split_and!.
  - intros n. rewrite AppFacts.keyed_names by by apply fold_keyed.
    rewrite fold_keys_elem. subst m0. rewrite fold_keys_elem.
    split.
    + intros [[Hnil|?]|?]; auto. by apply elem_of_nil in Hnil.
    + intros [?|?]; auto.
  - intros Hn f Hf. unfold Map_values.
    apply (list_elem_of_fmap_2 snd _ (name f, f)). by apply fold_in.
  - intros Hn g Hg Hne. unfold Map_values.
    apply (list_elem_of_fmap_2 snd _ (name g, g)).
    apply fold_other; [|done]. subst m0.
    rewrite (AppFacts.Map_new_distinct prevFiles []) by exact Hn.
    apply (list_elem_of_fmap_2 (λ file, (name file, file)) _ g Hg).
Qed.

Lemma selection_merges_witness :
  let a := mkFile "a.txt" "text/plain" [1] in
  let b := mkFile "b.txt" "text/plain" [2] in
  let c := mkFile "c.txt" "text/plain" [3] in
  b ∈ merge_files [a; c] [b] ∧ c ∈ merge_files [a; c] [b].
Proof.
  intros a b c.
  destruct (selection_merges [a; c] [b]) as (_ & Hnew & Hprev).
  split.
  - apply Hprev.
    + apply NoDup_singleton.
    + by left.
    + intros [[=]|[[=]|?%elem_of_nil]%elem_of_cons]%elem_of_cons. done.
  - apply Hnew.
    + apply NoDup_cons. split; [|apply NoDup_singleton].
      intros [=]%list_elem_of_singleton.
    + right. by left.
Defined.

Lemma fold_keys_prefix (fs : list File) (acc : list (string * File)) :
  acc.*1 `prefix_of` (foldl (λ m file, Map_set (name file) file m) acc fs).*1.
Proof.
  revert acc. induction fs as [|f fs IH]; intros acc; [done|].
  cbn [foldl]. etrans; [|apply IH]. rewrite AppFacts.Map_set_keys.
  destruct (decide (name f ∈ acc.*1)); [done | by apply prefix_app_r].
Qed.

(** X19. A selection never reorders the list: when the names were distinct
    before, they are still there in the same order, in front of the names
    the selection adds. *)
Theorem selection_keeps_order (newFiles prevFiles : list File) :
  NoDup (name <$> prevFiles) →
  (name <$> prevFiles) `prefix_of` (name <$> merge_files newFiles prevFiles).
Proof.
  intros Hn. unfold merge_files, Map_new.
  rewrite AppFacts.Map_new_pairs,
    (AppFacts.Map_new_distinct prevFiles []) by exact Hn.
  cbn [app]. rewrite AppFacts.keyed_names by apply fold_keyed, pairs_keyed.
  rewrite <-(AppFacts.pairs_keys prevFiles) at 1. apply fold_keys_prefix.
Qed.

Lemma selection_keeps_order_witness :
  let a := mkFile "a.txt" "text/plain" [1] in
  let b := mkFile "b.txt" "text/plain" [2] in
  let b' := mkFile "b.txt" "text/plain" [3] in
  let c := mkFile "c.txt" "text/plain" [4] in
  ["a.txt"; "b.txt"] `prefix_of` (name <$> merge_files [c; b'] [a; b]).
Proof.
  intros a b b' c. apply (selection_keeps_order [c; b'] [a; b]).
  apply NoDup_cons. split; [|apply NoDup_singleton].
  intros [=]%list_elem_of_singleton.
Defined.

Lemma filter_other_names (fileName : string) (files : list File) :
  fileName ∉ name <$> files →
  filter (λ file, name file ≠ fileName) files = files.
Proof.
  induction files as [|f files IH]; [done|].
  cbn [fmap list_fmap]. intros [Hne Hrest]%not_elem_of_cons.
  rewrite filter_cons, decide_True by done. by rewrite IH.
Qed.

(** X20. Removing a name the list does not hold changes nothing, and
    selecting a file whose name is new puts it at the end, so that removing
    it again gives back the state from before the selection. *)
Theorem select_then_remove (f : File) (s : State) :
  NoDup (name <$> uploadedFiles s) →
  name f ∉ name <$> uploadedFiles s →
  handleRemoveFile (name f) s = s ∧
  uploadedFiles (handleFileChange (Some [f]) s) = uploadedFiles s ++ [f] ∧
  handleRemoveFile (name f) (handleFileChange (Some [f]) s) = s.
Proof.
  intros Hn Hf.
  assert (Hmerge : merge_files [f] (uploadedFiles s) = uploadedFiles s ++ [f]).
  { unfold merge_files, Map_new.
    rewrite AppFacts.Map_new_pairs,
      (AppFacts.Map_new_distinct (uploadedFiles s) []) by exact Hn.
    cbn [foldl app]. rewrite AppFacts.Map_set_fresh
      by (by rewrite AppFacts.pairs_keys).
    unfold Map_values. by rewrite fmap_app, AppFacts.pairs_values. }
  destruct s as [a h er files p l ci co cl].
  unfold handleRemoveFile, handleFileChange, setUploadedFiles.
  cbn [uploadedFiles appState transcriptionHistory error isProcessingFileQuery
       liveSessionRef currentInputTranscriptionRef
       currentOutputTranscriptionRef calls] in *.
  rewrite Hmerge, filter_app, (filter_other_names (name f) files Hf).
  rewrite filter_cons, decide_False by (by intros ?). by rewrite app_nil_r.
Qed.

Lemma select_then_remove_witness :
  let b := mkFile "b.txt" "text/plain" [2] in
  let s := handleFileChange (Some [mkFile "a.txt" "text/plain" [1]]) mounted in
  handleRemoveFile "b.txt" (handleFileChange (Some [b]) s) = s.
Proof.
  intros b s.
  destruct (select_then_remove b s) as (_ & _ & H).
  - apply NoDup_singleton.
  - intros [=]%list_elem_of_singleton.
  - exact H.
Defined.

(** *** The file question with the service behind it *)

Section FileQuestionExtras.
Variable decode : string → list Z.
Variable decodeAudioData : list Z → nat → Z → Z → AudioBuffer.

Local Abbreviation file_query := (file_query decode decodeAudioData).

(** X21. When the text answer arrives but the speech response carries no
    audio, the answer is still appended to the transcript, nothing is
    played, no audio context is touched, and the banner reads 'Error
    answering question about files: No audio data received from TTS
    API.'. *)
Theorem silent_answer_is_reported (files : list File) (textResponse : string)
    (response : Service.GenerateContentResponse) (w : Service.World)
    (i o : option string) (s : State) :
  (¬ ∃ b, Spec.carries_audio response b) →
  Js.trim (currentInputTranscriptionRef s +:+ default "" i) ≠ "" →
  files ≠ [] →
  let q := file_query (Service.Return textResponse) response w in
  let s' := onMessage files q.1 i o true s in
  q.2 = w ∧
  error s'
    = Some "Error answering question about files: No audio data received from TTS API." ∧
  transcriptionHistory s'
    = transcriptionHistory s
        ++ Spec.committed_entries
             (currentInputTranscriptionRef s +:+ default "" i)
             (currentOutputTranscriptionRef s +:+ default "" o)
        ++ [mkEntry gemini textResponse] ∧
  calls s'
    = calls s
        ++ [console_error "Error processing file query:"
              (mkError "No audio data received from TTS API.")] ∧
  isProcessingFileQuery s' = false.
Proof.
  intros Hno Hin Hfiles q s'.
  assert (Hq : q = (SpeechFails textResponse
                      (mkError "No audio data received from TTS API."), w)).
  { subst q. unfold App.file_query, Service.generateSpeech.
    destruct (Service.tts_base64Audio response) as [b|] eqn:Hb; [|done].
    destruct (Js.truthy_string b) eqn:Ht; [|done].
    destruct Hno. exists b. by apply ServiceFacts.tts_base64Audio_carries. }
  subst s'. rewrite Hq. cbn [fst snd]. unfold onMessage.
  pose proof (commit_outcome files
                (SpeechFails textResponse
                   (mkError "No audio data received from TTS API."))
                (accumulate i o s)) as H.
  cbn zeta in H. destruct H as (_ & _ & _ & H).
  destruct (accumulate_frame i o s) as (_ & _ & _ & _ & _ & Hc).
  rewrite AppFacts.accumulate_input, AppFacts.accumulate_output,
    AppFacts.accumulate_history, Hc, (asked_true files _ Hin Hfiles) in H.
  destruct H as (Hp & He & Hh & Hcalls). by split_and!.
Qed.

End FileQuestionExtras.

Lemma silent_answer_is_reported_witness :
  let response := Service.mkResponse (Some []) in
  let q := file_query Sample.decode Sample.decodeAudioData
             (Service.Return "answer") response (Service.mkWorld [] None) in
  error (onMessage [mkFile "a.txt" "text/plain" [1]] q.1
           (Some "what is it") None true mounted)
    = Some "Error answering question about files: No audio data received from TTS API.".
Proof.
  intros response q.
  destruct (silent_answer_is_reported Sample.decode Sample.decodeAudioData
              [mkFile "a.txt" "text/plain" [1]] "answer" response
              (Service.mkWorld [] None) (Some "what is it") None mounted)
    as (_ & H & _).
  - intros (b & c & cs & rc & p & ps & blob & Hc & _). discriminate.
  - vm_compute. discriminate.
  - discriminate.
  - exact H.
Defined.

End AppExtras.

(* ===================================================================== *)
(** ** Selecting again, and messages within a turn *)
(* ===================================================================== *)

Module ComponentExtras.
Import Types AudioUtils App.

(** *** Selecting the same files again *)

Lemma Map_set_absorb (k : string) (v v' : File) (m : list (string * File)) :
  Map_set k v (Map_set k v' m) = Map_set k v m.
Proof.
  induction m as [|[k0 v0] m IH]; cbn [Map_set].
  - by rewrite decide_True.
  - destruct (decide (k0 = k)) as [->|Hne]; cbn [Map_set].
    + by rewrite decide_True.
    + by rewrite decide_False, IH.
Qed.

Lemma Map_set_comm (k k' : string) (v v' : File) (m : list (string * File)) :
  k ≠ k' → k ∈ m.*1 → k' ∈ m.*1 →
  Map_set k v (Map_set k' v' m) = Map_set k' v' (Map_set k v m).
Proof.
  intros Hne. induction m as [|[k0 v0] m IH]; cbn [Map_set fmap list_fmap fst];
    [by intros ?%elem_of_nil|].
  intros Hk Hk'.
  destruct (decide (k0 = k')) as [H0'|H0'], (decide (k0 = k)) as [H0|H0];
    cbn [Map_set]; try congruence.
  - by rewrite decide_False, decide_True.
  - by rewrite decide_True, decide_False.
  - rewrite !decide_False by done. f_equal. apply IH.
    + apply elem_of_cons in Hk as [?|?]; [congruence | done].
    + apply elem_of_cons in Hk' as [?|?]; [congruence | done].
Qed.

Lemma Map_set_same (k : string) (v : File) (m : list (string * File)) :
  NoDup m.*1 → (k, v) ∈ m → Map_set k v m = m.
Proof.
  induction m as [|[k0 v0] m IH]; cbn [Map_set fmap list_fmap fst];
    [by intros _ ?%elem_of_nil|].
  intros [Hk0 Hn]%NoDup_cons Hin.
  destruct (decide (k0 = k)) as [->|Hne].
  - apply elem_of_cons in Hin as [[= ->]|Hin]; [done|].
    destruct Hk0. by apply (list_elem_of_fmap_2 fst _ (k, v)).
  - f_equal. apply IH; [done|].
    apply elem_of_cons in Hin as [[= ? ?]|Hin]; [congruence | done].
Qed.

Local Abbreviation set_all :=
  (foldl (λ (m : list (string * File)) file, Map_set (name file) file m)).

Lemma set_all_keys_incl (fs : list File) (m : list (string * File)) (k : string) :
  k ∈ m.*1 → k ∈ (set_all m fs).*1.
Proof. intros Hk. apply AppExtras.fold_keys_elem. by left. Qed.

(** A file set just before a selection that names it again is overwritten. *)
Lemma set_all_overwrites (fs : list File) (m : list (string * File)) (f : File) :
  name f ∈ name <$> fs →
  name f ∈ m.*1 → (∀ g, g ∈ fs → name g ∈ m.*1) →
  set_all (Map_set (name f) f m) fs = set_all m fs.
Proof.
  revert m. induction fs as [|g fs IH]; intros m Hf Hm Hfs;
    [by apply elem_of_nil in Hf|].
  cbn [foldl fmap list_fmap] in *.
  destruct (decide (name g = name f)) as [Heq|Hne].
  - by rewrite Heq, Map_set_absorb.
  - rewrite Map_set_comm; [|done| |done].
    + apply IH.
      * apply elem_of_cons in Hf as [?|?]; [congruence | done].
      * apply AppExtras.Map_set_keys_elem. by left.
      * intros h Hh. apply AppExtras.Map_set_keys_elem. left.
        apply Hfs. by right.
    + apply Hfs. by left.
Qed.

Lemma set_all_twice (fs : list File) (m : list (string * File)) :
  NoDup m.*1 → Spec.keyed m →
  set_all (set_all m fs) fs = set_all m fs.
Proof.
  revert m. induction fs as [|f fs IH]; intros m Hn Hk; [done|].
  cbn [foldl].
  set (M := Map_set (name f) f m).
  assert (HnM : NoDup M.*1) by by apply AppFacts.Map_set_NoDup.
  assert (HkM : Spec.keyed M) by by apply AppFacts.Map_set_keyed.
  assert (HfM : name f ∈ M.*1).
  { apply AppExtras.Map_set_keys_elem. by right. }
  set (N := set_all M fs).
  destruct (AppFacts.fold_Map_set_inv fs M HnM HkM) as [HnN HkN].
  fold N in HnN, HkN.
  transitivity (set_all N fs); [|by apply IH].
  destruct (decide (name f ∈ name <$> fs)) as [Hin|Hout].
  - apply set_all_overwrites; [done | by apply set_all_keys_incl |].
    intros g Hg. apply AppExtras.fold_keys_elem. right.
    by apply (list_elem_of_fmap_2 name _ g).
  - f_equal. apply Map_set_same; [done|].
    apply AppExtras.fold_other; [by apply AppExtras.Map_set_in | done].
Qed.

Lemma pairs_values_keyed (m : list (string * File)) :
  Spec.keyed m → (λ file, (name file, file)) <$> Map_values m = m.
Proof.
  unfold Spec.keyed, Map_values.
  induction 1 as [|[k v] m Hk Hm IH]; [done|].
  cbn [fmap list_fmap fst snd] in *. by rewrite IH, Hk.
Qed.

(** X23. Selecting the same files a second time changes nothing: the list
    after the second selection is the list after the first, entry for entry
    and in the same order. *)
Theorem selecting_again_changes_nothing (files : list File) (s : State) :
  handleFileChange (Some files) (handleFileChange (Some files) s)
    = handleFileChange (Some files) s.
Proof.
  assert (H : ∀ prev,
            merge_files files (merge_files files prev) = merge_files files prev).
  { intros prev. unfold merge_files at 1 3. unfold Map_new.
    rewrite !AppFacts.Map_new_pairs.
    set (m0 := set_all [] prev).
    destruct (AppFacts.fold_Map_set_inv prev []) as [Hn0 Hk0];
      [constructor | constructor |]. fold m0 in Hn0, Hk0.
    destruct (AppFacts.fold_Map_set_inv files m0 Hn0 Hk0) as [Hn1 Hk1].
    unfold merge_files, Map_new. rewrite AppFacts.Map_new_pairs. fold m0.
    set (m1 := set_all m0 files) in *.
    rewrite (AppFacts.Map_new_distinct (Map_values m1) [])
      by (cbn [fmap list_fmap app]; by rewrite AppFacts.keyed_names).
    cbn [app]. rewrite pairs_values_keyed by done.
    subst m1. by rewrite set_all_twice. }
  destruct s as [a h er fs p l ci co cl].
  unfold handleFileChange, setUploadedFiles. cbn. by rewrite H.
Qed.

(** *** Messages within a turn *)

Section WithinTurn.
Variable decode : string → list Z.
Variable decodeAudioData : list Z → nat → Z → Z → AudioBuffer.

Local Abbreviation deliver := (deliver decode decodeAudioData).
Local Abbreviation deliver_all := (deliver_all decode decodeAudioData).

(** X24. Until a message completes the turn nothing reaches the screen:
    over messages none of which has [turnComplete], the transcript, the
    banner, the state, the files, the processing flag, the stored session
    and the calls made are what they were; only the accumulators move. *)
Theorem within_a_turn_nothing_is_committed (uploadedFiles0 : list File)
    (ms : list (Q * Service.LiveServerMessage * FileQuery))
    (cs : Service.Conversation * State) :
  Forall (λ m, Service.isTurnComplete_of m.1.2 = false) ms →
  let s' := (deliver_all uploadedFiles0 cs ms).2 in
  transcriptionHistory s' = transcriptionHistory cs.2 ∧
  error s' = error cs.2 ∧
  appState s' = appState cs.2 ∧
  uploadedFiles s' = uploadedFiles cs.2 ∧
  isProcessingFileQuery s' = isProcessingFileQuery cs.2 ∧
  liveSessionRef s' = liveSessionRef cs.2 ∧
  calls s' = calls cs.2 ∧
  status_line s' = status_line cs.2.
Proof.
  intros Hms. cbn zeta.
  enough (H : transcriptionHistory (deliver_all uploadedFiles0 cs ms).2
                = transcriptionHistory cs.2 ∧
              error (deliver_all uploadedFiles0 cs ms).2 = error cs.2 ∧
              appState (deliver_all uploadedFiles0 cs ms).2 = appState cs.2 ∧
              uploadedFiles (deliver_all uploadedFiles0 cs ms).2
                = uploadedFiles cs.2 ∧
              isProcessingFileQuery (deliver_all uploadedFiles0 cs ms).2
                = isProcessingFileQuery cs.2 ∧
              liveSessionRef (deliver_all uploadedFiles0 cs ms).2
                = liveSessionRef cs.2 ∧
              calls (deliver_all uploadedFiles0 cs ms).2 = calls cs.2).
  { destruct H as (Hh & He & Ha & Hu & Hp & Hl & Hc). split_and!; try done.
    unfold status_line. by rewrite Hh, Ha, Hp. }
  unfold App.deliver_all. revert cs.
  induction Hms as [|m ms Hm Hms IH]; intros cs; [done|].
  cbn [foldl]. destruct (IH (deliver uploadedFiles0 cs m))
    as (Hh & He & Ha & Hu & Hp & Hl & Hc).
  rewrite Hh, He, Ha, Hu, Hp, Hl, Hc.
  destruct m as [[t message] query]. cbn [fst snd] in Hm.
  unfold App.deliver, Service.onmessage. cbn [fst snd]. rewrite Hm.
  unfold onMessage.
  destruct (AppExtras.accumulate_frame (Service.inputTranscript_of message)
              (Service.outputTranscript_of message) cs.2)
    as (? & ? & ? & ? & ? & ?).
  by rewrite AppFacts.accumulate_history.
Qed.

End WithinTurn.

Lemma within_a_turn_nothing_is_committed_witness :
  let ms := [(0%Q, Sample.message None false false (Some "hel") None,
              ContentFails (mkError ""));
             (0%Q, Sample.message None false false (Some "lo") (Some "!"),
              ContentFails (mkError ""))] in
  transcriptionHistory
    (deliver_all Sample.decode Sample.decodeAudioData []
       (Service.initial 0, mounted) ms).2 = [].
Proof.
  intros ms.
  assert (Hms : Forall (λ m, Service.isTurnComplete_of m.1.2 = false) ms).
  { repeat constructor. }
  exact (proj1 (within_a_turn_nothing_is_committed Sample.decode
                  Sample.decodeAudioData [] ms (Service.initial 0, mounted)
                  Hms)).
Defined.

(** *** Sessions that are no longer referenced *)

Lemma handle_unreferenced (l : LiveSession) (s : State) (e : Event) :
  liveSessionRef s ≠ Some l →
  e ≠ StartResolved l →
  liveSessionRef (handle s e) ≠ Some l ∧
  (l ∈ Spec.stopped_sessions (calls (handle s e)) →
   l ∈ Spec.stopped_sessions (calls s)).
Proof.
  intros Hl He. pose proof (AppExtras.handle_sessions s e) as H.
  destruct e as [|l'|err| |msg|a|files q i o turn|op].
  2:{ destruct H as [Hr Hs]. rewrite Hr, Hs. split; [|done].
      intros [= ->]. by destruct He. }
  all: destruct H as [[Hr Hs]|(l' & Hl' & Hr & Hs)];
    [ by rewrite Hr, Hs
    | rewrite Hr, Hs; split; [done|];
      intros [?| ->%list_elem_of_singleton]%elem_of_app; [done|];
      by destruct Hl ].
Qed.

(** X25. The component only ever stops the session it currently refers
    to: a session it does not refer to, and that is not handed to it again,
    is never stopped by anything that follows, the unmount cleanup
    included. A session whose reference was overwritten by a later start
    therefore stays open. *)
Theorem unreferenced_session_is_never_stopped (l : LiveSession) (s : State)
    (es : list Event) :
  liveSessionRef s ≠ Some l →
  l ∉ Spec.resolved_sessions es →
  l ∈ Spec.stopped_sessions (calls (unmount (handle_all s es))) →
  l ∈ Spec.stopped_sessions (calls s).
Proof.
  unfold handle_all. revert s.
  induction es as [|e es IH]; intros s Hl Hes; cbn [foldl].
  - unfold unmount. destruct (liveSessionRef s) as [l'|] eqn:Hl'; [|done].
    cbn [call calls]. unfold Spec.stopped_sessions. rewrite omap_app. cbn.
    intros [?|Hin%list_elem_of_singleton]%elem_of_app; [done|].
    subst l'. by destruct Hl.
  - assert (He : e ≠ StartResolved l).
    { intros ->. apply Hes. unfold Spec.resolved_sessions. cbn. by left. }
    destruct (handle_unreferenced l s e Hl He) as [Hl' Hstop].
    intros Hin. apply Hstop. apply IH; [done | | done].
    intros Hr. apply Hes. unfold Spec.resolved_sessions in *.
    cbn [omap list_omap]. destruct e; try done. by right.
Qed.

Lemma unreferenced_session_is_never_stopped_witness :
  let s := handleStart_resolved (mkLiveSession 2)
             (handleStart_resolved (mkLiveSession 1)
                (click (onerror "socket" (click mounted)))) in
  mkLiveSession 1
    ∉ Spec.stopped_sessions
        (calls (unmount (handle_all s [Clicked; SdkErrored "late"; Clicked]))).
Proof.
  intros s Hin.
  apply (unreferenced_session_is_never_stopped (mkLiveSession 1) s
           [Clicked; SdkErrored "late"; Clicked]) in Hin.
  - vm_compute in Hin. by apply elem_of_nil in Hin.
  - discriminate.
  - intros Hr. vm_compute in Hr. by apply elem_of_nil in Hr.
Defined.

End ComponentExtras.

(* ===================================================================== *)
(** ** Facts about doubles *)
(* ===================================================================== *)

Module DoubleFacts.
Import FloatClass PrimFloat FloatOps FloatAxioms SpecFloat Double.

Example Math_max_samples :
  Math_max 0 (-0) = 0%float ∧ Math_max (-0) 0 = 0%float ∧
  Math_max (-0) (-0) = (-0)%float ∧ Math_max 1 nan = nan ∧
  Math_max neg_infinity 3 = 3%float ∧ Math_max 2 1 = 2%float.
Proof. by vm_compute. Qed.

Example ratio_samples :
  ratio 16800 24000 = ratio 7 10 ∧ Qred (exact (ratio 1 2)) = (1 # 2)%Q.
Proof. by vm_compute. Qed.

Lemma SFcompare_antisym (x y : spec_float) (c : comparison) :
  SFcompare x y = Some c → SFcompare y x = Some (CompOpp c).
Proof.
  destruct x as [sx|sx| |sx mx ex], y as [sy|sy| |sy my ey]; simpl;
    try discriminate; intros [= <-]; try (by destruct sx); try (by destruct sy);
    try (by destruct sx, sy).
  assert (Hm : PosDef.Pos.compare_cont Eq my mx
               = CompOpp (PosDef.Pos.compare_cont Eq mx my)).
  { symmetry. exact (Pos.compare_cont_antisym mx my Eq). }
  rewrite (Z.compare_antisym ex ey), Hm.
  destruct sx, sy; simpl; try done;
    destruct (ex ?= ey); simpl; try done;
    by rewrite ?CompOpp_involutive.
Qed.

Lemma not_nan_compare (a : float) :
  is_nan a = false → SFcompare (Prim2SF a) (Prim2SF a) = Some Eq.
Proof.
  unfold is_nan. rewrite negb_false_iff, FloatAxioms.eqb_spec. unfold SFeqb.
  by destruct (SFcompare (Prim2SF a) (Prim2SF a)) as [[]|].
Qed.

Lemma SFcompare_defined (x y : spec_float) :
  SFcompare x x = Some Eq → SFcompare y y = Some Eq →
  ∃ c, SFcompare x y = Some c.
Proof. destruct x, y; simpl; try discriminate; eauto. Qed.

Lemma SFcompare_diag (x : spec_float) :
  x ≠ S754_nan → SFcompare x x = Some Eq.
Proof.
  intros Hx. destruct x as [sx|sx| |sx mx ex]; simpl; try done;
    try (by destruct sx).
  assert (Hm : PosDef.Pos.compare_cont Eq mx mx = Eq).
  { exact (Pos.compare_cont_refl mx Eq). }
  rewrite Z.compare_refl, Hm. by destruct sx.
Qed.

Lemma is_nan_spec (a : float) :
  is_nan a = false ↔ Prim2SF a ≠ S754_nan.
Proof.
  unfold is_nan. rewrite negb_false_iff, FloatAxioms.eqb_spec. unfold SFeqb.
  split.
  - intros H Hn. by rewrite Hn in H.
  - intros Hx. by rewrite (SFcompare_diag _ Hx).
Qed.

Lemma leb_not_nan (a b : float) :
  (a <=? b)%float = true → is_nan b = false.
Proof.
  rewrite leb_spec. unfold SFleb. intros H. apply is_nan_spec. intros Hb.
  rewrite Hb in H. by destruct (Prim2SF a).
Qed.

Lemma is_finite_spec (a : float) :
  is_finite a = true →
  (∃ s, Prim2SF a = S754_zero s) ∨ (∃ s m e, Prim2SF a = S754_finite s m e).
Proof.
  unfold is_finite. rewrite classify_spec. unfold SF64classify, SFclassify.
  destruct (Prim2SF a) as [s|[]| |s m e]; try done; eauto.
Qed.

Lemma is_finite_not_nan (a : float) : is_finite a = true → is_nan a = false.
Proof.
  intros [[s H]|(s & m & e & H)]%is_finite_spec; apply is_nan_spec;
    by rewrite H.
Qed.

(** *** A sum of numbers is NaN only by way of NaN or the infinities *)

Lemma shr_1_nonneg (mrs : shr_record) :
  0 <= shr_m mrs → 0 <= shr_m (shr_1 mrs).
Proof.
  destruct mrs as [m r s]. cbn [shr_m shr_1].
  destruct m as [|[p|p|]|p]; cbn [shr_m]; lia.
Qed.

Lemma iter_pos_shr_1_nonneg (p : positive) (mrs : shr_record) :
  0 <= shr_m mrs → 0 <= shr_m (iter_pos shr_1 p mrs).
Proof.
  revert mrs. induction p as [p IH|p IH|]; intros mrs Hm; cbn [iter_pos].
  - by apply IH, IH, shr_1_nonneg.
  - by apply IH, IH.
  - by apply shr_1_nonneg.
Qed.

Lemma shr_fexp_nonneg (prec emax m e : Z) (l : location) :
  0 <= m → 0 <= shr_m (shr_fexp prec emax m e l).1.
Proof.
  intros Hm. unfold shr_fexp, shr.
  assert (H : 0 <= shr_m (shr_record_of_loc m l)).
  { by destruct l as [|[]]. }
  destruct (fexp prec emax (Zdigits2 m + e) - e); cbn [fst]; try done.
  by apply iter_pos_shr_1_nonneg.
Qed.

Lemma round_nearest_even_nonneg (m : Z) (l : location) :
  0 <= m → 0 <= round_nearest_even m l.
Proof.
  intros Hm. destruct l as [|[]]; cbn [round_nearest_even]; try lia.
  destruct (Z.even m); lia.
Qed.

Lemma binary_round_aux_not_nan (prec emax : Z) (sx : bool) (mx ex : Z)
    (lx : location) :
  0 <= mx → binary_round_aux prec emax sx mx ex lx ≠ S754_nan.
Proof.
  intros Hm. unfold binary_round_aux.
  pose proof (shr_fexp_nonneg prec emax mx ex lx Hm) as H1.
  destruct (shr_fexp prec emax mx ex lx) as [mrs' e']. cbn [fst] in H1.
  pose proof (shr_fexp_nonneg prec emax
                (round_nearest_even (shr_m mrs') (loc_of_shr_record mrs')) e'
                loc_Exact (round_nearest_even_nonneg _ _ H1)) as H2.
  destruct (shr_fexp prec emax
              (round_nearest_even (shr_m mrs') (loc_of_shr_record mrs')) e'
              loc_Exact) as [mrs'' e'']. cbn [fst] in H2.
  destruct (shr_m mrs'') as [|p|p]; [done| |lia].
  by destruct (e'' <=? emax - prec).
Qed.

Lemma binary_normalize_not_nan (prec emax m e : Z) (szero : bool) :
  binary_normalize prec emax m e szero ≠ S754_nan.
Proof.
  unfold binary_normalize, binary_round.
  destruct m as [|p|p]; [done| |];
    destruct (shl_align p e (fexp prec emax (Z.pos (digits2_pos p) + e)));
    by apply binary_round_aux_not_nan.
Qed.

Lemma SFadd_not_nan (prec emax : Z) (x y : spec_float) :
  x ≠ S754_nan →
  (∃ s, y = S754_zero s) ∨ (∃ s m e, y = S754_finite s m e) →
  SFadd prec emax x y ≠ S754_nan.
Proof.
  intros Hx [[sy ->]|(sy & my & ey & ->)];
    destruct x as [sx|sx| |sx mx ex]; cbn [SFadd]; try done;
    try (by destruct sx, sy).
  apply binary_normalize_not_nan.
Qed.

Lemma add_not_nan (a b : float) :
  is_nan a = false → is_finite b = true → is_nan (a + b) = false.
Proof.
  intros Ha%is_nan_spec Hb%is_finite_spec.
  apply is_nan_spec. rewrite add_spec. by apply SFadd_not_nan.
Qed.

(** *** The order of numbers and [Math.max] *)

Lemma leb_refl (a : float) : is_nan a = false → (a <=? a)%float = true.
Proof.
  intros Ha. rewrite leb_spec. unfold SFleb. by rewrite (not_nan_compare a Ha).
Qed.

Lemma eqb_refl (a : float) : is_nan a = false → (a =? a)%float = true.
Proof. unfold is_nan. by rewrite negb_false_iff. Qed.

Lemma ltb_leb (a b : float) : (a <? b)%float = true → (a <=? b)%float = true.
Proof.
  rewrite ltb_spec, leb_spec. unfold SFltb, SFleb.
  by destruct (SFcompare (Prim2SF a) (Prim2SF b)) as [[]|].
Qed.

Lemma not_ltb_leb (a b : float) :
  is_nan a = false → is_nan b = false →
  (a <? b)%float = false → (b <=? a)%float = true.
Proof.
  intros Ha%not_nan_compare Hb%not_nan_compare.
  rewrite ltb_spec, leb_spec. unfold SFltb, SFleb.
  destruct (SFcompare_defined _ _ Ha Hb) as [c Hc].
  rewrite Hc, (SFcompare_antisym _ _ _ Hc). by destruct c.
Qed.

Lemma leb_not_ltb (a b : float) :
  (a <=? b)%float = true → (b <? a)%float = false.
Proof.
  rewrite ltb_spec, leb_spec. unfold SFltb, SFleb.
  destruct (SFcompare (Prim2SF a) (Prim2SF b)) as [c|] eqn:Hc; [|done].
  rewrite (SFcompare_antisym _ _ _ Hc). by destruct c.
Qed.

Lemma leb_not_ltb_eqb (a b : float) :
  (a <=? b)%float = true → (a <? b)%float = false → (a =? b)%float = true.
Proof.
  rewrite ltb_spec, leb_spec, FloatAxioms.eqb_spec. unfold SFltb, SFleb, SFeqb.
  by destruct (SFcompare (Prim2SF a) (Prim2SF b)) as [[]|].
Qed.

Lemma is_negative_zero_spec (a : float) :
  is_negative_zero a = true → Prim2SF a = S754_zero true.
Proof.
  unfold is_negative_zero. rewrite classify_spec.
  unfold SF64classify, SFclassify.
  destruct (Prim2SF a) as [[]|[]| |[] m e]; try done;
    by destruct (Z.pos (digits2_pos m) =? prec).
Qed.

Lemma is_positive_zero_spec (a : float) :
  is_positive_zero a = true → Prim2SF a = S754_zero false.
Proof.
  unfold is_positive_zero. rewrite classify_spec.
  unfold SF64classify, SFclassify.
  destruct (Prim2SF a) as [[]|[]| |[] m e]; try done;
    by destruct (Z.pos (digits2_pos m) =? prec).
Qed.

(** [Math.max] is not below its first argument. *)
Lemma Math_max_l (a b : float) :
  is_nan a = false → is_nan b = false → (a <=? Math_max a b)%float = true.
Proof.
  intros Ha Hb. unfold Math_max. rewrite Ha, Hb. cbn [orb].
  destruct (is_negative_zero a && is_positive_zero b) eqn:Hz.
  - apply andb_true_iff in Hz as [Hn Hp].
    by rewrite leb_spec, (is_negative_zero_spec a Hn),
      (is_positive_zero_spec b Hp).
  - destruct (a <? b)%float eqn:Hlt; [by apply ltb_leb | by apply leb_refl].
Qed.

(** Nor below its second. *)
Lemma Math_max_r (a b : float) :
  is_nan a = false → is_nan b = false → (b <=? Math_max a b)%float = true.
Proof.
  intros Ha Hb. unfold Math_max. rewrite Ha, Hb. cbn [orb].
  destruct (is_negative_zero a && is_positive_zero b); [by apply leb_refl|].
  destruct (a <? b)%float eqn:Hlt; [by apply leb_refl | by apply not_ltb_leb].
Qed.

(** While [b] has not passed [a] the maximum is [a], as a number: of the
    two zeros it is the positive one. *)
Lemma Math_max_pending (a b : float) :
  is_nan a = false → is_nan b = false →
  (b <=? a)%float = true → (Math_max a b =? a)%float = true.
Proof.
  intros Ha Hb Hle. unfold Math_max. rewrite Ha, Hb. cbn [orb].
  destruct (is_negative_zero a && is_positive_zero b) eqn:Hz.
  - apply andb_true_iff in Hz as [Hn Hp].
    by rewrite FloatAxioms.eqb_spec, (is_negative_zero_spec a Hn),
      (is_positive_zero_spec b Hp).
  - rewrite (leb_not_ltb _ _ Hle). by apply eqb_refl.
Qed.

Lemma Math_max_nan (a b : float) :
  is_nan (Math_max a b) = is_nan a || is_nan b.
Proof.
  unfold Math_max.
  destruct (is_nan a) eqn:Ha, (is_nan b) eqn:Hb; cbn [orb]; try done.
  destruct (is_negative_zero a && is_positive_zero b); [done|].
  by destruct (a <? b)%float.
Qed.

(** From a schedule reset to 0, the maximum is the clock. *)
Lemma Math_max_zero (t : float) :
  (0 <=? t)%float = true → (Math_max 0 t =? t)%float = true.
Proof.
  intros Hle. pose proof (leb_not_nan _ _ Hle) as Ht.
  unfold Math_max. rewrite Ht.
  change (is_nan 0) with false. change (is_negative_zero 0) with false.
  cbn [orb andb].
  destruct (0 <? t)%float eqn:Hlt; [by apply eqb_refl|].
  by apply leb_not_ltb_eqb.
Qed.

End DoubleFacts.

(* ===================================================================== *)
(** ** Facts about the message handler on what arrives *)
(* ===================================================================== *)

Module SessionFacts.
Import PrimFloat Double Session.

Example rounded_sums :
  (ratio 1 10 + ratio 7 10 = 0x1.9999999999999p-1)%float ∧
  (ratio 1 10 + ratio 2 10 = 0x1.3333333333334p-2)%float.
Proof. by vm_compute. Qed.

Lemma stop_all_stops (tracked : list nat) (ns : list AudioBufferSourceNode)
    (i : nat) :
  stop_all tracked ns !! i
    = if decide (i ∈ tracked) then stop <$> ns !! i else ns !! i.
Proof.
  unfold stop_all. revert ns.
  induction tracked as [|a tracked IH]; intros ns; cbn [foldl].
  - destruct (decide (i ∈ [])) as [Hin|]; [|done]. by apply elem_of_nil in Hin.
  - rewrite IH, list_lookup_alter.
    destruct (decide (a = i)) as [->|Hne].
    + rewrite (decide_True (P := i ∈ i :: tracked)) by left.
      destruct (decide (i ∈ tracked)); [|done].
      by destruct (ns !! i).
    + destruct (decide (i ∈ tracked)) as [Hin|Hin].
      * rewrite (decide_True (P := i ∈ a :: tracked)); [done|by right].
      * rewrite (decide_False (P := i ∈ a :: tracked)); [done|].
        intros [->|?]%elem_of_cons; done.
Qed.

Lemma without_parts_throws (m : LiveServerMessage) :
  Stated.without_parts m ↔ base64Audio_of m = Service.Throw "TypeError".
Proof.
  unfold Stated.without_parts, base64Audio_of.
  destruct (serverContent m ?. modelTurn) as [turn|].
  - destruct (parts turn) as [ps|] eqn:Hps.
    + split; [|done]. intros (turn' & [= <-] & Hnone). congruence.
    + split; [done|]. eauto.
  - split; [|done]. by intros (turn' & [=] & _).
Qed.

Lemma with_parts_returns (m : LiveServerMessage) :
  ¬ Stated.without_parts m → ∃ a, base64Audio_of m = Service.Return a.
Proof.
  intros Hm. destruct (base64Audio_of m) as [a|e] eqn:Ha; [eauto|].
  exfalso. apply Hm, without_parts_throws. rewrite Ha.
  unfold base64Audio_of in Ha.
  destruct (serverContent m ?. modelTurn) as [turn|]; [|done].
  destruct (parts turn); [done|]. by injection Ha as <-.
Qed.

Section PlaybackFacts.
Variable decode : string → list Z.
Variable decodeAudioData : list Z → nat → Z → Z → AudioBuffer.

Local Abbreviation schedule := (schedule decode decodeAudioData).
Local Abbreviation onmessage := (onmessage decode decodeAudioData).
Local Abbreviation step := (step decode decodeAudioData).
Local Abbreviation run := (run decode decodeAudioData).
Local Abbreviation chunk_of := (Stated.chunk_of decode decodeAudioData).
Local Abbreviation audio_chunks := (Stated.audio_chunks decode decodeAudioData).

Lemma step_keeps_context (c : Conversation) (e : Event) :
  localOutputAudioContext (step c e) = localOutputAudioContext c.
Proof.
  destruct e as [t m|s]; [|done]. unfold Session.step, Session.onmessage.
  destruct (base64Audio_of m) as [[a|]|]; [destruct (Js.truthy_string a)| |];
    cbn [fst]; try done; by destruct (is_interrupted m).
Qed.

Lemma step_chunk (c : Conversation) (e : Event) (t : float) (b : AudioBuffer) :
  Stated.no_interruption e = true →
  chunk_of (localOutputAudioContext c) e = Some (t, b) →
  nodes (step c e)
    = nodes c ++ [mkSource b (Math_max (nextStartTime c) t) false] ∧
  nextStartTime (step c e)
    = (Math_max (nextStartTime c) t + duration b)%float.
Proof.
  destruct e as [t' m|s]; simpl; [|done].
  intros Hni Hch. apply negb_true_iff in Hni.
  unfold Session.onmessage. rewrite Hni.
  destruct (base64Audio_of m) as [[a|]|]; [|done|done].
  destruct (Js.truthy_string a); [|done].
  by injection Hch as <- <-.
Qed.

Lemma step_no_chunk (c : Conversation) (e : Event) :
  Stated.no_interruption e = true →
  chunk_of (localOutputAudioContext c) e = None →
  nodes (step c e) = nodes c ∧ nextStartTime (step c e) = nextStartTime c.
Proof.
  destruct e as [t' m|s]; simpl; [|done].
  intros Hni Hch. apply negb_true_iff in Hni.
  unfold Session.onmessage. rewrite Hni.
  destruct (base64Audio_of m) as [[a|]|]; [|done|done].
  by destruct (Js.truthy_string a).
Qed.

Lemma starts_in_order (nextStartTime : float)
    (chunks : list (float * AudioBuffer))
    (started : list AudioBufferSourceNode) :
  is_nan nextStartTime = false → Stated.finite_chunks chunks →
  Stated.starts_at_max nextStartTime chunks started →
  Stated.in_order nextStartTime chunks started ∧
  is_nan (Stated.schedule_end nextStartTime chunks) = false.
Proof.
  intros Hnan Hfin. revert nextStartTime started Hnan.
  induction Hfin as [|[t b] chunks [Ht Hd] Hfin IH];
    intros nextStartTime [|n started] Hnan Hs; try done.
  cbn [Stated.starts_at_max Stated.in_order Stated.schedule_end fst snd] in *.
  destruct Hs as (_ & _ & Hw & Hs). rewrite Hw in *.
  pose proof (DoubleFacts.is_finite_not_nan t Ht) as Htnan.
  assert (Hnext : is_nan (Math_max nextStartTime t + duration b) = false).
  { apply DoubleFacts.add_not_nan; [|done].
    by rewrite DoubleFacts.Math_max_nan, Hnan, Htnan. }
  destruct (IH _ _ Hnext Hs) as [Ho He].
  split; [|done]. split_and!; try done.
  - by apply DoubleFacts.Math_max_l.
  - by apply DoubleFacts.Math_max_r.
  - by apply DoubleFacts.Math_max_pending.
Qed.

(** C1, as amended. Over any sequence of messages without an interruption
    signal (and of sources ending in between), the sources created are
    exactly those of the audio chunks, in order. Each is started at
    [Math.max(nextStartTime, currentTime)], and [nextStartTime] then
    becomes the double sum of that start and the buffer's duration, which
    is the exact end of the buffer only up to rounding. With finite clock
    readings and durations no chunk starts before the [nextStartTime] the
    previous chunk left, nor before the clock, and each starts at that
    [nextStartTime] while the clock has not passed it. *)
Theorem chunks_follow_the_rounded_schedule (c : Conversation)
    (es : list Event) :
  Forall (λ e, Stated.no_interruption e = true) es →
  let chunks := audio_chunks (localOutputAudioContext c) es in
  ∃ started,
    nodes (run c es) = nodes c ++ started ∧
    Stated.starts_at_max (nextStartTime c) chunks started ∧
    nextStartTime (run c es) = Stated.schedule_end (nextStartTime c) chunks ∧
    (is_nan (nextStartTime c) = false → Stated.finite_chunks chunks →
     Stated.in_order (nextStartTime c) chunks started ∧
     is_nan (nextStartTime (run c es)) = false).
Proof.
  intros Hes chunks.
  assert (H : ∃ started,
            nodes (run c es) = nodes c ++ started ∧
            Stated.starts_at_max (nextStartTime c) chunks started ∧
            nextStartTime (run c es)
              = Stated.schedule_end (nextStartTime c) chunks).
  { subst chunks. revert c.
    induction Hes as [|e es He Hes IH]; intros c.
    - exists []. by rewrite app_nil_r.
    - unfold Session.run in *. simpl foldl.
      unfold Stated.audio_chunks in *. simpl omap.
      destruct (IH (step c e)) as (started & Hn & Hb & Ht).
      rewrite step_keeps_context in Hb, Ht.
      destruct (chunk_of (localOutputAudioContext c) e) as [[t b]|] eqn:Hch.
      + destruct (step_chunk c e t b He Hch) as [Hn1 Ht1].
        exists (mkSource b (Math_max (nextStartTime c) t) false :: started).
        rewrite Hn, Hn1, Ht, Ht1, <-app_assoc. simpl.
        by rewrite Ht1 in Hb.
      + destruct (step_no_chunk c e He Hch) as [Hn1 Ht1].
        exists started. rewrite Hn, Hn1, Ht, Ht1. by rewrite Ht1 in Hb. }
  destruct H as (started & Hn & Hs & Ht). exists started.
  split; [done|]. split; [done|]. split; [done|].
  intros Hnan Hfin. rewrite Ht. by apply starts_in_order.
Qed.

Lemma interrupted_resets (t : float) (m : LiveServerMessage)
    (c : Conversation) :
  is_interrupted m = true → ¬ Stated.without_parts m →
  sources (step c (Message t m)) = ∅ ∧
  nextStartTime (step c (Message t m)) = 0%float ∧
  localOutputAudioContext (step c (Message t m)) = localOutputAudioContext c.
Proof.
  intros Hint [a Ha]%with_parts_returns.
  unfold Session.step, Session.onmessage. rewrite Ha, Hint. cbn [fst].
  by destruct a as [a|]; [destruct (Js.truthy_string a)|].
Qed.

(** C2, a defect of the handler. A message with the interruption signal
    whose model turn has no [parts] makes the handler throw in its first
    statement: nothing is stopped, the set of sources and [nextStartTime]
    stay as they were. On every other message with the signal the handler
    ends with no tracked source and [nextStartTime] 0, and every source
    tracked when the signal is seen has been stopped: those tracked before
    the message and the one created from audio in the same message.
    Sources that were not tracked are left as they were. *)
Theorem interruption_stops_everything_unless_it_throws (t : float)
    (m : LiveServerMessage) (c : Conversation) :
  is_interrupted m = true →
  (Stated.without_parts m →
   onmessage t m c = Service.Throw "TypeError" ∧ step c (Message t m) = c) ∧
  (¬ Stated.without_parts m →
   ∃ c' args,
     onmessage t m c = Service.Return (c', args) ∧
     step c (Message t m) = c' ∧
     sources c' = ∅ ∧
     nextStartTime c' = 0%float ∧
     (∀ s n, s ∈ sources c → nodes c !! s = Some n →
             nodes c' !! s = Some (stop n)) ∧
     (∀ b, base64Audio_of m = Service.Return (Some b) →
           Js.truthy_string b = true →
           nodes c' !! length (nodes c)
             = Some {| buffer := decodeAudioData (decode b)
                                   (localOutputAudioContext c) 24000 1;
                       when := Math_max (nextStartTime c) t;
                       stopped := true |}) ∧
     (∀ s, s ∉ sources c → (s < length (nodes c))%nat →
           nodes c' !! s = nodes c !! s)).
Proof.
  intros Hint. split.
  - intros Hm%without_parts_throws.
    unfold Session.step, Session.onmessage. by rewrite Hm.
  - intros [a Ha]%with_parts_returns.
    unfold Session.step, Session.onmessage. rewrite Ha, Hint.
    eexists _, _. split; [reflexivity|]. split; [reflexivity|].
    split; [done|]. split; [done|].
    destruct a as [a|]; [destruct (Js.truthy_string a) eqn:Hta|];
      cbn [interrupt Session.schedule nodes sources nextStartTime];
      (split; [|split]).
    + intros s n Hs Hn. rewrite stop_all_stops.
      rewrite decide_True by (apply elem_of_elements; set_solver).
      by rewrite (lookup_app_l_Some _ _ _ _ Hn).
    + intros b [= <-] _. rewrite stop_all_stops.
      rewrite decide_True by (apply elem_of_elements; set_solver).
      by rewrite lookup_app_r, Nat.sub_diag.
    + intros s Hs Hlt. rewrite stop_all_stops.
      rewrite decide_False.
      * by rewrite lookup_app_l.
      * rewrite elem_of_elements, elem_of_union, elem_of_singleton.
        intros [?|?]; [done | lia].
    + intros s n Hs Hn. rewrite stop_all_stops.
      rewrite decide_True by (by apply elem_of_elements). by rewrite Hn.
    + intros b [= <-] Hb. congruence.
    + intros s Hs Hlt. rewrite stop_all_stops.
      by rewrite decide_False by (by rewrite elem_of_elements).
    + intros s n Hs Hn. rewrite stop_all_stops.
      rewrite decide_True by (by apply elem_of_elements). by rewrite Hn.
    + intros b [=].
    + intros s Hs Hlt. rewrite stop_all_stops.
      by rewrite decide_False by (by rewrite elem_of_elements).
Qed.

(** X7. After an interruption that the handler got through, the discarded
    schedule holds nothing back: the next audio chunk, handled at a clock
    time [t >= 0], starts at [t], is the only tracked source, and
    [nextStartTime] becomes the double sum of [t] and the buffer's
    duration. *)
Theorem playback_restarts_at_the_clock (t0 t : float)
    (m0 m : LiveServerMessage) (b : string) (c : Conversation) :
  is_interrupted m0 = true → ¬ Stated.without_parts m0 →
  base64Audio_of m = Service.Return (Some b) → Js.truthy_string b = true →
  is_interrupted m = false →
  (0 <=? t)%float = true →
  let c' := step (step c (Message t0 m0)) (Message t m) in
  let audioBuffer :=
    decodeAudioData (decode b) (localOutputAudioContext c) 24000 1 in
  ∃ started n,
    nodes c' = started ++ [n] ∧
    buffer n = audioBuffer ∧ stopped n = false ∧
    (when n =? t)%float = true ∧
    nextStartTime c' = (when n + duration audioBuffer)%float ∧
    sources c' = {[ length started ]}.
Proof.
  intros Hi0 Hp0 Hb Htb Hi Ht c' audioBuffer. subst c' audioBuffer.
  destruct (interrupted_resets t0 m0 c Hi0 Hp0) as (Hs0 & Hn0 & Hc0).
  set (c0 := step c (Message t0 m0)) in *. clearbody c0.
  unfold Session.step, Session.onmessage. rewrite Hb, Htb, Hi.
  cbn [fst Session.schedule nodes sources nextStartTime].
  rewrite Hn0, Hs0, Hc0.
  eexists _, _. split; [reflexivity|]. cbn [buffer stopped when].
  split_and!; try done.
  - by apply DoubleFacts.Math_max_zero.
  - apply (left_id_L ∅ (∪)).
Qed.

End PlaybackFacts.

Lemma chunks_follow_the_rounded_schedule_witness :
  let chunks := Stated.audio_chunks Sample.decode Arrivals.decodeAudioData 0
                  Arrivals.three_chunks in
  Forall (λ e, Stated.no_interruption e = true) Arrivals.three_chunks ∧
  Stated.finite_chunks chunks ∧
  ∃ started,
    nodes (run Sample.decode Arrivals.decodeAudioData (initial 0)
             Arrivals.three_chunks)
      = started ∧
    Stated.starts_at_max 0 chunks started ∧
    Stated.in_order 0 chunks started.
Proof.
  intros chunks.
  assert (H : Forall (λ e, Stated.no_interruption e = true) Arrivals.three_chunks).
  { repeat constructor. }
  assert (Hfin : Stated.finite_chunks chunks).
  { repeat constructor. }
  split; [exact H|]. split; [exact Hfin|].
  destruct (chunks_follow_the_rounded_schedule Sample.decode
              Arrivals.decodeAudioData (initial 0) Arrivals.three_chunks H)
    as (started & Hn & Hs & _ & Ho).
  exists started. split; [exact Hn|]. split; [exact Hs|].
  exact (proj1 (Ho eq_refl Hfin)).
Defined.

(** C1 as stated fails: [nextStartTime] advances by the rounded sum, not by
    exactly the duration. With 0.7 s of audio started at 0.1 s it is set
    below the buffer's end, and the next chunk, which arrives while the
    buffer is playing, starts before that end; with 0.2 s of audio started
    at 0.1 s it is set above the end, and the next chunk starts after
    it. In both runs the first source is still tracked at the end. *)
Lemma rounded_schedule_overlaps_and_gaps :
  let run := run Sample.decode Arrivals.decodeAudioData (initial 0) in
  let ends n := (exact (when n) + exact (duration (buffer n)))%Q in
  (∃ n1 n2,
     nodes (run Arrivals.overlapping_chunks) = [n1; n2] ∧
     bool_decide (0%nat ∈ sources (run Arrivals.overlapping_chunks)) = true ∧
     when n1 = ratio 1 10 ∧ duration (buffer n1) = ratio 7 10 ∧
     when n2 = (ratio 1 10 + ratio 7 10)%float ∧
     (exact (ratio 1 2) < ends n1)%Q ∧
     (exact (when n2) < ends n1)%Q) ∧
  (∃ n1 n2,
     nodes (run Arrivals.gapped_chunks) = [n1; n2] ∧
     bool_decide (0%nat ∈ sources (run Arrivals.gapped_chunks)) = true ∧
     when n1 = ratio 1 10 ∧ duration (buffer n1) = ratio 1 5 ∧
     when n2 = (ratio 1 10 + ratio 1 5)%float ∧
     (exact (ratio 1 5) < ends n1)%Q ∧
     (ends n1 < exact (when n2))%Q).
Proof.
  split; eexists _, _; (split; [by vm_compute|]); by vm_compute.
Qed.

Lemma interruption_stops_everything_unless_it_throws_witness :
  let c := run Sample.decode Arrivals.decodeAudioData (initial 0)
             [Arrivals.chunk 1 10 16800] in
  let m := Arrivals.interrupted_without_parts in
  let c' := step Sample.decode Arrivals.decodeAudioData c
              (Message (ratio 1 2) m) in
  is_interrupted m = true ∧ Stated.without_parts m ∧
  onmessage Sample.decode Arrivals.decodeAudioData (ratio 1 2) m c
    = Service.Throw "TypeError" ∧
  elements (sources c') = [0%nat] ∧
  stopped <$> nodes c' = [false] ∧
  nextStartTime c' = (ratio 1 10 + ratio 7 10)%float.
Proof.
  intros c m c'.
  assert (Hi : is_interrupted m = true) by reflexivity.
  assert (Hm : Stated.without_parts m).
  { by exists (mkContent None). }
  destruct (interruption_stops_everything_unless_it_throws Sample.decode
              Arrivals.decodeAudioData (ratio 1 2) m c Hi) as [Hthrow _].
  destruct (Hthrow Hm) as [Ht Hc].
  split; [exact Hi|]. split; [exact Hm|]. split; [exact Ht|].
  subst c'. rewrite Hc. by vm_compute.
Defined.

Lemma playback_restarts_at_the_clock_witness :
  let m0 := Arrivals.message (Some []) true false None None in
  let m := Arrivals.message (Arrivals.audio 4800) false false None None in
  let c := run Sample.decode Arrivals.decodeAudioData (initial 0)
             Arrivals.three_chunks in
  let c' := step Sample.decode Arrivals.decodeAudioData
              (step Sample.decode Arrivals.decodeAudioData c
                 (Message (ratio 2 1) m0))
              (Message (ratio 3 1) m) in
  ∃ started n,
    nodes c' = started ++ [n] ∧ (when n =? ratio 3 1)%float = true ∧
    nextStartTime c' = (when n + ratio 1 5)%float.
Proof.
  intros m0 m c c'.
  destruct (playback_restarts_at_the_clock Sample.decode
              Arrivals.decodeAudioData (ratio 2 1) (ratio 3 1) m0 m
              (Arrivals.pcm 4800) c)
    as (started & n & Hn & _ & _ & Hw & Ht & _).
  - reflexivity.
  - intros (turn & [= <-] & Hnone). discriminate.
  - reflexivity.
  - reflexivity.
  - reflexivity.
  - reflexivity.
  - exists started, n. split; [exact Hn|]. split; [exact Hw|].
    subst c'. rewrite Ht. reflexivity.
Defined.

End SessionFacts.

(* ===================================================================== *)
(** ** Facts about [onMessage] between its awaits *)
(* ===================================================================== *)

Module AsyncFacts.
Import Types AudioUtils App Async.

(** With one file uploaded, a turn is completed with the input "hello" and
    a second one with "again" before the first question is answered: the
    second turn commits the text of the first once more. When the first
    run resumes it empties the accumulators, whatever they hold by then. *)
Example second_turn_commits_the_first_again :
  let s := onMessage_calls [Arrivals.notes] mounted
             [(Some "hello", None, true); (Some "again", None, true)] in
  transcriptionHistory s = [mkEntry user "hello"; mkEntry user "helloagain"] ∧
  currentInputTranscriptionRef s = "helloagain" ∧
  currentInputTranscriptionRef (resume (ContentFails (mkError "offline")) s)
    = "".
Proof. by vm_compute. Qed.

(** [App.onMessage] is the run with which nothing interleaves. *)
Lemma onMessage_uninterrupted (uploadedFiles : list File) (query : FileQuery)
    (i o : option string) (isTurnComplete : bool) (s : State) :
  onMessage uploadedFiles query i o isTurnComplete s
    = uninterrupted query (onMessage_begin uploadedFiles i o isTurnComplete s).
Proof.
  unfold onMessage, onMessage_begin, commit, uninterrupted.
  destruct isTurnComplete; [|done].
  set (s1 := accumulate i o s).
  set (fullInput := Js.trim (currentInputTranscriptionRef s1)).
  set (newHistory :=
         newHistory_of fullInput (Js.trim (currentOutputTranscriptionRef s1))).
  set (s2 := if (0 <? length newHistory)%nat
             then setTranscriptionHistory (λ prev, prev ++ newHistory) s1
             else s1).
  destruct (Js.truthy_string fullInput && (0 <? length uploadedFiles)%nat);
    [|done].
  cbn [fst snd]. by destruct query as [[e]|t [e]|t b].
Qed.

Lemma begin_within_turn (uploadedFiles : list File) (i o : option string)
    (s : State) :
  let r := onMessage_begin uploadedFiles i o false s in
  r.2 = None ∧
  transcriptionHistory r.1 = transcriptionHistory s ∧
  currentInputTranscriptionRef r.1
    = currentInputTranscriptionRef s +:+ default "" i ∧
  currentOutputTranscriptionRef r.1
    = currentOutputTranscriptionRef s +:+ default "" o.
Proof.
  unfold onMessage_begin. cbn [fst snd].
  by rewrite AppFacts.accumulate_history, AppFacts.accumulate_input,
    AppFacts.accumulate_output.
Qed.

Lemma asked_iff (uploadedFiles : list File) (input : string) :
  Js.truthy_string (Js.trim input) && (0 <? length uploadedFiles)%nat = true
  ↔ Stated.asks_files uploadedFiles input.
Proof.
  unfold Stated.asks_files.
  destruct uploadedFiles as [|f fs], (Js.trim input) as [|a x]; cbn;
    split; try done; by intros [? ?].
Qed.

Lemma not_asked_iff (uploadedFiles : list File) (input : string) :
  Js.truthy_string (Js.trim input) && (0 <? length uploadedFiles)%nat = false
  ↔ uploadedFiles = [] ∨ Js.trim input = "".
Proof.
  destruct uploadedFiles as [|f fs], (Js.trim input) as [|a x]; cbn;
    split; try done; eauto; by intros [?|?].
Qed.

Lemma begin_turn_complete (uploadedFiles : list File) (i o : option string)
    (s : State) :
  let r := onMessage_begin uploadedFiles i o true s in
  let input := currentInputTranscriptionRef s +:+ default "" i in
  let output := currentOutputTranscriptionRef s +:+ default "" o in
  transcriptionHistory r.1
    = transcriptionHistory s ++ Spec.committed_entries input output ∧
  (uploadedFiles = [] ∨ Js.trim input = "" →
   r.2 = None ∧
   currentInputTranscriptionRef r.1 = "" ∧
   currentOutputTranscriptionRef r.1 = "") ∧
  (Stated.asks_files uploadedFiles input →
   r.2 = Some (generateContentWithFiles (Js.trim input) uploadedFiles) ∧
   currentInputTranscriptionRef r.1 = input ∧
   currentOutputTranscriptionRef r.1 = output).
Proof.
  intros r input output. subst r. unfold onMessage_begin.
  pose proof (AppFacts.accumulate_input i o s) as Hi.
  pose proof (AppFacts.accumulate_output i o s) as Ho.
  pose proof (AppFacts.accumulate_history i o s) as Hh.
  fold input in Hi. fold output in Ho.
  set (s1 := accumulate i o s) in *.
  rewrite Hi, Ho, AppFacts.newHistory_committed.
  set (entries := Spec.committed_entries input output).
  set (s2 := if (0 <? length entries)%nat
             then setTranscriptionHistory (λ prev, prev ++ entries) s1
             else s1).
  assert (H2 : transcriptionHistory s2 = transcriptionHistory s ++ entries
               ∧ currentInputTranscriptionRef s2 = input
               ∧ currentOutputTranscriptionRef s2 = output).
  { subst s2. destruct entries as [|e entries]; cbn.
    - by rewrite app_nil_r.
    - by rewrite Hh. }
  destruct H2 as (H2 & H2i & H2o).
  destruct (Js.truthy_string (Js.trim input) && (0 <? length uploadedFiles)%nat)
    eqn:Hask; cbn [fst snd].
  - apply asked_iff in Hask as Hasks. split; [done|]. split.
    + intros Hno%not_asked_iff. congruence.
    + done.
  - apply not_asked_iff in Hask as Hno. split; [done|]. split; [done|].
    intros Hasks%asked_iff. congruence.
Qed.

Lemma resume_resets (query : FileQuery) (s : State) :
  currentInputTranscriptionRef (resume query s) = "" ∧
  currentOutputTranscriptionRef (resume query s) = "".
Proof. by destruct query. Qed.

(** C4, a defect of the callback. A call with [isTurnComplete] appends to
    the history, at once, the trimmed accumulated input as a 'user' entry
    and then the trimmed accumulated output as a 'gemini' entry, each only
    when not empty. When it asks no question about uploaded files it ends
    with both accumulators empty. When it asks one it is suspended with
    both accumulators as they were: they are emptied only when the run
    resumes and ends, and a turn completed before that commits the text of
    this turn once more, in front of its own. *)
Theorem turn_complete_commits_and_resets_late (uploadedFiles : list File)
    (inputTranscript outputTranscript : option string) (s : State) :
  let r := onMessage_begin uploadedFiles inputTranscript outputTranscript
             true s in
  let input := currentInputTranscriptionRef s +:+ default "" inputTranscript in
  let output :=
    currentOutputTranscriptionRef s +:+ default "" outputTranscript in
  transcriptionHistory r.1
    = transcriptionHistory s ++ Spec.committed_entries input output ∧
  (uploadedFiles = [] ∨ Js.trim input = "" →
   r.2 = None ∧
   currentInputTranscriptionRef r.1 = "" ∧
   currentOutputTranscriptionRef r.1 = "") ∧
  (Stated.asks_files uploadedFiles input →
   r.2 = Some (generateContentWithFiles (Js.trim input) uploadedFiles) ∧
   currentInputTranscriptionRef r.1 = input ∧
   currentOutputTranscriptionRef r.1 = output ∧
   (∀ query s',
      currentInputTranscriptionRef (resume query s') = "" ∧
      currentOutputTranscriptionRef (resume query s') = "") ∧
   (∀ i2 o2,
      transcriptionHistory (onMessage_begin uploadedFiles i2 o2 true r.1).1
        = transcriptionHistory s
            ++ Spec.committed_entries input output
            ++ Spec.committed_entries (input +:+ default "" i2)
                 (output +:+ default "" o2))).
Proof.
  intros r input output.
  destruct (begin_turn_complete uploadedFiles inputTranscript outputTranscript s)
    as (Hh & Hno & Hask).
  fold r input output in Hh, Hno, Hask.
  split; [done|]. split; [done|].
  intros Hasks. destruct (Hask Hasks) as (Hr & Hi & Ho).
  split_and!; try done.
  - apply resume_resets.
  - intros i2 o2.
    destruct (begin_turn_complete uploadedFiles i2 o2 r.1) as (Hh2 & _).
    by rewrite Hh2, Hh, Hi, Ho, <-app_assoc.
Qed.

Lemma turn_complete_commits_and_resets_late_witness :
  let r := onMessage_begin [Arrivals.notes] (Some "hello") None true mounted in
  Stated.asks_files [Arrivals.notes] "hello" ∧
  r.2 = Some (generateContentWithFiles "hello" [Arrivals.notes]) ∧
  currentInputTranscriptionRef r.1 = "hello" ∧
  transcriptionHistory
    (onMessage_begin [Arrivals.notes] (Some "again") None true r.1).1
    = [mkEntry user "hello"; mkEntry user "helloagain"].
Proof.
  intros r.
  assert (H : Stated.asks_files [Arrivals.notes] "hello").
  { split; discriminate. }
  split; [exact H|].
  destruct (turn_complete_commits_and_resets_late [Arrivals.notes]
              (Some "hello") None mounted) as (_ & _ & Hask).
  destruct (Hask H) as (Hr & Hi & _ & _ & Hnext).
  split; [exact Hr|]. split; [exact Hi|].
  subst r. rewrite (Hnext (Some "again") None). reflexivity.
Defined.

Lemma calls_within_turn (uploadedFiles : list File)
    (calls : list (option string * option string * bool)) (s : State) :
  Stated.within_turn calls →
  currentInputTranscriptionRef (onMessage_calls uploadedFiles s calls)
    = currentInputTranscriptionRef s
        +:+ Spec.fragments (Stated.input_fragments calls) ∧
  currentOutputTranscriptionRef (onMessage_calls uploadedFiles s calls)
    = currentOutputTranscriptionRef s
        +:+ Spec.fragments (Stated.output_fragments calls).
Proof.
  intros Hcalls. revert s.
  induction Hcalls as [|[[i o] turn] calls Hturn Hcalls IH]; intros s.
  - cbn. by rewrite !AppFacts.append_empty_r.
  - cbn [snd] in Hturn. subst turn.
    unfold onMessage_calls in *. cbn [foldl fst snd].
    destruct (IH (onMessage_begin uploadedFiles i o false s).1) as [Hi Ho].
    destruct (begin_within_turn uploadedFiles i o s) as (_ & _ & Hi1 & Ho1).
    unfold Stated.input_fragments, Stated.output_fragments in *.
    cbn [fmap list_fmap fst snd].
    by rewrite Hi, Ho, Hi1, Ho1, !AppFacts.fragments_cons,
      !AppFacts.append_assoc.
Qed.

Lemma calls_within_turn_frame (uploadedFiles : list File)
    (calls : list (option string * option string * bool)) (s : State) :
  Stated.within_turn calls →
  let s' := onMessage_calls uploadedFiles s calls in
  appState s' = appState s ∧ error s' = error s ∧
  isProcessingFileQuery s' = isProcessingFileQuery s ∧
  transcriptionHistory s' = transcriptionHistory s.
Proof.
  intros Hcalls. revert s.
  induction Hcalls as [|[[i o] turn] calls Hturn Hcalls IH]; intros s; [done|].
  cbn [snd] in Hturn. subst turn.
  unfold onMessage_calls in *. cbn [foldl fst snd].
  destruct (IH (onMessage_begin uploadedFiles i o false s).1)
    as (Ha & He & Hp & Hh).
  cbn zeta in *. rewrite Ha, He, Hp, Hh.
  unfold onMessage_begin. cbn [fst].
  destruct (AppExtras.accumulate_frame i o s) as (-> & -> & _ & -> & _).
  by rewrite AppFacts.accumulate_history.
Qed.

(** X26. From the call that asks the question about the files until the
    suspended run resumes, through any messages that complete no turn, the
    status line reads that Gemini is thinking about the files and the error
    banner is empty; once the run has resumed and ended the flag behind
    that line is cleared, however the question ended. *)
Theorem status_while_the_question_is_pending (uploadedFiles : list File)
    (i o : option string)
    (calls : list (option string * option string * bool))
    (query : FileQuery) (s : State) :
  Stated.asks_files uploadedFiles
    (currentInputTranscriptionRef s +:+ default "" i) →
  Stated.within_turn calls →
  let s1 :=
    onMessage_calls uploadedFiles
      (onMessage_begin uploadedFiles i o true s).1 calls in
  status_line s1 = Some "Gemini is thinking about your files..." ∧
  error s1 = None ∧
  isProcessingFileQuery (resume query s1) = false ∧
  appState (resume query s1) = appState s.
Proof.
  intros Hasks Hcalls s1.
  destruct (calls_within_turn_frame uploadedFiles calls
              (onMessage_begin uploadedFiles i o true s).1 Hcalls)
    as (Ha & He & Hp & _).
  fold s1 in Ha, He, Hp.
  assert (H0 : appState (onMessage_begin uploadedFiles i o true s).1
               = appState s
               ∧ error (onMessage_begin uploadedFiles i o true s).1 = None
               ∧ isProcessingFileQuery
                   (onMessage_begin uploadedFiles i o true s).1 = true).
  { unfold onMessage_begin.
    rewrite AppFacts.accumulate_input.
    apply asked_iff in Hasks. rewrite Hasks. cbn [fst].
    destruct (AppExtras.accumulate_frame i o s) as (Has & _).
    by destruct (0 <? length (newHistory_of _ _))%nat. }
  destruct H0 as (Ha0 & He0 & Hp0).
  rewrite Ha0 in Ha. rewrite He0 in He. rewrite Hp0 in Hp.
  split_and!.
  - unfold status_line, View.renderStatus. by rewrite Hp.
  - done.
  - by destruct query.
  - rewrite <-Ha. by destruct query.
Qed.

Lemma status_while_the_question_is_pending_witness :
  let s1 :=
    onMessage_calls [Arrivals.notes]
      (onMessage_begin [Arrivals.notes] (Some "hello") None true
         (onOpen mounted)).1
      [(Some "again", None, false)] in
  status_line s1 = Some "Gemini is thinking about your files..." ∧
  status_line (resume (ContentFails (mkError "offline")) s1) = None.
Proof.
  intros s1.
  destruct (status_while_the_question_is_pending [Arrivals.notes]
              (Some "hello") None [(Some "again", None, false)]
              (ContentFails (mkError "offline")) (onOpen mounted))
    as (Hs & _ & Hp & Ha).
  - split; discriminate.
  - repeat constructor.
  - split; [exact Hs|].
    unfold status_line, View.renderStatus. fold s1 in Hp, Ha.
    rewrite Hp, Ha. reflexivity.
Defined.

Section DeliveryFacts.
Variable decode : string → list Z.
Variable decodeAudioData : list Z → nat → Z → Z → Session.AudioBuffer.

Local Abbreviation deliver := (deliver decode decodeAudioData).
Local Abbreviation deliver_all := (deliver_all decode decodeAudioData).

(** What reaches the component of a sequence of server messages is the
    calls of [onMessage] for the messages on which [onmessage] does not
    throw. *)
Lemma deliver_all_calls (uploadedFiles : list File)
    (ms : list (PrimFloat.float * Session.LiveServerMessage))
    (cs : Session.Conversation * State) :
  (deliver_all uploadedFiles cs ms).2
    = onMessage_calls uploadedFiles cs.2 (Stated.calls_of ms).
Proof.
  revert cs. induction ms as [|[t m] ms IH]; intros cs; [done|].
  unfold Async.deliver_all in *. cbn [foldl]. rewrite IH.
  unfold Stated.calls_of. cbn [omap list_omap fst snd].
  unfold Async.deliver, Session.onmessage, Stated.handed_on at 2.
  cbn [fst snd].
  by destruct (Session.base64Audio_of m).
Qed.

(** C5, a defect of the callback, the one of C4. Over server messages of
    which none that reaches [onMessage] completes the turn, each
    accumulator grows by the concatenation, in arrival order, of the
    fragments of its kind; a message on which [onmessage] throws adds
    nothing. Counted from a freshly mounted component, or from a call that
    completed a turn without asking about files, each accumulator is
    exactly that concatenation. Counted from a call that completed a turn
    and asked about files, the text of that turn stays in front of it, and
    when the suspended run resumes, the fragments are dropped. *)
Theorem fragments_accumulate_unless_reset_late (uploadedFiles : list File)
    (ms : list (PrimFloat.float * Session.LiveServerMessage))
    (cs : Session.Conversation * State) :
  let inputs := Spec.fragments (Stated.input_fragments (Stated.calls_of ms)) in
  let outputs := Spec.fragments (Stated.output_fragments (Stated.calls_of ms)) in
  Stated.within_turn (Stated.calls_of ms) →
  (currentInputTranscriptionRef (deliver_all uploadedFiles cs ms).2
     = currentInputTranscriptionRef cs.2 +:+ inputs ∧
   currentOutputTranscriptionRef (deliver_all uploadedFiles cs ms).2
     = currentOutputTranscriptionRef cs.2 +:+ outputs) ∧
  (∀ c,
     let cs' := deliver_all uploadedFiles (c, mounted) ms in
     currentInputTranscriptionRef cs'.2 = inputs ∧
     currentOutputTranscriptionRef cs'.2 = outputs) ∧
  (∀ i o,
     let input := currentInputTranscriptionRef cs.2 +:+ default "" i in
     let output := currentOutputTranscriptionRef cs.2 +:+ default "" o in
     let cs' :=
       deliver_all uploadedFiles
         (cs.1, (onMessage_begin uploadedFiles i o true cs.2).1) ms in
     (uploadedFiles = [] ∨ Js.trim input = "" →
      currentInputTranscriptionRef cs'.2 = inputs ∧
      currentOutputTranscriptionRef cs'.2 = outputs) ∧
     (Stated.asks_files uploadedFiles input →
      currentInputTranscriptionRef cs'.2 = input +:+ inputs ∧
      currentOutputTranscriptionRef cs'.2 = output +:+ outputs ∧
      ∀ query,
        currentInputTranscriptionRef (resume query cs'.2) = "" ∧
        currentOutputTranscriptionRef (resume query cs'.2) = "")).
Proof.
  intros inputs outputs Hms.
  assert (Hall : ∀ cs0,
            currentInputTranscriptionRef (deliver_all uploadedFiles cs0 ms).2
              = currentInputTranscriptionRef cs0.2 +:+ inputs ∧
            currentOutputTranscriptionRef (deliver_all uploadedFiles cs0 ms).2
              = currentOutputTranscriptionRef cs0.2 +:+ outputs).
  { intros cs0. rewrite deliver_all_calls. by apply calls_within_turn. }
  split; [apply Hall|]. split.
  - intros c cs'. subst cs'. by destruct (Hall (c, mounted)) as [-> ->].
  - intros i o input output cs'. subst cs'.
    destruct (begin_turn_complete uploadedFiles i o cs.2) as (_ & Hno & Hask).
    fold input output in Hno, Hask.
    destruct (Hall (cs.1, (onMessage_begin uploadedFiles i o true cs.2).1))
      as [Hi Ho].
    cbn [snd] in Hi, Ho. split.
    + intros H. destruct (Hno H) as (_ & Hi0 & Ho0).
      by rewrite Hi, Ho, Hi0, Ho0.
    + intros H. destruct (Hask H) as (_ & Hi0 & Ho0).
      rewrite Hi, Ho, Hi0, Ho0. split_and!; try done.
      intros query. apply resume_resets.
Qed.

End DeliveryFacts.

Lemma fragments_accumulate_unless_reset_late_witness :
  let ms := [(Double.ratio 1 2,
              Arrivals.message (Some []) false false (Some "again") None);
             (Double.ratio 1 1, Arrivals.message None false true None None);
             (Double.ratio 3 2,
              Arrivals.message (Some []) false false (Some "!") (Some "hi"))] in
  let s := (onMessage_begin [Arrivals.notes] (Some "hello") None true
              mounted).1 in
  let cs := deliver_all Sample.decode Arrivals.decodeAudioData [Arrivals.notes]
              (Session.initial 0, s) ms in
  Stated.within_turn (Stated.calls_of ms) ∧
  Stated.asks_files [Arrivals.notes] "hello" ∧
  currentInputTranscriptionRef cs.2 = "helloagain!" ∧
  currentOutputTranscriptionRef cs.2 = "hi" ∧
  currentInputTranscriptionRef (resume (ContentFails (mkError "offline")) cs.2)
    = "".
Proof.
  intros ms s cs.
  assert (Hms : Stated.within_turn (Stated.calls_of ms)).
  { repeat constructor. }
  assert (H : Stated.asks_files [Arrivals.notes] "hello").
  { split; discriminate. }
  split; [exact Hms|]. split; [exact H|].
  destruct (fragments_accumulate_unless_reset_late Sample.decode
              Arrivals.decodeAudioData [Arrivals.notes] ms
              (Session.initial 0, mounted) Hms) as (_ & _ & Hturn).
  destruct (Hturn (Some "hello") None) as [_ Hask].
  destruct (Hask H) as (Hi & Ho & Hq).
  subst cs s. cbn [fst snd] in Hi, Ho, Hq.
  rewrite Hi, Ho. split; [reflexivity|]. split; [reflexivity|].
  exact (proj1 (Hq (ContentFails (mkError "offline")))).
Defined.

End AsyncFacts.
